(** * synth-ai: the synthesis engine ([src/services/audioEngine.ts])

    A shallow embedding of the [AudioEngine] class and of the part of the
    Web Audio platform it drives, followed by the properties of the note
    lifecycle, the envelope schedule, the effects parameters and the
    distortion curve.  The knob and the oscilloscope of the front panel
    ([src/unnamed/part_000]) and the bridge to the hardware
    ([src/unnamed/part_001]) follow, each with its own properties.

    Conventions.
    - A JavaScript [number] is read as a rational ([Q]): arithmetic is exact,
      there is no rounding, no infinity and no NaN.  [Math.PI] is the
      rational value of the double the platform exposes.
    - Audio nodes are values that carry the identity the context gave them
      at creation.  Every node has one owner at a time (an engine field, a
      registry entry, or the closure of a pending timeout), so the owner's
      copy is the node.  Connections live in the context, keyed by identity.
    - Platform calls are total: the model has no exceptions, but for the
      [WebSocket] constructor, whose failure the bridge catches.  The one
      exception the engine can meet, the [RangeError] of a ramp that ends
      at a negative time, is kept out by hypothesis: the properties of
      [triggerAttack] and [triggerRelease] are stated for envelope times
      that are not negative ([attack_in_range], [release_in_range]). *)

From Stdlib Require Import QArith Qabs Qminmax Qround Qpower Lqa.
From stdpp Require Import gmap strings list.

Local Open Scope Q_scope.

(** ** [src/types.ts] *)

Inductive OscillatorType := sine | square | sawtooth | triangle.

Definition LfoWaveform : Type := OscillatorType.

#[global] Instance OscillatorType_eq_dec : EqDecision OscillatorType.
Proof. solve_decision. Defined.

Module LfoTarget.
Inductive t := none | cutoff | pitch | amp.
End LfoTarget.

Module SynthPatch.
Record t := mk {
  oscType : OscillatorType;
  filterCutoff : Q;
  filterResonance : Q;
  ampAttack : Q;
  ampDecay : Q;
  ampSustain : Q;
  ampRelease : Q;
  masterGain : Q;
  lfoWaveform : LfoWaveform;
  lfoRate : Q;
  lfoDepth : Q;
  lfoTarget : LfoTarget.t;
  distortionAmount : Q;
  delayTime : Q;
  delayFeedback : Q;
  reverbMix : Q
}.
End SynthPatch.

Definition DEFAULT_PATCH : SynthPatch.t :=
  {| SynthPatch.oscType := sawtooth;
     SynthPatch.filterCutoff := 2000;
     SynthPatch.filterResonance := 1;
     SynthPatch.ampAttack := 0.1;
     SynthPatch.ampDecay := 0.2;
     SynthPatch.ampSustain := 0.7;
     SynthPatch.ampRelease := 1.0;
     SynthPatch.masterGain := 0.5;
     SynthPatch.lfoWaveform := sine;
     SynthPatch.lfoRate := 5;
     SynthPatch.lfoDepth := 0;
     SynthPatch.lfoTarget := LfoTarget.none;
     SynthPatch.distortionAmount := 0;
     SynthPatch.delayTime := 0.3;
     SynthPatch.delayFeedback := 0.3;
     SynthPatch.reverbMix := 0 |}.

(** ** The Web Audio platform, as far as the engine uses it *)

(** [Math.PI], the double 0x400921FB54442D18. *)
Definition Math_PI : Q := 884279719003555 # 281474976710656.

Definition Math_max (a b : Q) : Q := Qmax a b.

Definition Math_abs (x : Q) : Q := Qabs x.

(** [Math.pow] on the integral exponents the engine passes. *)
Definition Math_pow (b e : Q) : Q := Qpower b (Qfloor e).

(** One entry of an [AudioParam]'s automation timeline. *)
Inductive AutomationEvent :=
| SetValueAtTime (value startTime : Q)
| LinearRampToValueAtTime (value endTime : Q)
| ExponentialRampToValueAtTime (value endTime : Q)
| SetTargetAtTime (target startTime timeConstant : Q).

Definition event_time (ev : AutomationEvent) : Q :=
  match ev with
  | SetValueAtTime _ t => t
  | LinearRampToValueAtTime _ t => t
  | ExponentialRampToValueAtTime _ t => t
  | SetTargetAtTime _ t _ => t
  end.

Module AudioParam.
(** [value] is what the [value] getter returns to the control thread;
    [events] is the timeline, in the order the calls were made. *)
Record t := mk { value : Q; events : list AutomationEvent }.

Definition create (defaultValue : Q) : t := mk defaultValue [].

Definition schedule (ev : AutomationEvent) (p : t) : t :=
  mk (value p) (events p ++ [ev]).

Definition setValueAtTime (v startTime : Q) (p : t) : t :=
  schedule (SetValueAtTime v startTime) p.

Definition linearRampToValueAtTime (v endTime : Q) (p : t) : t :=
  schedule (LinearRampToValueAtTime v endTime) p.

Definition exponentialRampToValueAtTime (v endTime : Q) (p : t) : t :=
  schedule (ExponentialRampToValueAtTime v endTime) p.

Definition setTargetAtTime (target startTime timeConstant : Q) (p : t) : t :=
  schedule (SetTargetAtTime target startTime timeConstant) p.

(** Drops every event whose time is at or after [cancelTime]. *)
Definition cancelScheduledValues (cancelTime : Q) (p : t) : t :=
  mk (value p)
     (List.filter (fun ev => negb (Qle_bool cancelTime (event_time ev)))
                  (events p)).

(** The [value] setter. *)
Definition set_value (v : Q) (p : t) : t := mk v (events p).
End AudioParam.

Definition NodeId : Type := nat.

Inductive ParamName := p_gain | p_frequency | p_detune | p_Q | p_delayTime.

(** Where a connection ends: a node's input or one of its parameters. *)
Inductive Port :=
| Input (node : NodeId)
| Param (node : NodeId) (name : ParamName).

Module GainNode.
Record t := mk { id : NodeId; gain : AudioParam.t }.
Definition with_gain (f : AudioParam.t -> AudioParam.t) (n : t) : t :=
  mk (id n) (f (gain n)).
End GainNode.

Module OscillatorNode.
Record t := mk {
  id : NodeId;
  type : OscillatorType;
  frequency : AudioParam.t;
  detune : AudioParam.t;
  startTime : option Q;
  stopTime : option Q
}.
Definition set_type (ty : OscillatorType) (n : t) : t :=
  mk (id n) ty (frequency n) (detune n) (startTime n) (stopTime n).
Definition with_frequency (f : AudioParam.t -> AudioParam.t) (n : t) : t :=
  mk (id n) (type n) (f (frequency n)) (detune n) (startTime n) (stopTime n).
Definition start (when : Q) (n : t) : t :=
  mk (id n) (type n) (frequency n) (detune n) (Some when) (stopTime n).
Definition stop (when : Q) (n : t) : t :=
  mk (id n) (type n) (frequency n) (detune n) (startTime n) (Some when).
End OscillatorNode.

Inductive BiquadFilterType := lowpass | highpass | bandpass.

Module BiquadFilterNode.
Record t := mk {
  id : NodeId;
  type : BiquadFilterType;
  frequency : AudioParam.t;
  Q : AudioParam.t
}.
Definition set_type (ty : BiquadFilterType) (n : t) : t :=
  mk (id n) ty (frequency n) (Q n).
Definition with_frequency (f : AudioParam.t -> AudioParam.t) (n : t) : t :=
  mk (id n) (type n) (f (frequency n)) (Q n).
Definition with_Q (f : AudioParam.t -> AudioParam.t) (n : t) : t :=
  mk (id n) (type n) (frequency n) (f (Q n)).
End BiquadFilterNode.

Inductive OverSampleType := oversample_none | oversample_2x | oversample_4x.

Module WaveShaperNode.
Record t := mk {
  id : NodeId;
  curve : option (list Q);
  oversample : OverSampleType
}.
Definition set_curve (c : list Q) (n : t) : t :=
  mk (id n) (Some c) (oversample n).
Definition set_oversample (o : OverSampleType) (n : t) : t :=
  mk (id n) (curve n) o.
End WaveShaperNode.

Module DelayNode.
Record t := mk { id : NodeId; maxDelayTime : Q; delayTime : AudioParam.t }.
Definition with_delayTime (f : AudioParam.t -> AudioParam.t) (n : t) : t :=
  mk (id n) (maxDelayTime n) (f (delayTime n)).
End DelayNode.

Module AudioBuffer.
Record t := mk {
  numberOfChannels : nat;
  length : Q;
  sampleRate : Q;
  channels : list (list Q)
}.
End AudioBuffer.

Module ConvolverNode.
Record t := mk { id : NodeId; buffer : option AudioBuffer.t }.
Definition set_buffer (b : AudioBuffer.t) (n : t) : t := mk (id n) (Some b).
End ConvolverNode.

Module AnalyserNode.
Record t := mk { id : NodeId; fftSize : Z }.
Definition set_fftSize (s : Z) (n : t) : t := mk (id n) s.
End AnalyserNode.

Inductive AudioContextState := suspended | running | closed.

#[global] Instance AudioContextState_eq_dec : EqDecision AudioContextState.
Proof. solve_decision. Defined.

(** What the host supplies when the engine starts: the hardware sample
    rate, the state a new context is created in (suspended until a user
    gesture), and the successive results of [Math.random]. *)
Record Host := mkHost {
  host_sampleRate : Q;
  host_state : AudioContextState;
  Math_random : Z -> Q
}.

Module AudioContext.
Record t := mk {
  currentTime : Q;
  state : AudioContextState;
  sampleRate : Q;
  nextNodeId : NodeId;
  connections : list (NodeId * Port)
}.

(** The context's output node. *)
Definition destination : NodeId := 0%nat.

Definition create (h : Host) : t :=
  mk 0 (host_state h) (host_sampleRate h) 1%nat [].

Definition fresh (c : t) : t :=
  mk (currentTime c) (state c) (sampleRate c) (S (nextNodeId c))
     (connections c).

(** Construction defaults are the platform's: a gain of 1, a 440 Hz sine,
    a low-pass at 350 Hz with Q 1, a zero delay, no curve, an FFT size of
    2048. *)
Definition createGain (c : t) : GainNode.t * t :=
  (GainNode.mk (nextNodeId c) (AudioParam.create 1), fresh c).

Definition createOscillator (c : t) : OscillatorNode.t * t :=
  (OscillatorNode.mk (nextNodeId c) sine (AudioParam.create 440)
     (AudioParam.create 0) None None, fresh c).

Definition createBiquadFilter (c : t) : BiquadFilterNode.t * t :=
  (BiquadFilterNode.mk (nextNodeId c) lowpass (AudioParam.create 350)
     (AudioParam.create 1), fresh c).

Definition createWaveShaper (c : t) : WaveShaperNode.t * t :=
  (WaveShaperNode.mk (nextNodeId c) None oversample_none, fresh c).

Definition createDelay (maxDelayTime : Q) (c : t) : DelayNode.t * t :=
  (DelayNode.mk (nextNodeId c) maxDelayTime (AudioParam.create 0), fresh c).

Definition createConvolver (c : t) : ConvolverNode.t * t :=
  (ConvolverNode.mk (nextNodeId c) None, fresh c).

Definition createAnalyser (c : t) : AnalyserNode.t * t :=
  (AnalyserNode.mk (nextNodeId c) 2048, fresh c).

(** [src.connect(dst)] *)
Definition connect (src : NodeId) (dst : Port) (c : t) : t :=
  mk (currentTime c) (state c) (sampleRate c) (nextNodeId c)
     (connections c ++ [(src, dst)]).

(** [src.disconnect()]: every outgoing connection of [src] goes. *)
Definition disconnect (src : NodeId) (c : t) : t :=
  mk (currentTime c) (state c) (sampleRate c) (nextNodeId c)
     (List.filter (fun e => negb (Nat.eqb (fst e) src)) (connections c)).

Definition resume (c : t) : t :=
  mk (currentTime c) running (sampleRate c) (nextNodeId c) (connections c).

(** The hardware clock moves on. *)
Definition advance (dt : Q) (c : t) : t :=
  mk (currentTime c + dt) (state c) (sampleRate c) (nextNodeId c)
     (connections c).
End AudioContext.

(** ** [src/services/audioEngine.ts] *)

(** The value type of the [activeNotes] map. *)
Module Voice.
Record t := mk {
  osc : OscillatorNode.t;
  filter : BiquadFilterNode.t;
  amp : GainNode.t;
  lfo : OscillatorNode.t;
  lfoGain : GainNode.t
}.
End Voice.

(** The one closure the engine hands to [setTimeout]: it captured [note]
    and disconnects its five nodes. *)
Inductive TimerHandler := DisconnectNote (note : Voice.t).

(** A pending [setTimeout(handler, delay)], [delay] in milliseconds. *)
Record Timeout := mkTimeout { handler : TimerHandler; delay : Q }.

(** The fields of the class, and the host's queue of pending timeouts. *)
Record AudioEngine := mkEngine {
  context : option AudioContext.t;
  masterGain : option GainNode.t;
  distortionNode : option WaveShaperNode.t;
  delayNode : option DelayNode.t;
  delayFeedbackNode : option GainNode.t;
  delayWetNode : option GainNode.t;
  reverbNode : option ConvolverNode.t;
  reverbWetNode : option GainNode.t;
  reverbDryNode : option GainNode.t;
  analyser : option AnalyserNode.t;
  activeNotes : gmap string Voice.t;
  timeouts : list Timeout
}.

(** [new AudioEngine()] *)
Definition new_AudioEngine : AudioEngine :=
  mkEngine None None None None None None None None None None ∅ [].

Definition set_context (c : AudioContext.t) (e : AudioEngine) : AudioEngine :=
  mkEngine (Some c) (masterGain e) (distortionNode e) (delayNode e)
    (delayFeedbackNode e) (delayWetNode e) (reverbNode e) (reverbWetNode e)
    (reverbDryNode e) (analyser e) (activeNotes e) (timeouts e).

(** [for (let i = start; ...; i++) out[i] = body(i)], run [count] times. *)
Fixpoint for_loop {A : Type} (count : nat) (i : Z) (body : Z -> A) : list A :=
  match count with
  | O => []
  | S n => body i :: for_loop n (i + 1)%Z body
  end.

Definition createImpulseResponse (h : Host) (c : AudioContext.t)
    (duration decay : Q) : AudioBuffer.t :=
  let rate := AudioContext.sampleRate c in
  let length := rate * duration in
  let frames := Z.to_nat (Qfloor length) in
  let left :=
    for_loop frames 0
      (fun i => (Math_random h (2 * i) * 2 - 1)
                * Math_pow (1 - inject_Z i / length) decay) in
  let right :=
    for_loop frames 0
      (fun i => (Math_random h (2 * i + 1) * 2 - 1)
                * Math_pow (1 - inject_Z i / length) decay) in
  AudioBuffer.mk 2 length rate [left; right].

Definition init (h : Host) (e : AudioEngine) : AudioEngine :=
  match context e with
  | Some _ => e
  | None =>
    let ctx := AudioContext.create h in
    let '(masterGain, ctx) := AudioContext.createGain ctx in
    let '(distortionNode, ctx) := AudioContext.createWaveShaper ctx in
    let '(delayNode, ctx) := AudioContext.createDelay 5.0 ctx in
    let '(delayFeedbackNode, ctx) := AudioContext.createGain ctx in
    let '(delayWetNode, ctx) := AudioContext.createGain ctx in
    let ctx := AudioContext.connect (DelayNode.id delayNode)
                 (Input (GainNode.id delayFeedbackNode)) ctx in
    let ctx := AudioContext.connect (GainNode.id delayFeedbackNode)
                 (Input (DelayNode.id delayNode)) ctx in
    let '(reverbNode, ctx) := AudioContext.createConvolver ctx in
    let '(reverbWetNode, ctx) := AudioContext.createGain ctx in
    let '(reverbDryNode, ctx) := AudioContext.createGain ctx in
    let reverbNode :=
      ConvolverNode.set_buffer (createImpulseResponse h ctx 2.0 2.0)
        reverbNode in
    let '(analyser, ctx) := AudioContext.createAnalyser ctx in
    let analyser := AnalyserNode.set_fftSize 2048 analyser in
    let ctx := AudioContext.connect (GainNode.id masterGain)
                 (Input (WaveShaperNode.id distortionNode)) ctx in
    let distOut := distortionNode in
    let '(delayInput, ctx) := AudioContext.createGain ctx in
    let ctx := AudioContext.connect (WaveShaperNode.id distOut)
                 (Input (GainNode.id delayInput)) ctx in
    let '(delayOut, ctx) := AudioContext.createGain ctx in
    let ctx := AudioContext.connect (GainNode.id delayInput)
                 (Input (DelayNode.id delayNode)) ctx in
    let ctx := AudioContext.connect (DelayNode.id delayNode)
                 (Input (GainNode.id delayWetNode)) ctx in
    let ctx := AudioContext.connect (GainNode.id delayWetNode)
                 (Input (GainNode.id delayOut)) ctx in
    let ctx := AudioContext.connect (GainNode.id delayInput)
                 (Input (GainNode.id delayOut)) ctx in
    let reverbOut := analyser in
    let ctx := AudioContext.connect (GainNode.id delayOut)
                 (Input (ConvolverNode.id reverbNode)) ctx in
    let ctx := AudioContext.connect (ConvolverNode.id reverbNode)
                 (Input (GainNode.id reverbWetNode)) ctx in
    let ctx := AudioContext.connect (GainNode.id reverbWetNode)
                 (Input (AnalyserNode.id reverbOut)) ctx in
    let ctx := AudioContext.connect (GainNode.id delayOut)
                 (Input (GainNode.id reverbDryNode)) ctx in
    let ctx := AudioContext.connect (GainNode.id reverbDryNode)
                 (Input (AnalyserNode.id reverbOut)) ctx in
    let ctx := AudioContext.connect (AnalyserNode.id analyser)
                 (Input AudioContext.destination) ctx in
    let masterGain :=
      GainNode.with_gain (AudioParam.set_value 0.5) masterGain in
    mkEngine (Some ctx) (Some masterGain) (Some distortionNode)
      (Some delayNode) (Some delayFeedbackNode) (Some delayWetNode)
      (Some reverbNode) (Some reverbWetNode) (Some reverbDryNode)
      (Some analyser) (activeNotes e) (timeouts e)
  end.

Definition n_samples : Z := 44100.

(** The input amplitude sample [i] stands for. *)
Definition sample_x (i : Z) : Q := (inject_Z i * 2) / inject_Z n_samples - 1.

(** [amount] is a number by its type, so [k] is [amount]; the curve is the
    array the two loops fill. *)
Definition makeDistortionCurve (amount : Q) : list Q :=
  let k := amount in
  let deg := Math_PI / 180 in
  if Qeq_bool amount 0 then
    for_loop (Z.to_nat n_samples) 0
      (fun i => (inject_Z i * 2) / inject_Z n_samples - 1)
  else
    for_loop (Z.to_nat n_samples) 0
      (fun i =>
         let x := (inject_Z i * 2) / inject_Z n_samples - 1 in
         (3 + k) * x * 20 * deg / (Math_PI + k * Math_abs x)).

Arguments makeDistortionCurve : simpl never.
Arguments createImpulseResponse : simpl never.

Definition getAnalyser (e : AudioEngine) : option AnalyserNode.t :=
  analyser e.

Definition resume (e : AudioEngine) : AudioEngine :=
  match context e with
  | Some ctx =>
    if decide (AudioContext.state ctx = suspended)
    then set_context (AudioContext.resume ctx) e
    else e
  | None => e
  end.

Definition setMasterVolume (val : Q) (e : AudioEngine) : AudioEngine :=
  match masterGain e, context e with
  | Some mg, Some ctx =>
    let mg :=
      GainNode.with_gain
        (AudioParam.setTargetAtTime val (AudioContext.currentTime ctx) 0.01)
        mg in
    mkEngine (context e) (Some mg) (distortionNode e) (delayNode e)
      (delayFeedbackNode e) (delayWetNode e) (reverbNode e)
      (reverbWetNode e) (reverbDryNode e) (analyser e) (activeNotes e)
      (timeouts e)
  | _, _ => e
  end.

(** The body of the [forEach] callback of [updateActiveParams]. *)
Definition update_note (patch : SynthPatch.t) (t : Q) (note : Voice.t)
    : Voice.t :=
  let filter :=
    BiquadFilterNode.with_frequency
      (AudioParam.setTargetAtTime (SynthPatch.filterCutoff patch) t 0.1)
      (Voice.filter note) in
  let filter :=
    BiquadFilterNode.with_Q
      (AudioParam.setTargetAtTime (SynthPatch.filterResonance patch) t 0.1)
      filter in
  let lfo :=
    if decide (OscillatorNode.type (Voice.lfo note)
               = SynthPatch.lfoWaveform patch)
    then Voice.lfo note
    else OscillatorNode.set_type (SynthPatch.lfoWaveform patch)
           (Voice.lfo note) in
  let lfo :=
    OscillatorNode.with_frequency
      (AudioParam.setTargetAtTime (SynthPatch.lfoRate patch) t 0.1) lfo in
  let gainValue :=
    match SynthPatch.lfoTarget patch with
    | LfoTarget.cutoff => SynthPatch.lfoDepth patch * 1000
    | LfoTarget.pitch => SynthPatch.lfoDepth patch * 100
    | LfoTarget.amp => SynthPatch.lfoDepth patch * 0.5
    | LfoTarget.none => 0
    end in
  let lfoGain :=
    GainNode.with_gain (AudioParam.setTargetAtTime gainValue t 0.1)
      (Voice.lfoGain note) in
  Voice.mk (Voice.osc note) filter (Voice.amp note) lfo lfoGain.

Definition updateActiveParams (patch : SynthPatch.t) (e : AudioEngine)
    : AudioEngine :=
  match context e with
  | None => e
  | Some ctx =>
    let t := AudioContext.currentTime ctx in
    let notes := update_note patch t <$> activeNotes e in
    let distortion :=
      match distortionNode e with
      | Some d =>
        Some (WaveShaperNode.set_oversample oversample_4x
                (WaveShaperNode.set_curve
                   (makeDistortionCurve (SynthPatch.distortionAmount patch))
                   d))
      | None => None
      end in
    let '(dly, dfb, dwet) :=
      match delayNode e, delayFeedbackNode e, delayWetNode e with
      | Some d, Some fb, Some w =>
        let d :=
          DelayNode.with_delayTime
            (AudioParam.setTargetAtTime (SynthPatch.delayTime patch) t 0.1)
            d in
        let fb :=
          GainNode.with_gain
            (AudioParam.setTargetAtTime (SynthPatch.delayFeedback patch) t
               0.1) fb in
        let delayWet :=
          if Qlt_le_dec 0 (SynthPatch.delayTime patch) then 0.5 else 0 in
        let w :=
          GainNode.with_gain (AudioParam.setTargetAtTime delayWet t 0.1) w in
        (Some d, Some fb, Some w)
      | d, fb, w => (d, fb, w)
      end in
    let '(rdry, rwet) :=
      match reverbDryNode e, reverbWetNode e with
      | Some dryNode, Some wetNode =>
        let wet := SynthPatch.reverbMix patch in
        let dry := 1 - (wet * 0.4) in
        let wetNode :=
          GainNode.with_gain (AudioParam.setTargetAtTime wet t 0.1) wetNode in
        let dryNode :=
          GainNode.with_gain (AudioParam.setTargetAtTime dry t 0.1) dryNode in
        (Some dryNode, Some wetNode)
      | d, w => (d, w)
      end in
    mkEngine (context e) (masterGain e) distortion dly dfb dwet
      (reverbNode e) rwet rdry (analyser e) notes (timeouts e)
  end.

(** The part of [triggerRelease] that acts on the nodes of [note]: the
    release envelope and the two scheduled stops.  The platform refuses a
    ramp that ends at a negative time (a [RangeError], which ends the
    method after the re-anchor); the model schedules it.  The two agree
    when the clock and the release time are not negative
    ([release_in_range] below), and the properties of the release are
    stated for that case. *)
Definition release_note (t releaseTime : Q) (note : Voice.t) : Voice.t :=
  let amp :=
    GainNode.with_gain (AudioParam.cancelScheduledValues t)
      (Voice.amp note) in
  let amp :=
    GainNode.with_gain
      (AudioParam.setValueAtTime (AudioParam.value (GainNode.gain amp)) t)
      amp in
  let amp :=
    GainNode.with_gain
      (AudioParam.exponentialRampToValueAtTime 0.001 (t + releaseTime))
      amp in
  let osc := OscillatorNode.stop (t + releaseTime + 0.1) (Voice.osc note) in
  let lfo := OscillatorNode.stop (t + releaseTime + 0.1) (Voice.lfo note) in
  Voice.mk osc (Voice.filter note) amp lfo (Voice.lfoGain note).

Definition triggerRelease (id : string) (patch : option SynthPatch.t)
    (e : AudioEngine) : AudioEngine :=
  match context e with
  | None => e
  | Some ctx =>
    match activeNotes e !! id with
    | None => e
    | Some note =>
      let t := AudioContext.currentTime ctx in
      let releaseTime :=
        match patch with
        | Some p => SynthPatch.ampRelease p
        | None => 0.5
        end in
      let note := release_note t releaseTime note in
      let pending :=
        timeouts e
        ++ [mkTimeout (DisconnectNote note) ((releaseTime + 0.2) * 1000)] in
      mkEngine (context e) (masterGain e) (distortionNode e) (delayNode e)
        (delayFeedbackNode e) (delayWetNode e) (reverbNode e)
        (reverbWetNode e) (reverbDryNode e) (analyser e)
        (delete id (activeNotes e)) pending
    end
  end.

(** The part of [triggerAttack] between [triggerRelease] and
    [activeNotes.set]: creates the five nodes of a voice in context [ctx],
    configures them and wires them to [master].  As in [release_note], the
    two ramps are scheduled whatever their end time, where the platform
    throws a [RangeError] on a negative one and the method ends before the
    voice is wired and registered: the model follows the code for the
    patches of [attack_in_range] below, and the properties of the attack
    are stated for those. *)
Definition create_voice (frequency : Q) (patch : SynthPatch.t)
    (ctx : AudioContext.t) (master : GainNode.t)
    : Voice.t * AudioContext.t :=
  let t := AudioContext.currentTime ctx in
  let '(osc, ctx) := AudioContext.createOscillator ctx in
  let '(filter, ctx) := AudioContext.createBiquadFilter ctx in
  let '(amp, ctx) := AudioContext.createGain ctx in
  let '(lfo, ctx) := AudioContext.createOscillator ctx in
  let '(lfoGain, ctx) := AudioContext.createGain ctx in
  let osc := OscillatorNode.set_type (SynthPatch.oscType patch) osc in
  let osc :=
    OscillatorNode.with_frequency (AudioParam.setValueAtTime frequency t)
      osc in
  let filter := BiquadFilterNode.set_type lowpass filter in
  let filter :=
    BiquadFilterNode.with_frequency
      (AudioParam.setValueAtTime (SynthPatch.filterCutoff patch) t) filter in
  let filter :=
    BiquadFilterNode.with_Q
      (AudioParam.setValueAtTime (SynthPatch.filterResonance patch) t)
      filter in
  let amp := GainNode.with_gain (AudioParam.setValueAtTime 0 t) amp in
  let amp :=
    GainNode.with_gain
      (AudioParam.linearRampToValueAtTime 1 (t + SynthPatch.ampAttack patch))
      amp in
  let amp :=
    GainNode.with_gain
      (AudioParam.exponentialRampToValueAtTime
         (Math_max 0.001 (SynthPatch.ampSustain patch))
         (t + SynthPatch.ampAttack patch + SynthPatch.ampDecay patch)) amp in
  let lfo := OscillatorNode.set_type (SynthPatch.lfoWaveform patch) lfo in
  let lfo :=
    OscillatorNode.with_frequency
      (AudioParam.setValueAtTime (SynthPatch.lfoRate patch) t) lfo in
  let ctx := AudioContext.connect (OscillatorNode.id lfo)
               (Input (GainNode.id lfoGain)) ctx in
  let '(lfoAmount, ctx) :=
    match SynthPatch.lfoTarget patch with
    | LfoTarget.cutoff =>
      (SynthPatch.lfoDepth patch * 2000,
       AudioContext.connect (GainNode.id lfoGain)
         (Param (BiquadFilterNode.id filter) p_frequency) ctx)
    | LfoTarget.pitch =>
      (SynthPatch.lfoDepth patch * 100,
       AudioContext.connect (GainNode.id lfoGain)
         (Param (OscillatorNode.id osc) p_detune) ctx)
    | LfoTarget.amp =>
      (SynthPatch.lfoDepth patch * 0.5,
       AudioContext.connect (GainNode.id lfoGain)
         (Param (GainNode.id amp) p_gain) ctx)
    | LfoTarget.none => (0, ctx)
    end in
  let lfoGain :=
    GainNode.with_gain (AudioParam.setValueAtTime lfoAmount t) lfoGain in
  let lfo := OscillatorNode.start t lfo in
  let ctx := AudioContext.connect (OscillatorNode.id osc)
               (Input (BiquadFilterNode.id filter)) ctx in
  let ctx := AudioContext.connect (BiquadFilterNode.id filter)
               (Input (GainNode.id amp)) ctx in
  let ctx := AudioContext.connect (GainNode.id amp)
               (Input (GainNode.id master)) ctx in
  let osc := OscillatorNode.start t osc in
  (Voice.mk osc filter amp lfo lfoGain, ctx).

(** The fields are read again after [resume] and [triggerRelease], which
    leave them set: the inner fallback branch is never taken. *)
Definition triggerAttack (id : string) (frequency : Q) (patch : SynthPatch.t)
    (e : AudioEngine) : AudioEngine :=
  match context e, masterGain e with
  | Some _, Some _ =>
    let e := resume e in
    let e := triggerRelease id None e in
    match context e, masterGain e with
    | Some ctx, Some master =>
      let '(note, ctx) := create_voice frequency patch ctx master in
      mkEngine (Some ctx) (masterGain e) (distortionNode e) (delayNode e)
        (delayFeedbackNode e) (delayWetNode e) (reverbNode e)
        (reverbWetNode e) (reverbDryNode e) (analyser e)
        (<[id := note]> (activeNotes e)) (timeouts e)
    | _, _ => e
    end
  | _, _ => e
  end.

(** ** The engine's environment *)

(** Runs the closure of a timeout. *)
Definition run_handler (h : TimerHandler) (c : AudioContext.t)
    : AudioContext.t :=
  match h with
  | DisconnectNote note =>
    let c := AudioContext.disconnect (OscillatorNode.id (Voice.osc note)) c in
    let c :=
      AudioContext.disconnect (BiquadFilterNode.id (Voice.filter note)) c in
    let c := AudioContext.disconnect (GainNode.id (Voice.amp note)) c in
    let c := AudioContext.disconnect (OscillatorNode.id (Voice.lfo note)) c in
    AudioContext.disconnect (GainNode.id (Voice.lfoGain note)) c
  end.

(** The host fires the pending timeout at position [i]. *)
Definition fire_timeout (i : nat) (e : AudioEngine) : AudioEngine :=
  match timeouts e !! i, context e with
  | Some tm, Some ctx =>
    mkEngine (Some (run_handler (handler tm) ctx)) (masterGain e)
      (distortionNode e) (delayNode e) (delayFeedbackNode e)
      (delayWetNode e) (reverbNode e) (reverbWetNode e) (reverbDryNode e)
      (analyser e) (activeNotes e) (delete i (timeouts e))
  | _, _ => e
  end.

(** The hardware clock advances by [dt] seconds. *)
Definition tick (dt : Q) (e : AudioEngine) : AudioEngine :=
  match context e with
  | Some ctx => set_context (AudioContext.advance dt ctx) e
  | None => e
  end.

(** The audio thread publishes [v] as the current amplitude of the voice
    under [id]: what its [amp.gain.value] getter now returns. *)
Definition render_amp (id : string) (v : Q) (e : AudioEngine) : AudioEngine :=
  mkEngine (context e) (masterGain e) (distortionNode e) (delayNode e)
    (delayFeedbackNode e) (delayWetNode e) (reverbNode e) (reverbWetNode e)
    (reverbDryNode e) (analyser e)
    (alter (fun note =>
              Voice.mk (Voice.osc note) (Voice.filter note)
                (GainNode.with_gain (AudioParam.set_value v) (Voice.amp note))
                (Voice.lfo note) (Voice.lfoGain note))
           id (activeNotes e))
    (timeouts e).

(** What can happen to an engine: a call of a public method, or a move of
    its environment. *)
Inductive Event :=
| Call_init (h : Host)
| Call_resume
| Call_setMasterVolume (val : Q)
| Call_updateActiveParams (patch : SynthPatch.t)
| Call_triggerAttack (id : string) (frequency : Q) (patch : SynthPatch.t)
| Call_triggerRelease (id : string) (patch : option SynthPatch.t)
| Env_tick (dt : Q)
| Env_timeout (i : nat)
| Env_render (id : string) (v : Q).

Definition perform (ev : Event) (e : AudioEngine) : AudioEngine :=
  match ev with
  | Call_init h => init h e
  | Call_resume => resume e
  | Call_setMasterVolume val => setMasterVolume val e
  | Call_updateActiveParams patch => updateActiveParams patch e
  | Call_triggerAttack id frequency patch => triggerAttack id frequency patch e
  | Call_triggerRelease id patch => triggerRelease id patch e
  | Env_tick dt => tick dt e
  | Env_timeout i => fire_timeout i e
  | Env_render id v => render_amp id v e
  end.

(** The clock never runs backwards. *)
Definition admissible (ev : Event) : Prop :=
  match ev with
  | Env_tick dt => 0 <= dt
  | _ => True
  end.

(** The states an engine can be in: those a sequence of events leads to
    from a new engine. *)
Inductive reachable : AudioEngine -> Prop :=
| reachable_new : reachable new_AudioEngine
| reachable_step ev e :
    admissible ev -> reachable e -> reachable (perform ev e).

(** [init] has built the graph: every field of the class is set. *)
Definition graph_built (e : AudioEngine) : Prop :=
  is_Some (context e) /\ is_Some (masterGain e)
  /\ is_Some (distortionNode e) /\ is_Some (delayNode e)
  /\ is_Some (delayFeedbackNode e) /\ is_Some (delayWetNode e)
  /\ is_Some (reverbNode e) /\ is_Some (reverbWetNode e)
  /\ is_Some (reverbDryNode e) /\ is_Some (analyser e).

(** The identities of the five nodes of a voice. *)
Definition voice_ids (v : Voice.t) : list NodeId :=
  [OscillatorNode.id (Voice.osc v); BiquadFilterNode.id (Voice.filter v);
   GainNode.id (Voice.amp v); OscillatorNode.id (Voice.lfo v);
   GainNode.id (Voice.lfoGain v)].

(** The voices of the registry with key [id]. *)
Definition voices_under (id : string) (e : AudioEngine) : list Voice.t :=
  snd <$> List.filter (fun kv => String.eqb (fst kv) id)
            (map_to_list (activeNotes e)).

(** The target of the last [setTargetAtTime] of a parameter, when that is
    the last thing scheduled on it. *)
Definition target (p : AudioParam.t) : option Q :=
  match last (AudioParam.events p) with
  | Some (SetTargetAtTime v _ _) => Some v
  | _ => None
  end.

(** The value of the distortion curve at sample [i]. *)
Definition curve_at (amount : Q) (i : Z) : Q :=
  nth (Z.to_nat i) (makeDistortionCurve amount) 0.

(** Every node of [v] was created before the context's counter reached
    [n]. *)
Definition ids_below (n : NodeId) (v : Voice.t) : Prop :=
  Forall (fun i => (i < n)%nat) (voice_ids v).

Definition handler_note (h : TimerHandler) : Voice.t :=
  match h with DisconnectNote note => note end.

(** The voices the engine holds, in the registry or in a pending timeout,
    are made of nodes the context has already handed out. *)
Definition nodes_known (e : AudioEngine) : Prop :=
  forall ctx, context e = Some ctx ->
    (forall id v, activeNotes e !! id = Some v ->
                  ids_below (AudioContext.nextNodeId ctx) v)
    /\ Forall (fun tm => ids_below (AudioContext.nextNodeId ctx)
                           (handler_note (handler tm)))
               (timeouts e).

(** A host with a 44.1 kHz device whose context starts suspended. *)
Definition demo_host : Host := mkHost 44100 suspended (fun _ => 0.5).

(** The engine of the application once the user has started it. *)
Definition started : AudioEngine := init demo_host new_AudioEngine.

(** The events that release the voice registered under [id]: a release of
    [id], or an attack on [id], which releases first. *)
Definition releases (id : string) (ev : Event) : Prop :=
  match ev with
  | Call_triggerRelease k _ => k = id
  | Call_triggerAttack k _ _ => k = id
  | _ => False
  end.

Definition perform_all (evs : list Event) (e : AudioEngine) : AudioEngine :=
  fold_left (fun e ev => perform ev e) evs e.

(** The envelope times of a patch are durations in seconds.  With an
    attack and a decay that are not negative, the ramps of [triggerAttack]
    end at times not before the current one; with a release time that is
    not negative, so does the ramp of [triggerRelease] (without a patch the
    release time is 0.5).  These are the calls the platform accepts. *)
Definition attack_in_range (patch : SynthPatch.t) : Prop :=
  0 <= SynthPatch.ampAttack patch /\ 0 <= SynthPatch.ampDecay patch.

Definition release_in_range (patch : option SynthPatch.t) : Prop :=
  match patch with
  | Some p => 0 <= SynthPatch.ampRelease p
  | None => True
  end.

(** The events whose envelope times are in range. *)
Definition in_range (ev : Event) : Prop :=
  match ev with
  | Call_triggerAttack _ _ patch => attack_in_range patch
  | Call_triggerRelease _ patch => release_in_range patch
  | _ => True
  end.

(** The default patch with a vibrato of the cutoff. *)
Definition wobble : SynthPatch.t :=
  {| SynthPatch.oscType := sawtooth;
     SynthPatch.filterCutoff := 2000;
     SynthPatch.filterResonance := 1;
     SynthPatch.ampAttack := 0.1;
     SynthPatch.ampDecay := 0.2;
     SynthPatch.ampSustain := 0.7;
     SynthPatch.ampRelease := 1.0;
     SynthPatch.masterGain := 0.5;
     SynthPatch.lfoWaveform := sine;
     SynthPatch.lfoRate := 5;
     SynthPatch.lfoDepth := 0.5;
     SynthPatch.lfoTarget := LfoTarget.cutoff;
     SynthPatch.distortionAmount := 0;
     SynthPatch.delayTime := 0.3;
     SynthPatch.delayFeedback := 0.3;
     SynthPatch.reverbMix := 0 |}.

(** The automation timeline of the amplitude gain of [note]. *)
Definition envelope (note : Voice.t) : list AutomationEvent :=
  AudioParam.events (GainNode.gain (Voice.amp note)).

(** The engine while the user holds middle C. *)
Definition held : AudioEngine :=
  triggerAttack "60" 261.63 DEFAULT_PATCH started.

(** ** Ownership and wiring of the voices *)

(** Who holds a voice: the registry under a key, or the closure of the
    pending timeout at a position of the queue. *)
Inductive Holder :=
| Registered (id : string)
| Pending (i : nat).

Definition holds (e : AudioEngine) (h : Holder) : option Voice.t :=
  match h with
  | Registered id => activeNotes e !! id
  | Pending i =>
    match timeouts e !! i with
    | Some tm => Some (handler_note (handler tm))
    | None => None
    end
  end.

(** The number of nodes the context has created, and its connections. *)
Definition node_count (e : AudioEngine) : NodeId :=
  match context e with
  | Some c => AudioContext.nextNodeId c
  | None => 0%nat
  end.

Definition graph (e : AudioEngine) : list (NodeId * Port) :=
  match context e with
  | Some c => AudioContext.connections c
  | None => []
  end.

(** Signal paths: chains of connections into node inputs. *)
Inductive reaches (cs : list (NodeId * Port)) : NodeId -> NodeId -> Prop :=
| reaches_here n : reaches cs n n
| reaches_next a b c :
    In (a, Input b) cs -> reaches cs b c -> reaches cs a c.

(** The connections [init] makes.  The context's destination is node 0;
    [init] creates, in this order, master gain 1, shaper 2, delay 3,
    feedback 4, delay wet 5, convolver 6, reverb wet 7, reverb dry 8,
    analyser 9, and the two local gains: delay input 10, delay output 11. *)
Definition effects_chain : list (NodeId * Port) :=
  [(3, Input 4); (4, Input 3); (1, Input 2); (2, Input 10); (10, Input 3);
   (3, Input 5); (5, Input 11); (10, Input 11); (11, Input 6);
   (6, Input 7); (7, Input 9); (11, Input 8); (8, Input 9);
   (9, Input 0)]%nat.

(** The first identity left for a voice once [init] has run. *)
Definition first_voice_id : NodeId := 12%nat.

(** The oscillator's identity: a voice's nodes are numbered from it. *)
Definition base (v : Voice.t) : NodeId := OscillatorNode.id (Voice.osc v).

(** The nodes of [v] are five consecutive identities, handed out after
    [init] and before the context's counter reached [next]. *)
Definition well_shaped (next : NodeId) (v : Voice.t) : Prop :=
  voice_ids v
  = [base v; S (base v); S (S (base v)); S (S (S (base v)));
     S (S (S (S (base v))))]
  /\ (exists j, base v = first_voice_id + 5 * j)%nat
  /\ (base v + 5 <= next)%nat.

(** Oscillator into filter into amplitude gain into the master gain. *)
Definition wired (cs : list (NodeId * Port)) (v : Voice.t) : Prop :=
  In (OscillatorNode.id (Voice.osc v),
      Input (BiquadFilterNode.id (Voice.filter v))) cs
  /\ In (BiquadFilterNode.id (Voice.filter v),
         Input (GainNode.id (Voice.amp v))) cs
  /\ In (GainNode.id (Voice.amp v), Input 1%nat) cs.

(** What holds of a started engine whatever has happened to it. *)
Definition sound (e : AudioEngine) : Prop :=
  (exists n, node_count e = first_voice_id + 5 * n)%nat
  /\ GainNode.id <$> masterGain e = Some 1%nat
  /\ incl effects_chain (graph e)
  /\ (forall s d, In (s, d) (graph e) -> (s < node_count e)%nat)
  /\ (forall h v, holds e h = Some v ->
                  well_shaped (node_count e) v /\ wired (graph e) v)
  /\ (forall h1 h2 v1 v2,
        h1 <> h2 -> holds e h1 = Some v1 -> holds e h2 = Some v2 ->
        base v1 <> base v2).

(** The engine while the user holds middle C and the E above it. *)
Definition chord : AudioEngine :=
  triggerAttack "64" 329.63 DEFAULT_PATCH held.

(** ** The life of a voice *)

(** The context's clock. *)
Definition clock (e : AudioEngine) : Q :=
  match context e with
  | Some c => AudioContext.currentTime c
  | None => 0
  end.

(** A voice as [triggerAttack] leaves it and [updateActiveParams] keeps
    it: both oscillators started at some time [t0] not after [now], no stop
    scheduled, and the attack, decay and sustain of the envelope scheduled
    from [t0]. *)
Definition sounding (now : Q) (v : Voice.t) : Prop :=
  exists t0 attack decay sustain,
    OscillatorNode.startTime (Voice.osc v) = Some t0
    /\ OscillatorNode.startTime (Voice.lfo v) = Some t0
    /\ t0 <= now
    /\ OscillatorNode.stopTime (Voice.osc v) = None
    /\ OscillatorNode.stopTime (Voice.lfo v) = None
    /\ envelope v
       = [SetValueAtTime 0 t0;
          LinearRampToValueAtTime 1 (t0 + attack);
          ExponentialRampToValueAtTime sustain (t0 + attack + decay)]
    /\ 0.001 <= sustain.

(** A pending timeout as [triggerRelease] armed it at some time [t] with
    some release time: what is left of the envelope before [t], the
    re-anchor at [t] and the ramp to 0.001; both oscillators stopped 0.1 s
    after the end of the ramp; the disconnect 0.2 s after it. *)
Definition winding_down (tm : Timeout) : Prop :=
  let v := handler_note (handler tm) in
  exists t releaseTime value kept,
    envelope v
    = kept ++ [SetValueAtTime value t;
               ExponentialRampToValueAtTime 0.001 (t + releaseTime)]
    /\ Forall (fun ev => event_time ev < t) kept
    /\ OscillatorNode.stopTime (Voice.osc v) = Some (t + releaseTime + 0.1)
    /\ OscillatorNode.stopTime (Voice.lfo v) = Some (t + releaseTime + 0.1)
    /\ delay tm = (releaseTime + 0.2) * 1000.

Definition lifecycle (e : AudioEngine) : Prop :=
  (forall id v, activeNotes e !! id = Some v -> sounding (clock e) v)
  /\ Forall winding_down (timeouts e).

(** Where the depth gain of the LFO of [note] goes for a patch. *)
Definition lfo_destination (patch : SynthPatch.t) (note : Voice.t)
    : option Port :=
  match SynthPatch.lfoTarget patch with
  | LfoTarget.cutoff =>
    Some (Param (BiquadFilterNode.id (Voice.filter note)) p_frequency)
  | LfoTarget.pitch =>
    Some (Param (OscillatorNode.id (Voice.osc note)) p_detune)
  | LfoTarget.amp => Some (Param (GainNode.id (Voice.amp note)) p_gain)
  | LfoTarget.none => None
  end.

(** The depth [updateActiveParams] steers the LFO gain to. *)
Definition lfo_update_depth (patch : SynthPatch.t) : Q :=
  match SynthPatch.lfoTarget patch with
  | LfoTarget.cutoff => SynthPatch.lfoDepth patch * 1000
  | LfoTarget.pitch => SynthPatch.lfoDepth patch * 100
  | LfoTarget.amp => SynthPatch.lfoDepth patch * 0.5
  | LfoTarget.none => 0
  end.

(** The chord once middle C has been let go. *)
Definition released : AudioEngine :=
  triggerRelease "60" (Some DEFAULT_PATCH) chord.

(** The connections [triggerAttack] makes for [note]. *)
Definition voice_edges (patch : SynthPatch.t) (note : Voice.t)
    (master : NodeId) : list (NodeId * Port) :=
  (OscillatorNode.id (Voice.lfo note), Input (GainNode.id (Voice.lfoGain note)))
  :: match lfo_destination patch note with
     | Some d => [(GainNode.id (Voice.lfoGain note), d)]
     | None => []
     end
  ++ [(OscillatorNode.id (Voice.osc note),
       Input (BiquadFilterNode.id (Voice.filter note)));
      (BiquadFilterNode.id (Voice.filter note),
       Input (GainNode.id (Voice.amp note)));
      (GainNode.id (Voice.amp note), Input master)].

(** ** The knob ([src/unnamed/part_000], lines 1 to 105) *)

Definition Math_min (a b : Q) : Q := Qmin a b.

Module Knob.
(** The drag state of a knob: the [isDragging] state and the two refs. *)
Record t := mk { isDragging : bool; startY : Q; startValue : Q }.

Definition initial : t := mk false 0 0.

(** The rotation of the indicator, in degrees. *)
Definition angle (value min max : Q) : Q :=
  let percent := (value - min) / (max - min) in
  -135 + (percent * 270).

Definition handleMouseDown (value clientY : Q) (k : t) : t :=
  mk true clientY value.

(** The value handed to [onChange], if any. *)
Definition handleMouseMove (min max clientY : Q) (k : t) : option Q :=
  if isDragging k then
    let deltaY := startY k - clientY in
    let range := max - min in
    let sensitivity := 200 in
    let newValue := startValue k + (deltaY / sensitivity) * range in
    let newValue := Math_max min (Math_min max newValue) in
    Some newValue
  else None.

Definition handleMouseUp (k : t) : t := mk false (startY k) (startValue k).
End Knob.

(** ** The oscilloscope ([src/unnamed/part_000], lines 106 to 192) *)

(** The two path commands the trace is drawn with. *)
Inductive PathOp := moveTo (x y : Q) | lineTo (x y : Q).

Definition PathOp_x (op : PathOp) : Q :=
  match op with moveTo x _ | lineTo x _ => x end.

Definition PathOp_y (op : PathOp) : Q :=
  match op with moveTo _ y | lineTo _ y => y end.

Module Oscilloscope.
Definition frequencyBinCount (a : AnalyserNode.t) : Z :=
  (AnalyserNode.fftSize a / 2)%Z.

(** The loop over the samples: [i] is the index and [x] the abscissa
    reached. *)
Fixpoint for_samples (height sliceWidth : Q) (i : nat) (x : Q)
    (dataArray : list Z) : list PathOp :=
  match dataArray with
  | [] => []
  | d :: rest =>
    let v := inject_Z d / 128 in
    let y := (v * height) / 2 in
    (if Nat.eqb i 0 then moveTo x y else lineTo x y)
      :: for_samples height sliceWidth (S i) (x + sliceWidth) rest
  end.

(** The path [draw] strokes last: the trace of the samples the analyser
    wrote into [dataArray], or the flat line without an analyser. *)
Definition draw (width height : Q) (analyser : option AnalyserNode.t)
    (dataArray : list Z) : list PathOp :=
  match analyser with
  | Some analyser =>
    let bufferLength := frequencyBinCount analyser in
    let sliceWidth := width * 1 / inject_Z bufferLength in
    for_samples height sliceWidth 0 0 dataArray
    ++ [lineTo width (height / 2)]
  | None => [moveTo 0 (height / 2); lineTo width (height / 2)]
  end.
End Oscilloscope.

(** ** The hardware bridge ([src/unnamed/part_001]) *)

(** A patch value on its way to the hardware: [number | string]. *)
Inductive ParamValue := VNumber (n : Q) | VString (s : string).

Inductive NoteType := noteOn | noteOff.

(** The objects the bridge hands to [JSON.stringify] and sends. *)
Inductive HardwareMessage :=
| NoteMessage (type : NoteType) (note velocity : Q)
| ParamMessage (key : string) (value : ParamValue).

Definition param_message (kv : string * ParamValue) : HardwareMessage :=
  ParamMessage (fst kv) (snd kv).

(** The key of a parameter message. *)
Definition message_key (m : HardwareMessage) : option string :=
  match m with
  | ParamMessage key _ => Some key
  | NoteMessage _ _ _ => None
  end.

(** A callback of the application, by name. *)
Definition Callback : Type := string.

Inductive ReadyState := CONNECTING | OPEN | CLOSING | CLOSED.

(** A socket of the host: what was sent on it, and the callbacks its
    [onopen] and [onerror] handlers captured. *)
Record WebSocket := mkWebSocket {
  url : string;
  readyState : ReadyState;
  sent : list HardwareMessage;
  onConnect : Callback;
  onError : Callback
}.

(** [ws.close()] *)
Definition WebSocket_close (s : WebSocket) : WebSocket :=
  match readyState s with
  | CONNECTING | OPEN =>
    mkWebSocket (url s) CLOSING (sent s) (onConnect s) (onError s)
  | _ => s
  end.

(** [ws.send(JSON.stringify(m))] on an open socket. *)
Definition WebSocket_send (m : HardwareMessage) (s : WebSocket) : WebSocket :=
  mkWebSocket (url s) (readyState s) (sent s ++ [m]) (onConnect s)
    (onError s).

(** A JavaScript [Map] with string keys, in insertion order: [set] on a
    key that is present replaces the value where it stands. *)
Fixpoint Map_set {V : Type} (k : string) (v : V) (m : list (string * V))
    : list (string * V) :=
  match m with
  | [] => [(k, v)]
  | (k', v') :: rest =>
    if String.eqb k' k then (k', v) :: rest
    else (k', v') :: Map_set k v rest
  end.

Definition OscillatorType_name (t : OscillatorType) : string :=
  match t with
  | sine => "sine"
  | square => "square"
  | sawtooth => "sawtooth"
  | triangle => "triangle"
  end.

Definition LfoTarget_name (t : LfoTarget.t) : string :=
  match t with
  | LfoTarget.none => "none"
  | LfoTarget.cutoff => "cutoff"
  | LfoTarget.pitch => "pitch"
  | LfoTarget.amp => "amp"
  end.

(** [Object.entries(patch)] for a patch that has the fields of the
    interface and no other, in the order of [DEFAULT_PATCH] (the order
    every patch the application builds by spreading inherits). *)
Definition Object_entries (p : SynthPatch.t) : list (string * ParamValue) :=
  [("oscType", VString (OscillatorType_name (SynthPatch.oscType p)));
   ("filterCutoff", VNumber (SynthPatch.filterCutoff p));
   ("filterResonance", VNumber (SynthPatch.filterResonance p));
   ("ampAttack", VNumber (SynthPatch.ampAttack p));
   ("ampDecay", VNumber (SynthPatch.ampDecay p));
   ("ampSustain", VNumber (SynthPatch.ampSustain p));
   ("ampRelease", VNumber (SynthPatch.ampRelease p));
   ("masterGain", VNumber (SynthPatch.masterGain p));
   ("lfoWaveform", VString (OscillatorType_name (SynthPatch.lfoWaveform p)));
   ("lfoRate", VNumber (SynthPatch.lfoRate p));
   ("lfoDepth", VNumber (SynthPatch.lfoDepth p));
   ("lfoTarget", VString (LfoTarget_name (SynthPatch.lfoTarget p)));
   ("distortionAmount", VNumber (SynthPatch.distortionAmount p));
   ("delayTime", VNumber (SynthPatch.delayTime p));
   ("delayFeedback", VNumber (SynthPatch.delayFeedback p));
   ("reverbMix", VNumber (SynthPatch.reverbMix p))].

Module HardwareBridge.
(** The fields of the class, then the host: its sockets, the identifiers
    of the pending [setTimeout(() => this.flushParams(), 50)], the next
    identifier [setTimeout] returns, and the application callbacks that
    were invoked. *)
Record t := mk {
  ws : option nat;
  isConnected : bool;
  onDisconnectCallback : option Callback;
  paramQueue : list (string * ParamValue);
  flushTimer : option nat;
  sockets : list WebSocket;
  pendingTimers : list nat;
  nextTimerId : nat;
  invoked : list Callback
}.

Definition FLUSH_INTERVAL : Q := 50.

(** [new HardwareBridge()]; the host numbers its timeouts from 1. *)
Definition create : t := mk None false None [] None [] [] 1 [].

(** [clearTimeout(id)] *)
Definition clearTimeout (id : nat) (pending : list nat) : list nat :=
  List.filter (fun x => negb (Nat.eqb x id)) pending.

Definition disconnect (b : t) : t :=
  let socks :=
    match ws b with
    | Some i => alter WebSocket_close i (sockets b)
    | None => sockets b
    end in
  let '(timer, pending) :=
    match flushTimer b with
    | Some (S n) => (None, clearTimeout (S n) (pendingTimers b))
    | other => (other, pendingTimers b)
    end in
  mk None false (onDisconnectCallback b) [] timer socks pending
    (nextTimerId b) (invoked b).

(** [accepts] tells whether [new WebSocket(url)] returns (it throws on a
    URL it cannot parse). *)
Definition connect (accepts : string -> bool) (ip : string)
    (onConnect onDisconnect onError : Callback) (b : t) : t :=
  let b := match ws b with Some _ => disconnect b | None => b end in
  let url :=
    if String.prefix "ws://" ip || String.prefix "wss://" ip then ip
    else ("ws://" ++ ip)%string in
  if accepts url then
    mk (Some (length (sockets b))) (isConnected b) (Some onDisconnect)
      (paramQueue b) (flushTimer b)
      (sockets b ++ [mkWebSocket url CONNECTING [] onConnect onError])
      (pendingTimers b) (nextTimerId b) (invoked b)
  else
    mk (ws b) (isConnected b) (onDisconnectCallback b) (paramQueue b)
      (flushTimer b) (sockets b) (pendingTimers b) (nextTimerId b)
      (invoked b ++ [onError]).

(** The socket [this.ws] when it is open. *)
Definition open_socket (b : t) : option nat :=
  match ws b with
  | Some i =>
    match sockets b !! i with
    | Some s => match readyState s with OPEN => Some i | _ => None end
    | None => None
    end
  | None => None
  end.

Definition send_on (i : nat) (ms : list HardwareMessage) (b : t) : t :=
  mk (ws b) (isConnected b) (onDisconnectCallback b) (paramQueue b)
    (flushTimer b)
    (alter (fun s => fold_left (fun s m => WebSocket_send m s) ms s) i
       (sockets b))
    (pendingTimers b) (nextTimerId b) (invoked b).

(** [velocity] defaults to 127. *)
Definition sendNote (type : NoteType) (note : Q) (velocity : option Q)
    (b : t) : t :=
  let velocity := match velocity with Some v => v | None => 127 end in
  if isConnected b then
    match open_socket b with
    | Some i => send_on i [NoteMessage type note velocity] b
    | None => b
    end
  else b.

Definition flushParams (b : t) : t :=
  let b :=
    match open_socket b with
    | Some i =>
      if (0 <? length (paramQueue b))%nat then
        let b :=
          send_on i (List.map param_message (paramQueue b)) b in
        mk (ws b) (isConnected b) (onDisconnectCallback b) []
          (flushTimer b) (sockets b) (pendingTimers b) (nextTimerId b)
          (invoked b)
      else b
    | None => b
    end in
  mk (ws b) (isConnected b) (onDisconnectCallback b) (paramQueue b) None
    (sockets b) (pendingTimers b) (nextTimerId b) (invoked b).

Definition sendParam (key : string) (value : ParamValue) (b : t) : t :=
  if negb (isConnected b) then b
  else
    let queue := Map_set key value (paramQueue b) in
    match flushTimer b with
    | None =>
      mk (ws b) (isConnected b) (onDisconnectCallback b) queue
        (Some (nextTimerId b)) (sockets b)
        (pendingTimers b ++ [nextTimerId b]) (S (nextTimerId b))
        (invoked b)
    | Some _ =>
      mk (ws b) (isConnected b) (onDisconnectCallback b) queue
        (flushTimer b) (sockets b) (pendingTimers b) (nextTimerId b)
        (invoked b)
    end.

Definition syncFullPatch (patch : SynthPatch.t) (b : t) : t :=
  if negb (isConnected b) then b
  else
    let '(timer, pending) :=
      match flushTimer b with
      | Some (S n) => (None, clearTimeout (S n) (pendingTimers b))
      | other => (other, pendingTimers b)
      end in
    let b :=
      mk (ws b) (isConnected b) (onDisconnectCallback b) [] timer
        (sockets b) pending (nextTimerId b) (invoked b) in
    let b :=
      fold_left (fun b kv => sendParam (fst kv) (snd kv) b)
        (Object_entries patch) b in
    flushParams b.

(** *** The host's side *)

Definition set_socket (i : nat) (s : WebSocket) (b : t) (connected : bool)
    (called : list Callback) : t :=
  mk (ws b) connected (onDisconnectCallback b) (paramQueue b) (flushTimer b)
    (<[i := s]> (sockets b)) (pendingTimers b) (nextTimerId b)
    (invoked b ++ called).

(** Socket [i] opens: its [onopen] handler runs. *)
Definition socket_opens (i : nat) (b : t) : t :=
  match sockets b !! i with
  | Some s =>
    match readyState s with
    | CONNECTING =>
      set_socket i (mkWebSocket (url s) OPEN (sent s) (onConnect s)
                      (onError s)) b true [onConnect s]
    | _ => b
    end
  | None => b
  end.

(** Socket [i] closes: its [onclose] handler runs. *)
Definition socket_closes (i : nat) (b : t) : t :=
  match sockets b !! i with
  | Some s =>
    match readyState s with
    | CLOSED => b
    | _ =>
      set_socket i (mkWebSocket (url s) CLOSED (sent s) (onConnect s)
                      (onError s)) b false
        match onDisconnectCallback b with
        | Some cb => [cb]
        | None => []
        end
    end
  | None => b
  end.

(** The closing handshake of socket [i] starts (the server asked for it):
    an open socket is closing from then on, and no handler runs until it
    has closed. *)
Definition socket_closing (i : nat) (b : t) : t :=
  match sockets b !! i with
  | Some s =>
    match readyState s with
    | OPEN =>
      mk (ws b) (isConnected b) (onDisconnectCallback b) (paramQueue b)
        (flushTimer b)
        (<[i := mkWebSocket (url s) CLOSING (sent s) (onConnect s)
                  (onError s)]> (sockets b))
        (pendingTimers b) (nextTimerId b) (invoked b)
    | _ => b
    end
  | None => b
  end.

(** Socket [i] fails: its [onerror] handler runs. *)
Definition socket_fails (i : nat) (b : t) : t :=
  match sockets b !! i with
  | Some s =>
    mk (ws b) (isConnected b) (onDisconnectCallback b) (paramQueue b)
      (flushTimer b) (sockets b) (pendingTimers b) (nextTimerId b)
      (invoked b ++ [onError s])
  | None => b
  end.

(** The pending timeout [id] fires: it runs [flushParams]. *)
Definition timer_fires (id : nat) (b : t) : t :=
  if existsb (Nat.eqb id) (pendingTimers b) then
    flushParams
      (mk (ws b) (isConnected b) (onDisconnectCallback b) (paramQueue b)
         (flushTimer b) (sockets b) (clearTimeout id (pendingTimers b))
         (nextTimerId b) (invoked b))
  else b.

Inductive Event :=
| Call_connect (accepts : string -> bool) (ip : string)
    (onConnect onDisconnect onError : Callback)
| Call_disconnect
| Call_sendNote (type : NoteType) (note : Q) (velocity : option Q)
| Call_sendParam (key : string) (value : ParamValue)
| Call_syncFullPatch (patch : SynthPatch.t)
| Env_opens (i : nat)
| Env_closing (i : nat)
| Env_closes (i : nat)
| Env_fails (i : nat)
| Env_timer (id : nat).

Definition perform (ev : Event) (b : t) : t :=
  match ev with
  | Call_connect accepts ip c d e => connect accepts ip c d e b
  | Call_disconnect => disconnect b
  | Call_sendNote type note velocity => sendNote type note velocity b
  | Call_sendParam key value => sendParam key value b
  | Call_syncFullPatch patch => syncFullPatch patch b
  | Env_opens i => socket_opens i b
  | Env_closing i => socket_closing i b
  | Env_closes i => socket_closes i b
  | Env_fails i => socket_fails i b
  | Env_timer id => timer_fires id b
  end.

Inductive reachable : t -> Prop :=
| reachable_create : reachable create
| reachable_step ev b : reachable b -> reachable (perform ev b).

(** The queue and the timeouts: the keys of the queue are distinct; the
    timeout the bridge tracks is pending and has something to flush; a
    bridge without a socket has nothing queued. *)
Definition tidy (b : t) : Prop :=
  List.NoDup (List.map fst (paramQueue b))
  /\ (forall id, flushTimer b = Some id ->
        In id (pendingTimers b) /\ id <> 0%nat /\ paramQueue b <> [])
  /\ (forall id, In id (pendingTimers b) -> (0 < id < nextTimerId b)%nat)
  /\ (0 < nextTimerId b)%nat
  /\ (ws b = None -> paramQueue b = [] /\ flushTimer b = None).

(** The sockets: a connected bridge holds a socket (which may be closing
    already: [isConnected] is cleared only when it has closed), and only
    the socket the bridge holds can still be connecting. *)
Definition linked (b : t) : Prop :=
  (isConnected b = true -> exists i, ws b = Some i)
  /\ (forall j s, sockets b !! j = Some s -> readyState s = CONNECTING ->
        ws b = Some j)
  /\ (forall i, ws b = Some i -> (i < length (sockets b))%nat).

(** The queue emptied and the tracked timeout cleared, as [disconnect]
    and [syncFullPatch] do. *)
Definition cleared (b : t) : t :=
  let '(timer, pending) :=
    match flushTimer b with
    | Some (S n) => (None, clearTimeout (S n) (pendingTimers b))
    | other => (other, pendingTimers b)
    end in
  mk (ws b) (isConnected b) (onDisconnectCallback b) [] timer (sockets b)
    pending (nextTimerId b) (invoked b).

(** What was sent on the socket [i]. *)
Definition sent_on (i : nat) (b : t) : list HardwareMessage :=
  match sockets b !! i with
  | Some s => sent s
  | None => []
  end.
(** The queue after the updates [us], and the bridge after them. *)
Definition sendParams (us : list (string * ParamValue)) (b : t) : t :=
  fold_left (fun b kv => sendParam (fst kv) (snd kv) b) us b.

(** The messages of [ms] about the key [k]. *)
Definition about (k : string) (ms : list HardwareMessage)
    : list HardwareMessage :=
  List.filter
    (fun m =>
       match message_key m with
       | Some k' => String.eqb k' k
       | None => false
       end) ms.

(** A bridge whose socket to the hardware has opened. *)
Definition plugged : t :=
  socket_opens 0
    (connect (fun _ => true) "192.168.4.1" "onConnect" "onDisconnect"
       "onError" create).

(** The same with a change of the cutoff queued. *)
Definition tweaked : t := sendParam "filterCutoff" (VNumber 800) plugged.

(** The same while the closing handshake of its socket is under way. *)
Definition closing : t := socket_closing 0 tweaked.

(** A second connection made and opened while the first socket is still
    closing. *)
Definition replugged : t :=
  socket_opens 1
    (connect (fun _ => true) "ws://192.168.4.2" "onConnect" "onDisconnect"
       "onError" plugged).
End HardwareBridge.

(** ** What each method leaves alone *)

Ltac open_engine e :=
  destruct e as [ctx mg dist dly dfb dwet rv rwet rdry an notes tms];
  simpl in *.

Ltac open_built e H :=
  open_engine e;
  destruct H as ([? ?] & [? ?] & [? ?] & [? ?] & [? ?] & [? ?] & [? ?]
                 & [? ?] & [? ?] & [? ?]);
  simpl in *; subst.

Lemma triggerRelease_context id patch e :
  context (triggerRelease id patch e) = context e.
Proof.
  unfold triggerRelease.
  destruct (context e) eqn:Hc; [|congruence].
  destruct (activeNotes e !! id); simpl; congruence.
Qed.

Lemma triggerRelease_masterGain id patch e :
  masterGain (triggerRelease id patch e) = masterGain e.
Proof.
  unfold triggerRelease.
  destruct (context e); [|reflexivity].
  destruct (activeNotes e !! id); reflexivity.
Qed.

Lemma triggerRelease_absent id patch e :
  activeNotes e !! id = None -> triggerRelease id patch e = e.
Proof.
  intros H. unfold triggerRelease. rewrite H.
  destruct (context e); reflexivity.
Qed.

Lemma resume_activeNotes e : activeNotes (resume e) = activeNotes e.
Proof.
  unfold resume. destruct (context e); [|reflexivity].
  case_decide; reflexivity.
Qed.

Lemma resume_masterGain e : masterGain (resume e) = masterGain e.
Proof.
  unfold resume. destruct (context e); [|reflexivity].
  case_decide; reflexivity.
Qed.

Lemma resume_timeouts e : timeouts (resume e) = timeouts e.
Proof.
  unfold resume. destruct (context e); [|reflexivity].
  case_decide; reflexivity.
Qed.

(** [resume] touches nothing of the context but its state. *)
Lemma resume_context e ctx :
  context e = Some ctx ->
  exists ctx', context (resume e) = Some ctx'
    /\ AudioContext.currentTime ctx' = AudioContext.currentTime ctx
    /\ AudioContext.nextNodeId ctx' = AudioContext.nextNodeId ctx
    /\ AudioContext.connections ctx' = AudioContext.connections ctx.
Proof.
  intros H. unfold resume. rewrite H. case_decide.
  - eexists. split; [reflexivity|]. repeat split.
  - exists ctx. repeat split. assumption.
Qed.

(** The nodes a new voice is made of are the next five of the context. *)
Lemma create_voice_ids frequency patch ctx master :
  voice_ids (fst (create_voice frequency patch ctx master))
  = let n := AudioContext.nextNodeId ctx in
    [n; S n; S (S n); S (S (S n)); S (S (S (S n)))].
Proof.
  unfold create_voice. simpl.
  destruct (SynthPatch.lfoTarget patch); reflexivity.
Qed.

Lemma create_voice_context frequency patch ctx master :
  let ctx' := snd (create_voice frequency patch ctx master) in
  AudioContext.nextNodeId ctx' = (5 + AudioContext.nextNodeId ctx)%nat
  /\ AudioContext.currentTime ctx' = AudioContext.currentTime ctx
  /\ AudioContext.state ctx' = AudioContext.state ctx.
Proof.
  unfold create_voice. simpl.
  destruct (SynthPatch.lfoTarget patch); simpl; repeat split.
Qed.

(** The envelope a new voice starts with. *)
Lemma create_voice_envelope frequency patch ctx master :
  AudioParam.events
    (GainNode.gain (Voice.amp (fst (create_voice frequency patch ctx master))))
  = let t := AudioContext.currentTime ctx in
    [SetValueAtTime 0 t;
     LinearRampToValueAtTime 1 (t + SynthPatch.ampAttack patch);
     ExponentialRampToValueAtTime
       (Math_max 0.001 (SynthPatch.ampSustain patch))
       (t + SynthPatch.ampAttack patch + SynthPatch.ampDecay patch)].
Proof.
  unfold create_voice. simpl.
  destruct (SynthPatch.lfoTarget patch); reflexivity.
Qed.

(** The depth the modulation gain of a new voice starts with. *)
Lemma create_voice_lfoGain frequency patch ctx master :
  AudioParam.events
    (GainNode.gain
       (Voice.lfoGain (fst (create_voice frequency patch ctx master))))
  = [SetValueAtTime
       match SynthPatch.lfoTarget patch with
       | LfoTarget.cutoff => SynthPatch.lfoDepth patch * 2000
       | LfoTarget.pitch => SynthPatch.lfoDepth patch * 100
       | LfoTarget.amp => SynthPatch.lfoDepth patch * 0.5
       | LfoTarget.none => 0
       end
       (AudioContext.currentTime ctx)].
Proof.
  unfold create_voice. simpl.
  destruct (SynthPatch.lfoTarget patch); reflexivity.
Qed.

(** On a built graph an attack is: resume, release [id], create, register. *)
Lemma triggerAttack_built id frequency patch e :
  graph_built e ->
  exists ctx master,
    context (triggerRelease id None (resume e)) = Some ctx
    /\ masterGain e = Some master
    /\ triggerAttack id frequency patch e
       = let e1 := triggerRelease id None (resume e) in
         let '(note, ctx') := create_voice frequency patch ctx master in
         mkEngine (Some ctx') (masterGain e1) (distortionNode e1)
           (delayNode e1) (delayFeedbackNode e1) (delayWetNode e1)
           (reverbNode e1) (reverbWetNode e1) (reverbDryNode e1)
           (analyser e1) (<[id := note]> (activeNotes e1)) (timeouts e1).
Proof.
  intros H.
  destruct H as ([c Hc] & [m Hm] & _).
  destruct (resume_context e c Hc) as (c' & Hc' & _).
  exists c', m. unfold triggerAttack. rewrite Hc, Hm.
  cbv zeta.
  rewrite triggerRelease_context, triggerRelease_masterGain, Hc',
    resume_masterGain, Hm.
  split; [reflexivity|]. split; reflexivity.
Qed.

(** ** Invariants of the reachable states *)

Lemma init_built h e : context e = None -> graph_built (init h e).
Proof.
  intros H. unfold init. rewrite H.
  repeat split; eexists; reflexivity.
Qed.

Lemma init_idle h e : is_Some (context e) -> init h e = e.
Proof. intros [c H]. unfold init. rewrite H. reflexivity. Qed.

Lemma perform_new ev :
  perform ev new_AudioEngine = new_AudioEngine
  \/ exists h, ev = Call_init h.
Proof.
  destruct ev; simpl; try (left; reflexivity).
  right. eexists. reflexivity.
Qed.

Lemma perform_built ev e : graph_built e -> graph_built (perform ev e).
Proof.
  intros H. destruct ev; simpl.
  - rewrite init_idle; [assumption|apply H].
  - open_built e H. unfold resume. simpl. case_decide; simpl;
      repeat split; eexists; reflexivity.
  - open_built e H. unfold setMasterVolume. simpl.
    repeat split; eexists; reflexivity.
  - open_built e H. unfold updateActiveParams. simpl.
    repeat split; eexists; reflexivity.
  - destruct (triggerAttack_built id frequency patch e H)
      as (c & m & Hc & Hm & ->).
    cbv zeta. destruct (create_voice frequency patch c m) as [note c'].
    open_built e H. unfold triggerRelease, resume. simpl.
    case_decide; simpl; destruct (notes !! id); simpl;
      repeat split; eexists; reflexivity.
  - open_built e H. unfold triggerRelease. simpl.
    destruct (notes !! id); simpl; repeat split; eexists; reflexivity.
  - open_built e H. unfold tick. simpl.
    repeat split; eexists; reflexivity.
  - open_built e H. unfold fire_timeout. simpl.
    destruct (tms !! i); simpl; repeat split; eexists; reflexivity.
  - open_built e H. unfold render_amp. simpl.
    repeat split; eexists; reflexivity.
Qed.

(** An engine is either untouched or fully built, never in between. *)
Lemma reachable_new_or_built e :
  reachable e -> e = new_AudioEngine \/ graph_built e.
Proof.
  induction 1 as [|ev e Hadm Hr IH].
  - left. reflexivity.
  - destruct IH as [-> | Hb].
    + destruct (perform_new ev) as [-> | [h ->]].
      * left. reflexivity.
      * right. apply init_built. reflexivity.
    + right. apply perform_built. assumption.
Qed.

Lemma reachable_uninitialized e :
  reachable e -> context e = None -> e = new_AudioEngine.
Proof.
  intros Hr Hc. destruct (reachable_new_or_built e Hr) as [-> | Hb];
    [reflexivity|].
  destruct Hb as ([c Hc'] & _). congruence.
Qed.

Lemma reachable_initialized e :
  reachable e -> is_Some (context e) -> graph_built e.
Proof.
  intros Hr [c Hc]. destruct (reachable_new_or_built e Hr) as [-> | Hb];
    [discriminate|assumption].
Qed.

Lemma ids_below_mono n m v : (n <= m)%nat -> ids_below n v -> ids_below m v.
Proof.
  unfold ids_below. intros Hle H.
  eapply Forall_impl; [exact H|]. simpl. intros i Hi. lia.
Qed.

Lemma update_note_ids patch t v : voice_ids (update_note patch t v) = voice_ids v.
Proof. unfold update_note. simpl. case_decide; reflexivity. Qed.

Lemma nodes_known_resume e : nodes_known e -> nodes_known (resume e).
Proof.
  intros H c Hc. rewrite resume_activeNotes, resume_timeouts.
  destruct (context e) as [c0|] eqn:Hc0.
  - destruct (resume_context e c0 Hc0) as (c' & Hc' & _ & Hn & _).
    rewrite Hc' in Hc. injection Hc as <-. rewrite Hn. apply H. assumption.
  - unfold resume in Hc. rewrite Hc0 in Hc. congruence.
Qed.

Lemma nodes_known_setMasterVolume val e :
  nodes_known e -> nodes_known (setMasterVolume val e).
Proof.
  intros H. unfold setMasterVolume.
  destruct (masterGain e); [|assumption].
  destruct (context e) eqn:Hc; [|assumption].
  intros c Hc'. simpl in *. apply H. congruence.
Qed.

Lemma nodes_known_updateActiveParams patch e :
  nodes_known e -> nodes_known (updateActiveParams patch e).
Proof.
  intros H. unfold updateActiveParams.
  destruct (context e) as [c0|] eqn:Hc; [|assumption].
  destruct (match delayNode e with Some _ => _ | None => _ end)
    as [[? ?] ?].
  destruct (match reverbDryNode e with Some _ => _ | None => _ end)
    as [? ?].
  intros c Hc'. simpl in *. injection Hc' as <-.
  destruct (H c0 Hc) as [Hn Ht]. split; [|assumption].
  intros id v Hv. rewrite lookup_fmap in Hv.
  destruct (activeNotes e !! id) as [v0|] eqn:Hv0; [|discriminate].
  injection Hv as <-. unfold ids_below. rewrite update_note_ids.
  eapply Hn. eassumption.
Qed.

Lemma nodes_known_triggerRelease id patch e :
  nodes_known e -> nodes_known (triggerRelease id patch e).
Proof.
  intros H. unfold triggerRelease.
  destruct (context e) as [c0|] eqn:Hc; [|assumption].
  destruct (activeNotes e !! id) as [note|] eqn:Hn; [|assumption].
  intros c Hc'. simpl in *. injection Hc' as <-.
  destruct (H c0 Hc) as [Hv Ht]. split.
  - intros id' v Hl. apply lookup_delete_Some in Hl as [_ Hl].
    eapply Hv. eassumption.
  - apply Forall_app. split; [assumption|].
    constructor; [|constructor]. simpl. apply (Hv id note Hn).
Qed.

Lemma nodes_known_triggerAttack id frequency patch e :
  graph_built e -> nodes_known e ->
  nodes_known (triggerAttack id frequency patch e).
Proof.
  intros Hb H.
  destruct (triggerAttack_built id frequency patch e Hb)
    as (c & m & Hc & Hm & ->).
  cbv zeta.
  pose proof (create_voice_ids frequency patch c m) as Hids.
  pose proof (create_voice_context frequency patch c m) as (Hnext & _).
  destruct (create_voice frequency patch c m) as [note c'].
  simpl in Hids, Hnext.
  apply nodes_known_resume, (nodes_known_triggerRelease id None) in H.
  destruct (H c Hc) as [Hv Ht].
  intros c0 Hc0. simpl in *. injection Hc0 as <-. split.
  - intros id' v Hl. apply lookup_insert_Some in Hl as [[_ <-] | [_ Hl]].
    + unfold ids_below. rewrite Hids, Hnext.
      repeat constructor; lia.
    + eapply ids_below_mono; [|eapply Hv; eassumption]. lia.
  - eapply Forall_impl; [exact Ht|]. simpl. intros tm Htm.
    eapply ids_below_mono; [|exact Htm]. lia.
Qed.

Lemma nodes_known_tick dt e : nodes_known e -> nodes_known (tick dt e).
Proof.
  intros H. unfold tick.
  destruct (context e) as [c0|] eqn:Hc; [|assumption].
  intros c Hc'. simpl in *. injection Hc' as <-. simpl. apply H. assumption.
Qed.

Lemma nodes_known_fire_timeout i e :
  nodes_known e -> nodes_known (fire_timeout i e).
Proof.
  intros H. unfold fire_timeout.
  destruct (timeouts e !! i) as [tm|] eqn:Ht; [|assumption].
  destruct (context e) as [c0|] eqn:Hc; [|assumption].
  intros c Hc'. simpl in *. injection Hc' as <-.
  destruct (H c0 Hc) as [Hv Hf].
  assert (Hn : AudioContext.nextNodeId (run_handler (handler tm) c0)
               = AudioContext.nextNodeId c0)
    by (destruct (handler tm); reflexivity).
  rewrite Hn. split; [assumption|].
  apply Forall_delete. assumption.
Qed.

Lemma nodes_known_render_amp id v e :
  nodes_known e -> nodes_known (render_amp id v e).
Proof.
  intros H c Hc. simpl in *. destruct (H c Hc) as [Hv Hf].
  split; [|assumption].
  intros id' v' Hl. apply lookup_alter_Some in Hl
    as [(_ & v0 & Hl & ->) | [_ Hl]].
  - apply (Hv id' v0 Hl).
  - apply (Hv id' v' Hl).
Qed.

(** No voice the engine holds is made of a node the context has yet to
    create. *)
Lemma reachable_nodes_known e : reachable e -> nodes_known e.
Proof.
  induction 1 as [|ev e Hadm Hr IH].
  - intros c Hc. discriminate.
  - destruct (reachable_new_or_built e Hr) as [-> | Hb].
    + destruct (perform_new ev) as [-> | [h ->]].
      * intros c Hc. discriminate.
      * intros c Hc. split.
        -- intros id v Hl. simpl in Hl. rewrite lookup_empty in Hl.
           discriminate.
        -- constructor.
    + destruct ev; simpl.
      * rewrite init_idle; [assumption|apply Hb].
      * apply nodes_known_resume; assumption.
      * apply nodes_known_setMasterVolume; assumption.
      * apply nodes_known_updateActiveParams; assumption.
      * apply nodes_known_triggerAttack; assumption.
      * apply nodes_known_triggerRelease; assumption.
      * apply nodes_known_tick; assumption.
      * apply nodes_known_fire_timeout; assumption.
      * apply nodes_known_render_amp; assumption.
Qed.

(** ** The registry *)

Lemma voices_under_lookup id e :
  voices_under id e = option_list (activeNotes e !! id).
Proof.
  unfold voices_under.
  set (l := List.filter _ _).
  assert (Hin : forall kv, In kv l <-> fst kv = id
                                     /\ activeNotes e !! id = Some (snd kv)).
  { intros [k v]. unfold l. rewrite filter_In, <- list_elem_of_In,
      elem_of_map_to_list. simpl. rewrite String.eqb_eq.
    split; intros [H1 H2]; subst; auto. }
  assert (Hnd : List.NoDup l)
    by (apply List.NoDup_filter, NoDup_ListNoDup, NoDup_map_to_list).
  destruct (activeNotes e !! id) as [v|] eqn:Hv; simpl.
  - assert (Hall : forall kv, In kv l -> kv = (id, v)).
    { intros [k w] Hk. apply Hin in Hk as [H1 H2]. simpl in *. congruence. }
    assert (Hv' : In (id, v) l) by (apply Hin; auto).
    destruct l as [|x l']; [destruct Hv'|].
    assert (x = (id, v)) as -> by (apply Hall; left; reflexivity).
    destruct l' as [|y l'']; [reflexivity|].
    assert (y = (id, v)) as -> by (apply Hall; right; left; reflexivity).
    inversion Hnd as [|? ? Hnot _]. exfalso. apply Hnot. left. reflexivity.
  - destruct l as [|x l']; [reflexivity|].
    destruct (proj1 (Hin x) (or_introl eq_refl)) as [_ Hx]. discriminate.
Qed.

Lemma voices_under_at_most_one id e : (length (voices_under id e) <= 1)%nat.
Proof.
  rewrite voices_under_lookup. destruct (activeNotes e !! id); simpl; lia.
Qed.

Lemma triggerRelease_present id patch e ctx note :
  context e = Some ctx -> activeNotes e !! id = Some note ->
  triggerRelease id patch e
  = let t := AudioContext.currentTime ctx in
    let releaseTime :=
      match patch with Some p => SynthPatch.ampRelease p | None => 0.5 end in
    mkEngine (context e) (masterGain e) (distortionNode e) (delayNode e)
      (delayFeedbackNode e) (delayWetNode e) (reverbNode e)
      (reverbWetNode e) (reverbDryNode e) (analyser e)
      (delete id (activeNotes e))
      (timeouts e
       ++ [mkTimeout (DisconnectNote (release_note t releaseTime note))
             ((releaseTime + 0.2) * 1000)]).
Proof.
  intros Hc Hn. unfold triggerRelease. rewrite Hc, Hn. reflexivity.
Qed.

(** What an attack does to the registry and to the pending timeouts. *)
Lemma triggerAttack_registry id frequency patch e ctx :
  graph_built e -> context e = Some ctx ->
  let e' := triggerAttack id frequency patch e in
  let t := AudioContext.currentTime ctx in
  exists note ctx',
    activeNotes e' = <[id := note]> (activeNotes e)
    /\ context e' = Some ctx'
    /\ AudioContext.currentTime ctx' = t
    /\ AudioContext.nextNodeId ctx' = (5 + AudioContext.nextNodeId ctx)%nat
    /\ voice_ids note
       = (let n := AudioContext.nextNodeId ctx in
          [n; S n; S (S n); S (S (S n)); S (S (S (S n)))])
    /\ AudioParam.events (GainNode.gain (Voice.amp note))
       = [SetValueAtTime 0 t;
          LinearRampToValueAtTime 1 (t + SynthPatch.ampAttack patch);
          ExponentialRampToValueAtTime
            (Math_max 0.001 (SynthPatch.ampSustain patch))
            (t + SynthPatch.ampAttack patch + SynthPatch.ampDecay patch)]
    /\ AudioParam.events (GainNode.gain (Voice.lfoGain note))
       = [SetValueAtTime
            match SynthPatch.lfoTarget patch with
            | LfoTarget.cutoff => SynthPatch.lfoDepth patch * 2000
            | LfoTarget.pitch => SynthPatch.lfoDepth patch * 100
            | LfoTarget.amp => SynthPatch.lfoDepth patch * 0.5
            | LfoTarget.none => 0
            end t]
    /\ timeouts e'
       = timeouts e
         ++ match activeNotes e !! id with
            | Some old =>
              [mkTimeout (DisconnectNote (release_note t 0.5 old))
                 ((0.5 + 0.2) * 1000)]
            | None => []
            end.
Proof.
  intros Hb Hc. cbv zeta.
  destruct (triggerAttack_built id frequency patch e Hb)
    as (c1 & m & Hc1 & Hm & ->).
  cbv zeta.
  pose proof (create_voice_ids frequency patch c1 m) as Hids.
  pose proof (create_voice_context frequency patch c1 m) as (Hnext & Ht & _).
  pose proof (create_voice_envelope frequency patch c1 m) as Henv.
  pose proof (create_voice_lfoGain frequency patch c1 m) as Hlfo.
  destruct (create_voice frequency patch c1 m) as [note c'].
  simpl in Hids, Hnext, Ht, Henv, Hlfo.
  rewrite triggerRelease_context in Hc1.
  destruct (resume_context e ctx Hc) as (cr & Hcr & Htr & Hnr & _).
  rewrite Hcr in Hc1. injection Hc1 as ->.
  exists note, c'. simpl.
  rewrite Hids, Hnext, Ht, Henv, Hlfo, Htr, Hnr.
  assert (Hreg :
    activeNotes (triggerRelease id None (resume e))
      = delete id (activeNotes e)
    /\ timeouts (triggerRelease id None (resume e))
       = timeouts e
         ++ match activeNotes e !! id with
            | Some old =>
              [mkTimeout
                 (DisconnectNote
                    (release_note (AudioContext.currentTime ctx) 0.5 old))
                 ((0.5 + 0.2) * 1000)]
            | None => []
            end).
  { destruct (activeNotes e !! id) as [old|] eqn:Hold.
    - rewrite (triggerRelease_present id None (resume e) c1 old Hcr)
        by (rewrite resume_activeNotes; assumption).
      simpl. rewrite resume_activeNotes, resume_timeouts, Htr. auto.
    - rewrite triggerRelease_absent
        by (rewrite resume_activeNotes; assumption).
      rewrite resume_activeNotes, resume_timeouts, app_nil_r.
      split; [|reflexivity]. symmetry. apply delete_id. assumption. }
  destruct Hreg as [-> ->].
  rewrite insert_delete_eq. repeat split.
Qed.

Lemma reachable_triggerAttack id frequency patch e :
  reachable e -> reachable (triggerAttack id frequency patch e).
Proof.
  intros H.
  apply (reachable_step (Call_triggerAttack id frequency patch) e I H).
Qed.

Lemma started_clock ctx :
  context started = Some ctx -> AudioContext.currentTime ctx = 0.
Proof.
  intros H.
  assert (Hs : exists c, context started = Some c
                         /\ AudioContext.currentTime c = 0)
    by (eexists; split; reflexivity).
  destruct Hs as (c & Hc & Ht). congruence.
Qed.

(** ** The clock and the range of the envelope times *)

Lemma DEFAULT_PATCH_attack : attack_in_range DEFAULT_PATCH.
Proof. split; discriminate. Qed.

Lemma DEFAULT_PATCH_release : release_in_range (Some DEFAULT_PATCH).
Proof. discriminate. Qed.

Lemma wobble_attack : attack_in_range wobble.
Proof. split; discriminate. Qed.

Lemma init_clock h : clock (init h new_AudioEngine) = 0.
Proof. reflexivity. Qed.

(** The clock of the context starts at 0 and never runs backwards. *)
Lemma perform_clock ev e :
  admissible ev -> is_Some (context e) -> 0 <= clock e ->
  0 <= clock (perform ev e).
Proof.
  intros Hadm [c Hc] H. destruct ev; cbn [perform].
  - rewrite init_idle by eauto. exact H.
  - unfold clock in *. rewrite Hc in H.
    destruct (resume_context e c Hc) as (c' & -> & -> & _). exact H.
  - unfold clock in *. unfold setMasterVolume.
    destruct (masterGain e); [|exact H].
    rewrite Hc in *. cbn [context]. rewrite ?Hc. exact H.
  - unfold clock in *. unfold updateActiveParams. rewrite Hc in *.
    destruct (match delayNode e with Some _ => _ | None => _ end)
      as [[? ?] ?].
    destruct (match reverbDryNode e with Some _ => _ | None => _ end)
      as [? ?].
    cbn [context]. rewrite ?Hc. exact H.
  - unfold clock in *. rewrite Hc in H. unfold triggerAttack. rewrite Hc.
    destruct (masterGain e) as [m|]; [|rewrite Hc; exact H].
    cbv zeta. rewrite triggerRelease_context.
    destruct (resume_context e c Hc) as (c' & Hc' & Ht & _). rewrite Hc'.
    destruct (masterGain (triggerRelease id None (resume e))) as [m'|].
    + pose proof (create_voice_context frequency patch c' m') as (_ & Ht' & _).
      destruct (create_voice frequency patch c' m') as [note c''].
      cbn [context snd] in *. rewrite Ht', Ht. exact H.
    + rewrite triggerRelease_context, Hc', Ht. exact H.
  - unfold clock. rewrite triggerRelease_context. exact H.
  - unfold clock in *. unfold tick. rewrite Hc in *.
    simpl in Hadm. simpl. lra.
  - unfold clock in *. unfold fire_timeout.
    destruct (timeouts e !! i) as [tm|]; [|exact H].
    rewrite Hc in *. cbn [context]. destruct (handler tm). cbn. exact H.
  - exact H.
Qed.

Lemma reachable_clock e : reachable e -> 0 <= clock e.
Proof.
  induction 1 as [|ev e Hadm Hr IH]; [apply Qle_refl|].
  destruct (reachable_new_or_built e Hr) as [-> | Hb].
  - destruct (perform_new ev) as [-> | [h ->]]; [apply Qle_refl|].
    cbn [perform]. rewrite init_clock. apply Qle_refl.
  - apply perform_clock; [assumption | apply Hb | assumption].
Qed.

Lemma reachable_perform_all evs : forall e,
  Forall admissible evs -> reachable e -> reachable (perform_all evs e).
Proof.
  induction evs as [|ev evs IH]; intros e Hadm Hr; [exact Hr|].
  inversion Hadm as [|? ? Hev Hrest]; subst.
  apply (IH (perform ev e) Hrest). apply reachable_step; assumption.
Qed.

(** ** The note lifecycle *)

(** C1. At most one voice is registered under an identity.  On a started
    engine [triggerAttack], with a patch whose attack and decay are not
    negative, releases the voice already registered under [id] (it moves
    to a pending disconnect, its stop scheduled) before it registers a
    voice made of new nodes; after two consecutive such attacks on [id] the
    registry holds exactly one voice under [id], the second one, and the
    first has been released. *)
Theorem retrigger_leaves_one_voice (e : AudioEngine) (id : string) :
  reachable e ->
  (length (voices_under id e) <= 1)%nat
  /\ (is_Some (context e) ->
      forall f1 p1 f2 p2,
        attack_in_range p1 -> attack_in_range p2 ->
        let e1 := triggerAttack id f1 p1 e in
        let e2 := triggerAttack id f2 p2 e1 in
        exists c c1 v1 v2,
          context e = Some c
          /\ context e1 = Some c1
          /\ voices_under id e1 = [v1]
          /\ voices_under id e2 = [v2]
          /\ activeNotes e2 = <[id := v2]> (activeNotes e)
          /\ (forall k v, activeNotes e !! k = Some v ->
                          ids_below (OscillatorNode.id (Voice.osc v1)) v)
          /\ ids_below (OscillatorNode.id (Voice.osc v2)) v1
          /\ timeouts e1
             = timeouts e
               ++ match activeNotes e !! id with
                  | Some old =>
                    [mkTimeout
                       (DisconnectNote
                          (release_note (AudioContext.currentTime c) 0.5 old))
                       ((0.5 + 0.2) * 1000)]
                  | None => []
                  end
          /\ timeouts e2
             = timeouts e1
               ++ [mkTimeout
                     (DisconnectNote
                        (release_note (AudioContext.currentTime c1) 0.5 v1))
                     ((0.5 + 0.2) * 1000)]
          /\ OscillatorNode.stopTime
               (Voice.osc (release_note (AudioContext.currentTime c1) 0.5 v1))
             = Some (AudioContext.currentTime c1 + 0.5 + 0.1)).
Proof.
  intros Hr. split; [apply voices_under_at_most_one|].
  intros Hi f1 p1 f2 p2 _ _ e1 e2.
  pose proof (reachable_initialized e Hr Hi) as Hb.
  pose proof (reachable_nodes_known e Hr) as Hk.
  destruct Hi as [c Hc].
  destruct (triggerAttack_registry id f1 p1 e c Hb Hc)
    as (v1 & c1 & Hn1 & Hc1 & Ht1 & Hx1 & Hids1 & _ & _ & Htm1).
  fold e1 in Hn1, Hc1, Htm1.
  assert (Hr1 : reachable e1) by (apply reachable_triggerAttack; assumption).
  assert (Hb1 : graph_built e1)
    by (apply reachable_initialized; [assumption|eexists; eassumption]).
  destruct (triggerAttack_registry id f2 p2 e1 c1 Hb1 Hc1)
    as (v2 & c2 & Hn2 & Hc2 & Ht2 & Hx2 & Hids2 & _ & _ & Htm2).
  fold e2 in Hn2, Hc2, Htm2.
  exists c, c1, v1, v2.
  split; [assumption|]. split; [assumption|].
  split; [rewrite voices_under_lookup, Hn1, lookup_insert_eq; reflexivity|].
  split; [rewrite voices_under_lookup, Hn2, lookup_insert_eq; reflexivity|].
  split; [rewrite Hn2, Hn1; apply insert_insert_eq|].
  assert (Hosc : forall v n l, voice_ids v = n :: l ->
                               OscillatorNode.id (Voice.osc v) = n).
  { intros v n l H. unfold voice_ids in H. congruence. }
  split.
  { intros k v Hv. rewrite (Hosc v1 _ _ Hids1).
    destruct (Hk c Hc) as [Hkv _]. eapply Hkv. eassumption. }
  split.
  { rewrite (Hosc v2 _ _ Hids2), Hx1. unfold ids_below. rewrite Hids1.
    simpl. repeat constructor; lia. }
  split; [assumption|].
  split; [|reflexivity].
  rewrite Htm2, Hn1, lookup_insert_eq. reflexivity.
Qed.

Lemma retrigger_leaves_one_voice_witness :
  attack_in_range DEFAULT_PATCH
  /\ exists v2,
       voices_under "60"
         (triggerAttack "60" 261.63 DEFAULT_PATCH
            (triggerAttack "60" 261.63 DEFAULT_PATCH started))
       = [v2].
Proof.
  split; [exact DEFAULT_PATCH_attack|].
  destruct (retrigger_leaves_one_voice started "60") as [_ H].
  - apply (reachable_step (Call_init demo_host) new_AudioEngine I).
    apply reachable_new.
  - destruct (H (ex_intro _ _ eq_refl) 261.63 DEFAULT_PATCH 261.63
                DEFAULT_PATCH DEFAULT_PATCH_attack DEFAULT_PATCH_attack)
      as (c & c1 & v1 & v2 & _ & _ & _ & H2 & _).
    exists v2. exact H2.
Defined.

Lemma init_activeNotes h e : activeNotes (init h e) = activeNotes e.
Proof. unfold init. destruct (context e); reflexivity. Qed.

Lemma setMasterVolume_activeNotes val e :
  activeNotes (setMasterVolume val e) = activeNotes e.
Proof.
  unfold setMasterVolume. destruct (masterGain e); [|reflexivity].
  destruct (context e); reflexivity.
Qed.

Lemma updateActiveParams_activeNotes patch e ctx :
  context e = Some ctx ->
  activeNotes (updateActiveParams patch e)
  = update_note patch (AudioContext.currentTime ctx) <$> activeNotes e.
Proof.
  intros Hc. unfold updateActiveParams. rewrite Hc.
  destruct (match delayNode e with Some _ => _ | None => _ end)
    as [[? ?] ?].
  destruct (match reverbDryNode e with Some _ => _ | None => _ end)
    as [? ?].
  reflexivity.
Qed.

Lemma updateActiveParams_uninitialized patch e :
  context e = None -> updateActiveParams patch e = e.
Proof. intros Hc. unfold updateActiveParams. rewrite Hc. reflexivity. Qed.

Lemma triggerRelease_other id k patch e :
  k <> id ->
  activeNotes (triggerRelease k patch e) !! id = activeNotes e !! id.
Proof.
  intros Hne. unfold triggerRelease.
  destruct (context e); [|reflexivity].
  destruct (activeNotes e !! k); [|reflexivity].
  simpl. apply lookup_delete_ne. assumption.
Qed.

Lemma triggerAttack_other id k frequency patch e :
  k <> id ->
  activeNotes (triggerAttack k frequency patch e) !! id
  = activeNotes e !! id.
Proof.
  intros Hne. unfold triggerAttack.
  destruct (context e); [|reflexivity].
  destruct (masterGain e); [|reflexivity].
  cbv zeta.
  destruct (context (triggerRelease k None (resume e))) as [c|];
    [destruct (masterGain (triggerRelease k None (resume e))) as [m|]|].
  - destruct (create_voice frequency patch c m) as [note c']. simpl.
    rewrite lookup_insert_ne by assumption.
    rewrite triggerRelease_other by assumption.
    rewrite resume_activeNotes. reflexivity.
  - rewrite triggerRelease_other by assumption.
    rewrite resume_activeNotes. reflexivity.
  - rewrite triggerRelease_other by assumption.
    rewrite resume_activeNotes. reflexivity.
Qed.

(** Nothing but a release touches the envelope of a registered voice. *)
Lemma envelope_frame ev e id note :
  ~ releases id ev -> activeNotes e !! id = Some note ->
  exists note',
    activeNotes (perform ev e) !! id = Some note'
    /\ envelope note' = envelope note.
Proof.
  intros Hrel Hn. destruct ev; simpl in *.
  - exists note. rewrite init_activeNotes. auto.
  - exists note. rewrite resume_activeNotes. auto.
  - exists note. rewrite setMasterVolume_activeNotes. auto.
  - destruct (context e) as [c|] eqn:Hc.
    + rewrite (updateActiveParams_activeNotes patch e c Hc), lookup_fmap, Hn.
      eexists. split; reflexivity.
    + rewrite updateActiveParams_uninitialized by assumption.
      exists note. auto.
  - exists note. rewrite triggerAttack_other by assumption. auto.
  - exists note. rewrite triggerRelease_other by assumption. auto.
  - exists note. unfold tick. destruct (context e); auto.
  - exists note. unfold fire_timeout.
    destruct (timeouts e !! i); [|auto]. destruct (context e); auto.
  - rewrite lookup_alter. case_decide.
    + subst. rewrite Hn. eexists. split; reflexivity.
    + exists note. auto.
Qed.

Lemma envelope_frame_all evs : forall e id note,
  Forall (fun ev => ~ releases id ev) evs ->
  activeNotes e !! id = Some note ->
  exists note',
    activeNotes (perform_all evs e) !! id = Some note'
    /\ envelope note' = envelope note.
Proof.
  induction evs as [|ev evs IH]; intros e id note Hall Hn.
  - exists note. auto.
  - inversion Hall as [|? ? Hev Hrest]; subst.
    destruct (envelope_frame ev e id note Hev Hn) as (n1 & Hn1 & He1).
    destruct (IH (perform ev e) id n1 Hrest Hn1) as (n2 & Hn2 & He2).
    exists n2. split; [exact Hn2|congruence].
Qed.

(** C2. On a started engine [triggerAttack], with a patch whose attack and
    decay are not negative, schedules the amplitude gain of the new voice
    as: value 0 at the current time [t], a linear ramp to 1 at
    [t + ampAttack], an exponential ramp to [max(0.001, ampSustain)] at
    [t + ampAttack + ampDecay].  The three times are in this order and none
    is negative, so the platform accepts both ramps.  The target is
    [ampSustain] floored at 0.001, and the schedule stays as it is through
    every later call and step that does not release [id]. *)
Theorem attack_envelope (e : AudioEngine) (id : string) (frequency : Q)
    (patch : SynthPatch.t) :
  reachable e -> is_Some (context e) -> attack_in_range patch ->
  let e' := triggerAttack id frequency patch e in
  exists ctx note,
    context e = Some ctx
    /\ activeNotes e' !! id = Some note
    /\ (let t := AudioContext.currentTime ctx in
        let sustain := Math_max 0.001 (SynthPatch.ampSustain patch) in
        envelope note
        = [SetValueAtTime 0 t;
           LinearRampToValueAtTime 1 (t + SynthPatch.ampAttack patch);
           ExponentialRampToValueAtTime sustain
             (t + SynthPatch.ampAttack patch + SynthPatch.ampDecay patch)]
        /\ 0 <= t
        /\ t <= t + SynthPatch.ampAttack patch
        /\ t + SynthPatch.ampAttack patch
           <= t + SynthPatch.ampAttack patch + SynthPatch.ampDecay patch
        /\ 0.001 <= sustain
        /\ (0.001 <= SynthPatch.ampSustain patch ->
            sustain == SynthPatch.ampSustain patch)
        /\ (SynthPatch.ampSustain patch <= 0.001 -> sustain == 0.001))
    /\ (forall evs,
          Forall (fun ev => ~ releases id ev) evs ->
          exists note',
            activeNotes (perform_all evs e') !! id = Some note'
            /\ envelope note' = envelope note).
Proof.
  intros Hr Hi [Hatt Hdec] e'.
  pose proof (reachable_initialized e Hr Hi) as Hb.
  pose proof (reachable_clock e Hr) as Hclock.
  destruct Hi as [c Hc].
  unfold clock in Hclock. rewrite Hc in Hclock.
  destruct (triggerAttack_registry id frequency patch e c Hb Hc)
    as (note & c' & Hn & _ & _ & _ & _ & Henv & _).
  fold e' in Hn.
  assert (Hl : activeNotes e' !! id = Some note)
    by (rewrite Hn; apply lookup_insert_eq).
  exists c, note. split; [assumption|]. split; [assumption|]. split.
  - cbv zeta. split; [exact Henv|].
    split; [exact Hclock|]. split; [lra|]. split; [lra|].
    unfold Math_max.
    split; [apply Q.le_max_l|].
    split; intros H.
    + apply Q.max_r. assumption.
    + apply Q.max_l. assumption.
  - intros evs Hall. apply envelope_frame_all; assumption.
Qed.

Lemma attack_envelope_witness :
  attack_in_range DEFAULT_PATCH
  /\ exists note,
       activeNotes (triggerAttack "60" 261.63 DEFAULT_PATCH started) !! "60"
       = Some note
       /\ envelope note
          = [SetValueAtTime 0 0;
             LinearRampToValueAtTime 1 (0 + 0.1);
             ExponentialRampToValueAtTime 0.7 (0 + 0.1 + 0.2)].
Proof.
  split; [exact DEFAULT_PATCH_attack|].
  destruct (attack_envelope started "60" 261.63 DEFAULT_PATCH)
    as (c & note & Hc & Hn & (Henv & _) & _).
  - apply (reachable_step (Call_init demo_host) new_AudioEngine I).
    apply reachable_new.
  - eexists. reflexivity.
  - exact DEFAULT_PATCH_attack.
  - exists note. split; [exact Hn|].
    rewrite (started_clock c Hc) in Henv. exact Henv.
Defined.

Lemma run_handler_disconnects note c :
  Forall (fun edge => ~ In (fst edge) (voice_ids note))
         (AudioContext.connections (run_handler (DisconnectNote note) c)).
Proof.
  apply List.Forall_forall. intros [s d] Hin. simpl in *.
  repeat (apply filter_In in Hin as [Hin ?]).
  repeat match goal with
         | H : negb (_ =? _)%nat = true |- _ =>
           apply negb_true_iff, Nat.eqb_neq in H
         end.
  simpl in *. intros [?|[?|[?|[?|[?|[]]]]]]; congruence.
Qed.

Lemma cancelScheduledValues_before t p :
  Forall (fun ev => event_time ev < t)
         (AudioParam.events (AudioParam.cancelScheduledValues t p)).
Proof.
  apply List.Forall_forall. intros ev Hin. simpl in Hin.
  apply filter_In in Hin as [_ H].
  apply negb_true_iff in H.
  destruct (Qlt_le_dec (event_time ev) t) as [Hlt|Hle]; [assumption|].
  apply Qle_bool_iff in Hle. congruence.
Qed.

(** C3. [triggerRelease] on an identity with a live voice, at a clock and
    with a release time that are not negative: the pending ramps of the
    amplitude gain are cancelled and the gain is re-anchored at its current
    value, then ramped exponentially to 0.001 over [releaseTime] (the
    patch's [ampRelease], or 0.5 s without a patch), a ramp that ends at a
    time the platform accepts; oscillator and LFO stop at
    [releaseTime + 0.1] s; the disconnection of the nodes waits in a
    timeout of [(releaseTime + 0.2) * 1000] ms; and the voice has left the
    registry when the call returns, while its connections are still in
    place. *)
Theorem release_schedule (e : AudioEngine) (ctx : AudioContext.t)
    (id : string) (note : Voice.t) (patch : option SynthPatch.t) :
  context e = Some ctx ->
  activeNotes e !! id = Some note ->
  0 <= AudioContext.currentTime ctx ->
  release_in_range patch ->
  let t := AudioContext.currentTime ctx in
  let releaseTime :=
    match patch with Some p => SynthPatch.ampRelease p | None => 0.5 end in
  let e' := triggerRelease id patch e in
  exists released,
    timeouts e'
    = timeouts e
      ++ [mkTimeout (DisconnectNote released) ((releaseTime + 0.2) * 1000)]
    /\ (releaseTime + 0.2) * 1000 / 1000 == releaseTime + 0.2
    /\ voice_ids released = voice_ids note
    /\ envelope released
       = List.filter (fun ev => negb (Qle_bool t (event_time ev)))
           (envelope note)
         ++ [SetValueAtTime
               (AudioParam.value (GainNode.gain (Voice.amp note))) t;
             ExponentialRampToValueAtTime 0.001 (t + releaseTime)]
    /\ 0 <= releaseTime
    /\ t <= t + releaseTime
    /\ Forall (fun ev => event_time ev < t)
         (List.filter (fun ev => negb (Qle_bool t (event_time ev)))
            (envelope note))
    /\ OscillatorNode.stopTime (Voice.osc released)
       = Some (t + releaseTime + 0.1)
    /\ OscillatorNode.stopTime (Voice.lfo released)
       = Some (t + releaseTime + 0.1)
    /\ activeNotes e' = delete id (activeNotes e)
    /\ voices_under id e' = []
    /\ context e' = Some ctx
    /\ (let fired := fire_timeout (length (timeouts e)) e' in
        timeouts fired = timeouts e
        /\ exists ctx',
             context fired = Some ctx'
             /\ Forall (fun edge => ~ In (fst edge) (voice_ids note))
                  (AudioContext.connections ctx')).
Proof.
  intros Hc Hn Ht Hrange t releaseTime e'.
  assert (Hrel : 0 <= releaseTime).
  { unfold releaseTime. destruct patch as [p|]; [exact Hrange|].
    discriminate. }
  exists (release_note t releaseTime note).
  unfold e'. rewrite (triggerRelease_present id patch e ctx note Hc Hn).
  cbv zeta. fold t. fold releaseTime. simpl.
  split; [reflexivity|].
  split; [field|].
  split; [reflexivity|].
  split; [unfold envelope; simpl; rewrite <- app_assoc; reflexivity|].
  split; [exact Hrel|]. split; [lra|].
  split; [apply (cancelScheduledValues_before t
                   (GainNode.gain (Voice.amp note)))|].
  split; [reflexivity|]. split; [reflexivity|]. split; [reflexivity|].
  split; [rewrite voices_under_lookup; simpl; rewrite lookup_delete_eq;
          reflexivity|].
  split; [assumption|].
  unfold fire_timeout. simpl.
  rewrite list_lookup_middle by reflexivity. rewrite Hc. simpl.
  split.
  - rewrite (delete_middle (timeouts e) []). apply app_nil_r.
  - eexists. split; [reflexivity|].
    apply (run_handler_disconnects (release_note t releaseTime note) ctx).
Qed.

Lemma release_schedule_witness :
  release_in_range (Some DEFAULT_PATCH)
  /\ activeNotes (triggerRelease "60" (Some DEFAULT_PATCH) held)
     = delete "60" (activeNotes held)
  /\ voices_under "60" (triggerRelease "60" (Some DEFAULT_PATCH) held) = [].
Proof.
  split; [exact DEFAULT_PATCH_release|].
  edestruct release_schedule
    with (e := held) (id := "60"%string) (patch := Some DEFAULT_PATCH)
    as (released & H).
  - vm_compute. reflexivity.
  - vm_compute. reflexivity.
  - vm_compute. discriminate.
  - exact DEFAULT_PATCH_release.
  - split; apply H.
Defined.

(** Releasing the held note with [ampRelease = 1.0]: the stop is due 1.1 s
    after the release, the disconnection 1200 ms after it. *)
Example release_of_held_note :
  match last (timeouts (triggerRelease "60" (Some DEFAULT_PATCH) held)) with
  | Some (mkTimeout (DisconnectNote note) ms) =>
    match OscillatorNode.stopTime (Voice.osc note) with
    | Some stop => Qeq_bool stop 1.1 && Qeq_bool ms 1200
    | None => false
    end
  | None => false
  end = true.
Proof. vm_compute. reflexivity. Qed.

(** ** The distortion curve *)

Lemma for_loop_length {A : Type} (body : Z -> A) count :
  forall i, length (for_loop count i body) = count.
Proof.
  induction count as [|n IH]; intros i; simpl; [reflexivity|].
  rewrite IH. reflexivity.
Qed.

Lemma for_loop_nth {A : Type} (body : Z -> A) (d : A) count :
  forall i k, (k < count)%nat ->
    nth k (for_loop count i body) d = body (i + Z.of_nat k)%Z.
Proof.
  induction count as [|n IH]; intros i k Hk; [lia|].
  destruct k as [|k]; simpl.
  - f_equal. lia.
  - rewrite IH by lia. f_equal. lia.
Qed.

Lemma makeDistortionCurve_length amount :
  length (makeDistortionCurve amount) = Z.to_nat n_samples.
Proof.
  unfold makeDistortionCurve. destruct (Qeq_bool amount 0);
    apply for_loop_length.
Qed.

Lemma curve_at_bypass amount i :
  amount == 0 -> (0 <= i < n_samples)%Z -> curve_at amount i = sample_x i.
Proof.
  intros Ha Hi. unfold curve_at, makeDistortionCurve.
  apply Qeq_bool_iff in Ha. rewrite Ha.
  rewrite for_loop_nth by lia.
  unfold sample_x. repeat f_equal. lia.
Qed.

Lemma curve_at_shaped amount i :
  ~ amount == 0 -> (0 <= i < n_samples)%Z ->
  curve_at amount i
  = (3 + amount) * sample_x i * 20 * (Math_PI / 180)
    / (Math_PI + amount * Math_abs (sample_x i)).
Proof.
  intros Ha Hi. unfold curve_at, makeDistortionCurve.
  destruct (Qeq_bool amount 0) eqn:Hb;
    [apply Qeq_bool_iff in Hb; contradiction|].
  rewrite for_loop_nth by lia. cbv zeta.
  replace (0 + Z.of_nat (Z.to_nat i))%Z with i by lia.
  reflexivity.
Qed.

Lemma shaper_denominator amount x :
  0 <= amount -> 0 < Math_PI + amount * Math_abs x.
Proof.
  intros Ha. unfold Math_abs.
  assert (0 <= amount * Qabs x)
    by (apply Qmult_le_0_compat; [assumption|apply Qabs_nonneg]).
  assert (0 < Math_PI) by reflexivity.
  lra.
Qed.

(** C4. The distortion curve has 44100 samples; sample [i] stands for
    [x = 2i/N - 1].  At amount 0 the curve is the identity on its sample
    points.  At a positive amount
    [curve[i] = (3 + amount) * x * (20π/180) / (π + amount * |x|)], the
    division is by a positive number, the curve is 0 at the sample for
    [x = 0], and it is odd: two samples standing for [x] and [-x] carry
    opposite values, and every sample but the first has such a mirror. *)
Theorem distortion_curve (amount : Q) (i : Z) :
  (0 <= i < n_samples)%Z ->
  length (makeDistortionCurve amount) = Z.to_nat 44100
  /\ (amount == 0 -> curve_at amount i = sample_x i)
  /\ (0 < amount ->
      let x := sample_x i in
      curve_at amount i
      == (3 + amount) * x * (20 * Math_PI / 180)
         / (Math_PI + amount * Qabs x)
      /\ 0 < Math_PI + amount * Qabs x
      /\ sample_x 22050 == 0
      /\ curve_at amount 22050 == 0
      /\ (forall j, (0 <= j < n_samples)%Z ->
                    sample_x j == - x ->
                    curve_at amount j == - curve_at amount i)
      /\ ((0 < i)%Z -> sample_x (n_samples - i) == - x)).
Proof.
  intros Hi.
  split; [rewrite makeDistortionCurve_length; reflexivity|].
  split; [intros Ha; apply curve_at_bypass; assumption|].
  intros Ha x.
  assert (Hne : ~ amount == 0) by lra.
  assert (Hden : forall y, 0 < Math_PI + amount * Qabs y)
    by (intros y; apply (shaper_denominator amount y); lra).
  split.
  { rewrite curve_at_shaped by assumption. fold x. unfold Math_abs.
    specialize (Hden x). field. lra. }
  split; [apply Hden|].
  assert (Hmid : sample_x 22050 == 0) by reflexivity.
  split; [exact Hmid|].
  split.
  { rewrite curve_at_shaped by (unfold n_samples; auto with zarith).
    rewrite Hmid. unfold Qdiv. ring. }
  split.
  { intros j Hj Hx. rewrite !curve_at_shaped by assumption.
    fold x. unfold Math_abs. rewrite Hx, Qabs_opp.
    specialize (Hden x). field. lra. }
  intros Hpos. unfold x, sample_x, n_samples.
  unfold Z.sub. rewrite inject_Z_plus, inject_Z_opp. field.
Qed.

Lemma distortion_curve_witness :
  curve_at 50 (n_samples - 100) == - curve_at 50 100.
Proof.
  destruct (distortion_curve 50 100) as (_ & _ & H).
  - unfold n_samples. lia.
  - destruct H as (_ & _ & _ & _ & Hodd & Hmirror); [reflexivity|].
    apply Hodd.
    + unfold n_samples. lia.
    + apply Hmirror. lia.
Defined.

(** ** Live parameter updates *)

Lemma target_scheduled v t tc p :
  target (AudioParam.setTargetAtTime v t tc p) = Some v.
Proof.
  unfold target, AudioParam.setTargetAtTime, AudioParam.schedule. simpl.
  rewrite last_snoc. reflexivity.
Qed.

(** C5. On a started engine [updateActiveParams] with [reverbMix = m] in
    [0, 1] schedules, at the current time and with time constant 0.1, the
    reverb wet gain towards [m] and the reverb dry gain towards
    [1 - 0.4 m], a value between 0.6 and 1. *)
Theorem reverb_mix_targets (e : AudioEngine) (patch : SynthPatch.t) :
  reachable e -> is_Some (context e) ->
  0 <= SynthPatch.reverbMix patch <= 1 ->
  let m := SynthPatch.reverbMix patch in
  let e' := updateActiveParams patch e in
  exists ctx wet dry wet' dry' d,
    context e = Some ctx
    /\ reverbWetNode e = Some wet /\ reverbDryNode e = Some dry
    /\ reverbWetNode e' = Some wet' /\ reverbDryNode e' = Some dry'
    /\ AudioParam.events (GainNode.gain wet')
       = AudioParam.events (GainNode.gain wet)
         ++ [SetTargetAtTime m (AudioContext.currentTime ctx) 0.1]
    /\ AudioParam.events (GainNode.gain dry')
       = AudioParam.events (GainNode.gain dry)
         ++ [SetTargetAtTime d (AudioContext.currentTime ctx) 0.1]
    /\ target (GainNode.gain wet') = Some m
    /\ target (GainNode.gain dry') = Some d
    /\ d == 1 - 0.4 * m
    /\ 0.6 <= d <= 1.
Proof.
  intros Hr Hi Hm m e'.
  pose proof (reachable_initialized e Hr Hi) as Hb.
  unfold e'. clear e' Hr Hi. open_built e Hb.
  unfold updateActiveParams. simpl.
  do 5 eexists. exists (1 - m * 0.4).
  split; [reflexivity|]. split; [reflexivity|]. split; [reflexivity|].
  split; [reflexivity|]. split; [reflexivity|]. split; [reflexivity|].
  split; [reflexivity|].
  split; [apply target_scheduled|]. split; [apply target_scheduled|].
  split; [ring|]. unfold m. lra.
Qed.

Lemma reverb_mix_targets_witness :
  exists wet' dry',
    reverbWetNode (updateActiveParams DEFAULT_PATCH started) = Some wet'
    /\ reverbDryNode (updateActiveParams DEFAULT_PATCH started) = Some dry'
    /\ target (GainNode.gain wet') = Some 0
    /\ exists d, target (GainNode.gain dry') = Some d /\ d == 1.
Proof.
  destruct (reverb_mix_targets started DEFAULT_PATCH)
    as (ctx & wet & dry & wet' & dry' & d & H).
  - apply (reachable_step (Call_init demo_host) new_AudioEngine I).
    apply reachable_new.
  - eexists. reflexivity.
  - simpl. lra.
  - destruct H as (_ & _ & _ & Hw & Hd & _ & _ & Htw & Htd & Heq & _).
    exists wet', dry'. split; [exact Hw|]. split; [exact Hd|].
    split; [exact Htw|]. exists d. split; [exact Htd|].
    rewrite Heq. reflexivity.
Defined.

(** ** Calls that must do nothing *)

(** C6. Before [init] has created the audio graph, [triggerAttack],
    [triggerRelease], [updateActiveParams] and [setMasterVolume] return
    the engine as it was, and [getAnalyser] returns null. *)
Theorem calls_before_init (e : AudioEngine) :
  context e = None ->
  (forall id frequency patch, triggerAttack id frequency patch e = e)
  /\ (forall id patch, triggerRelease id patch e = e)
  /\ (forall patch, updateActiveParams patch e = e)
  /\ (forall val, setMasterVolume val e = e)
  /\ (reachable e -> getAnalyser e = None).
Proof.
  intros Hc.
  split; [intros; unfold triggerAttack; rewrite Hc; reflexivity|].
  split; [intros; unfold triggerRelease; rewrite Hc; reflexivity|].
  split; [intros; apply updateActiveParams_uninitialized; assumption|].
  split.
  - intros val. unfold setMasterVolume. rewrite Hc.
    destruct (masterGain e); reflexivity.
  - intros Hr. rewrite (reachable_uninitialized e Hr Hc). reflexivity.
Qed.

Lemma calls_before_init_witness :
  triggerAttack "60" 261.63 DEFAULT_PATCH new_AudioEngine = new_AudioEngine
  /\ getAnalyser new_AudioEngine = None.
Proof.
  destruct (calls_before_init new_AudioEngine) as (Ha & _ & _ & _ & Hg).
  - reflexivity.
  - split; [apply Ha|apply Hg; apply reachable_new].
Defined.

(** C7. [triggerRelease] on an identity with no live voice returns the
    engine as it was: registry, nodes, connections and timeouts. *)
Theorem release_without_voice (e : AudioEngine) (id : string)
    (patch : option SynthPatch.t) :
  activeNotes e !! id = None -> triggerRelease id patch e = e.
Proof.
  intros H. unfold triggerRelease. rewrite H.
  destruct (context e); reflexivity.
Qed.

Lemma release_without_voice_witness :
  triggerRelease "61" (Some DEFAULT_PATCH) held = held.
Proof.
  apply (release_without_voice held "61" (Some DEFAULT_PATCH)).
  vm_compute. reflexivity.
Defined.

(** C8. [updateActiveParams] neither adds a voice to the registry nor
    removes one.  The registered identities are the same before and after;
    each voice keeps its five nodes, its oscillator and its amplitude gain
    untouched; the context (its node counter and connections), the pending
    timeouts, the master gain, the convolver and the analyser are
    unchanged, and the effect nodes that are updated keep their
    identities. *)
Theorem update_keeps_registry (patch : SynthPatch.t) (e : AudioEngine) :
  let e' := updateActiveParams patch e in
  dom (activeNotes e') = dom (activeNotes e)
  /\ (forall id, length (voices_under id e') = length (voices_under id e))
  /\ (forall id note',
        activeNotes e' !! id = Some note' ->
        exists note,
          activeNotes e !! id = Some note
          /\ voice_ids note' = voice_ids note
          /\ Voice.osc note' = Voice.osc note
          /\ Voice.amp note' = Voice.amp note)
  /\ context e' = context e
  /\ timeouts e' = timeouts e
  /\ masterGain e' = masterGain e
  /\ reverbNode e' = reverbNode e
  /\ analyser e' = analyser e
  /\ WaveShaperNode.id <$> distortionNode e'
     = WaveShaperNode.id <$> distortionNode e
  /\ DelayNode.id <$> delayNode e' = DelayNode.id <$> delayNode e
  /\ GainNode.id <$> delayFeedbackNode e'
     = GainNode.id <$> delayFeedbackNode e
  /\ GainNode.id <$> delayWetNode e' = GainNode.id <$> delayWetNode e
  /\ GainNode.id <$> reverbWetNode e' = GainNode.id <$> reverbWetNode e
  /\ GainNode.id <$> reverbDryNode e' = GainNode.id <$> reverbDryNode e.
Proof.
  intros e'. unfold e'. clear e'.
  destruct (context e) as [c|] eqn:Hc.
  - pose proof (updateActiveParams_activeNotes patch e c Hc) as Hn.
    split; [rewrite Hn; apply dom_fmap_L|].
    split.
    { intros id. rewrite !voices_under_lookup, Hn, lookup_fmap.
      destruct (activeNotes e !! id); reflexivity. }
    split.
    { intros id note' H. rewrite Hn, lookup_fmap in H.
      destruct (activeNotes e !! id) as [note|]; [|discriminate].
      injection H as <-. exists note.
      split; [reflexivity|]. split; [apply update_note_ids|].
      split; reflexivity. }
    clear Hn. unfold updateActiveParams. rewrite Hc.
    destruct (distortionNode e), (delayNode e), (delayFeedbackNode e),
      (delayWetNode e), (reverbDryNode e), (reverbWetNode e);
      simpl; repeat split; first [assumption | reflexivity].
  - rewrite updateActiveParams_uninitialized by assumption.
    split; [reflexivity|]. split; [reflexivity|].
    split; [intros id note' H; exists note'; auto|].
    repeat split; first [assumption | reflexivity].
Qed.

(** C9. Right after [init] the delay feedback gain, the delay wet gain,
    the reverb wet gain and the reverb dry gain hold the value a gain node
    is created with, 1, and nothing is scheduled on them; the master gain
    alone was assigned, to 0.5.  The feedback gain is thus outside the
    range [0, 0.95) of the patch field that later drives it. *)
Theorem gains_after_init (h : Host) :
  let e := init h new_AudioEngine in
  exists master feedback delayWet reverbWet reverbDry,
    masterGain e = Some master
    /\ delayFeedbackNode e = Some feedback
    /\ delayWetNode e = Some delayWet
    /\ reverbWetNode e = Some reverbWet
    /\ reverbDryNode e = Some reverbDry
    /\ GainNode.gain master = AudioParam.mk 0.5 []
    /\ GainNode.gain feedback = AudioParam.mk 1 []
    /\ GainNode.gain delayWet = AudioParam.mk 1 []
    /\ GainNode.gain reverbWet = AudioParam.mk 1 []
    /\ GainNode.gain reverbDry = AudioParam.mk 1 []
    /\ ~ (0 <= AudioParam.value (GainNode.gain feedback) < 0.95).
Proof.
  cbv zeta. do 5 eexists.
  repeat (split; [reflexivity|]).
  simpl. lra.
Qed.

(** C10. With [lfoTarget = cutoff], [triggerAttack] (with a patch whose
    attack and decay are not negative) starts the LFO depth gain at
    [lfoDepth * 2000] while [updateActiveParams] with the same patch steers
    it to [lfoDepth * 1000], half of that; with [pitch] (factor 100) and
    [amp] (factor 0.5) creation and update use the same factor. *)
Theorem lfo_depth_scaling (e : AudioEngine) (id : string) (frequency : Q)
    (patch : SynthPatch.t) :
  reachable e -> is_Some (context e) -> attack_in_range patch ->
  let e1 := triggerAttack id frequency patch e in
  let e2 := updateActiveParams patch e1 in
  let depth := SynthPatch.lfoDepth patch in
  exists ctx created updated note1 note2,
    context e = Some ctx
    /\ activeNotes e1 !! id = Some note1
    /\ activeNotes e2 !! id = Some note2
    /\ AudioParam.events (GainNode.gain (Voice.lfoGain note1))
       = [SetValueAtTime created (AudioContext.currentTime ctx)]
    /\ AudioParam.events (GainNode.gain (Voice.lfoGain note2))
       = [SetValueAtTime created (AudioContext.currentTime ctx);
          SetTargetAtTime updated (AudioContext.currentTime ctx) 0.1]
    /\ match SynthPatch.lfoTarget patch with
       | LfoTarget.cutoff =>
         created = depth * 2000 /\ updated = depth * 1000
         /\ updated == created / 2
       | LfoTarget.pitch => created = depth * 100 /\ updated = depth * 100
       | LfoTarget.amp => created = depth * 0.5 /\ updated = depth * 0.5
       | LfoTarget.none => created = 0 /\ updated = 0
       end.
Proof.
  intros Hr Hi _ e1 e2 depth.
  pose proof (reachable_initialized e Hr Hi) as Hb.
  destruct Hi as [c Hc].
  destruct (triggerAttack_registry id frequency patch e c Hb Hc)
    as (note & c' & Hn & Hc' & Ht & _ & _ & _ & Hlfo & _).
  fold e1 in Hn, Hc'.
  assert (H1 : activeNotes e1 !! id = Some note)
    by (rewrite Hn; apply lookup_insert_eq).
  assert (H2 : activeNotes e2 !! id
               = Some (update_note patch (AudioContext.currentTime c) note)).
  { unfold e2. rewrite (updateActiveParams_activeNotes patch e1 c' Hc').
    rewrite lookup_fmap, H1, Ht. reflexivity. }
  exists c.
  exists (match SynthPatch.lfoTarget patch with
          | LfoTarget.cutoff => depth * 2000
          | LfoTarget.pitch => depth * 100
          | LfoTarget.amp => depth * 0.5
          | LfoTarget.none => 0
          end).
  exists (match SynthPatch.lfoTarget patch with
          | LfoTarget.cutoff => depth * 1000
          | LfoTarget.pitch => depth * 100
          | LfoTarget.amp => depth * 0.5
          | LfoTarget.none => 0
          end).
  exists note, (update_note patch (AudioContext.currentTime c) note).
  split; [assumption|]. split; [assumption|]. split; [assumption|].
  split; [exact Hlfo|].
  split; [unfold update_note; simpl; rewrite Hlfo; reflexivity|].
  destruct (SynthPatch.lfoTarget patch); repeat split.
  field.
Qed.

Lemma lfo_depth_scaling_witness :
  attack_in_range wobble
  /\ exists note1 note2,
       activeNotes (triggerAttack "60" 261.63 wobble started) !! "60"
       = Some note1
       /\ activeNotes
            (updateActiveParams wobble
               (triggerAttack "60" 261.63 wobble started)) !! "60"
          = Some note2
       /\ AudioParam.events (GainNode.gain (Voice.lfoGain note1))
          = [SetValueAtTime (0.5 * 2000) 0]
       /\ AudioParam.events (GainNode.gain (Voice.lfoGain note2))
          = [SetValueAtTime (0.5 * 2000) 0;
             SetTargetAtTime (0.5 * 1000) 0 0.1].
Proof.
  split; [exact wobble_attack|].
  destruct (lfo_depth_scaling started "60" 261.63 wobble)
    as (ctx & created & updated & note1 & note2 & Hc & H1 & H2 & E1 & E2
        & Hcr & Hup & _).
  - apply (reachable_step (Call_init demo_host) new_AudioEngine I).
    apply reachable_new.
  - eexists. reflexivity.
  - exact wobble_attack.
  - exists note1, note2. split; [exact H1|]. split; [exact H2|].
    rewrite (started_clock ctx Hc), Hcr in E1.
    rewrite (started_clock ctx Hc), Hcr, Hup in E2.
    split; [exact E1 | exact E2].
Defined.

(** ** Ownership and wiring: the invariant *)

Lemma voice_ids_inv v0 v :
  voice_ids v0 = voice_ids v ->
  base v0 = base v
  /\ BiquadFilterNode.id (Voice.filter v0) = BiquadFilterNode.id (Voice.filter v)
  /\ GainNode.id (Voice.amp v0) = GainNode.id (Voice.amp v).
Proof. unfold voice_ids, base. intros H. injection H. auto. Qed.

Lemma well_shaped_ids next v0 v :
  voice_ids v0 = voice_ids v -> well_shaped next v0 -> well_shaped next v.
Proof.
  intros H (Hs & Hj & Hb). destruct (voice_ids_inv v0 v H) as (Hbase & _).
  unfold well_shaped. rewrite <- H, <- Hbase. auto.
Qed.

Lemma wired_ids cs v0 v :
  voice_ids v0 = voice_ids v -> wired cs v0 -> wired cs v.
Proof.
  intros H Hw. destruct (voice_ids_inv v0 v H) as (Hbase & Hf & Ha).
  unfold wired, base in *. rewrite <- Hbase, <- Hf, <- Ha. exact Hw.
Qed.

(** An operation that moves voices between holders without touching their
    identities or the node counter, and that removes no connection of the
    effects chain or of a voice still held, keeps the invariant. *)
Lemma sound_transfer_gen e e' (f : Holder -> Holder) :
  sound e ->
  node_count e' = node_count e ->
  GainNode.id <$> masterGain e' = GainNode.id <$> masterGain e ->
  incl effects_chain (graph e') ->
  incl (graph e') (graph e) ->
  (forall h v, holds e' h = Some v ->
               exists v0, holds e (f h) = Some v0
                          /\ voice_ids v0 = voice_ids v
                          /\ (wired (graph e) v0 -> wired (graph e') v0)) ->
  (forall h1 h2, h1 <> h2 -> is_Some (holds e' h1) ->
                 is_Some (holds e' h2) -> f h1 <> f h2) ->
  sound e'.
Proof.
  intros (Hn & Hm & Hc & He & Hv & Hd) Hcount Hmaster Hchain Hsub
    Horigin Hinj.
  unfold sound. rewrite Hcount, Hmaster.
  split; [assumption|]. split; [assumption|]. split; [assumption|].
  split; [intros s d Hin; apply (He s d), Hsub, Hin|]. split.
  - intros h v Hh. destruct (Horigin h v Hh) as (v0 & H0 & Hids & Hw).
    destruct (Hv (f h) v0 H0) as [Hs Hw0].
    split; [eapply well_shaped_ids|eapply wired_ids]; eauto.
  - intros h1 h2 v1 v2 Hne H1 H2.
    destruct (Horigin h1 v1 H1) as (w1 & Hw1 & Hi1 & _).
    destruct (Horigin h2 v2 H2) as (w2 & Hw2 & Hi2 & _).
    destruct (voice_ids_inv w1 v1 Hi1) as (<- & _).
    destruct (voice_ids_inv w2 v2 Hi2) as (<- & _).
    apply (Hd (f h1) (f h2) w1 w2); [|assumption|assumption].
    apply Hinj; [assumption|eexists; eassumption|eexists; eassumption].
Qed.

Lemma sound_transfer e e' (f : Holder -> Holder) :
  sound e ->
  node_count e' = node_count e ->
  graph e' = graph e ->
  GainNode.id <$> masterGain e' = GainNode.id <$> masterGain e ->
  (forall h v, holds e' h = Some v ->
               exists v0, holds e (f h) = Some v0
                          /\ voice_ids v0 = voice_ids v) ->
  (forall h1 h2, h1 <> h2 -> is_Some (holds e' h1) ->
                 is_Some (holds e' h2) -> f h1 <> f h2) ->
  sound e'.
Proof.
  intros Hs Hcount Hgraph Hmaster Horigin Hinj.
  apply (sound_transfer_gen e e' f); try assumption.
  - rewrite Hgraph. apply Hs.
  - rewrite Hgraph. apply incl_refl.
  - intros h v Hh. destruct (Horigin h v Hh) as (v0 & H0 & Hids).
    exists v0. rewrite Hgraph. auto.
Qed.

Lemma init_graph h : graph (init h new_AudioEngine) = effects_chain.
Proof. reflexivity. Qed.

Lemma init_node_count h : node_count (init h new_AudioEngine) = first_voice_id.
Proof. reflexivity. Qed.

Lemma init_timeouts h : timeouts (init h new_AudioEngine) = [].
Proof. reflexivity. Qed.

Lemma init_masterGain_id h :
  GainNode.id <$> masterGain (init h new_AudioEngine) = Some 1%nat.
Proof. reflexivity. Qed.

Lemma sound_init h : sound (init h new_AudioEngine).
Proof.
  unfold sound.
  rewrite init_graph, init_node_count, init_masterGain_id.
  split; [exists 0%nat; reflexivity|].
  split; [reflexivity|].
  split; [apply incl_refl|].
  split.
  { intros s d Hin. unfold effects_chain, first_voice_id in *. simpl in Hin.
    repeat (destruct Hin as [Hin|Hin]; [injection Hin as <- <-; lia|]).
    destruct Hin. }
  assert (Hnone : forall x, holds (init h new_AudioEngine) x = None).
  { intros [k|i]; unfold holds.
    - rewrite init_activeNotes. apply lookup_empty.
    - rewrite init_timeouts. reflexivity. }
  split.
  - intros x v Hx. rewrite Hnone in Hx. discriminate.
  - intros h1 h2 v1 v2 _ H1. rewrite Hnone in H1. discriminate.
Qed.

Lemma holds_same e e' :
  activeNotes e' = activeNotes e -> timeouts e' = timeouts e ->
  forall h, holds e' h = holds e h.
Proof. intros Hn Ht [k|i]; unfold holds; rewrite ?Hn, ?Ht; reflexivity. Qed.

Lemma holds_pending_lt e i v :
  holds e (Pending i) = Some v -> (i < length (timeouts e))%nat.
Proof.
  unfold holds. destruct (timeouts e !! i) eqn:E; [|discriminate].
  intros _. eapply lookup_lt_Some. eassumption.
Qed.

Lemma sound_quiet e e' :
  sound e ->
  node_count e' = node_count e -> graph e' = graph e ->
  GainNode.id <$> masterGain e' = GainNode.id <$> masterGain e ->
  activeNotes e' = activeNotes e -> timeouts e' = timeouts e ->
  sound e'.
Proof.
  intros Hs Hc Hg Hm Hn Ht.
  apply (sound_transfer e e' (fun h => h)); try assumption.
  - intros h v Hh. rewrite (holds_same e e' Hn Ht) in Hh. eauto.
  - auto.
Qed.

Lemma sound_resume e : sound e -> sound (resume e).
Proof.
  intros Hs. apply (sound_quiet e); try assumption.
  - unfold node_count, resume.
    destruct (context e) eqn:Hc; [|rewrite Hc; reflexivity].
    case_decide; simpl; rewrite ?Hc; reflexivity.
  - unfold graph, resume.
    destruct (context e) eqn:Hc; [|rewrite Hc; reflexivity].
    case_decide; simpl; rewrite ?Hc; reflexivity.
  - rewrite resume_masterGain. reflexivity.
  - apply resume_activeNotes.
  - apply resume_timeouts.
Qed.

Lemma sound_setMasterVolume val e : sound e -> sound (setMasterVolume val e).
Proof.
  intros Hs. unfold setMasterVolume.
  destruct (masterGain e) as [m|] eqn:Hm; [|assumption].
  destruct (context e) as [c|] eqn:Hc; [|assumption].
  apply (sound_quiet e); try assumption;
    unfold node_count, graph; simpl; rewrite ?Hc, ?Hm; reflexivity.
Qed.

Lemma sound_tick dt e : sound e -> sound (tick dt e).
Proof.
  intros Hs. unfold tick.
  destruct (context e) as [c|] eqn:Hc; [|assumption].
  apply (sound_quiet e); try assumption;
    unfold node_count, graph; simpl; rewrite ?Hc; reflexivity.
Qed.

Lemma updateActiveParams_frame patch e :
  context (updateActiveParams patch e) = context e
  /\ masterGain (updateActiveParams patch e) = masterGain e
  /\ timeouts (updateActiveParams patch e) = timeouts e.
Proof.
  unfold updateActiveParams.
  destruct (context e) as [c|] eqn:Hc; [|auto].
  destruct (match delayNode e with Some _ => _ | None => _ end)
    as [[? ?] ?].
  destruct (match reverbDryNode e with Some _ => _ | None => _ end)
    as [? ?].
  simpl. auto.
Qed.

Lemma sound_updateActiveParams patch e :
  sound e -> sound (updateActiveParams patch e).
Proof.
  intros Hs.
  destruct (updateActiveParams_frame patch e) as (Hc & Hm & Ht).
  destruct (context e) as [c|] eqn:Hce;
    [|rewrite updateActiveParams_uninitialized; assumption].
  apply (sound_transfer e _ (fun h => h)); try assumption.
  - unfold node_count. rewrite Hc, Hce. reflexivity.
  - unfold graph. rewrite Hc, Hce. reflexivity.
  - rewrite Hm. reflexivity.
  - intros [k|i] v Hh; unfold holds in *.
    + rewrite (updateActiveParams_activeNotes patch e c Hce), lookup_fmap
        in Hh.
      destruct (activeNotes e !! k) as [v0|]; [|discriminate].
      injection Hh as <-. exists v0. split; [reflexivity|].
      symmetry. apply update_note_ids.
    + rewrite Ht in Hh. eauto.
  - auto.
Qed.

Lemma sound_render_amp id x e : sound e -> sound (render_amp id x e).
Proof.
  intros Hs. apply (sound_transfer e _ (fun h => h)); try assumption;
    try reflexivity.
  - intros [k|i] v Hh; unfold holds in *; simpl in Hh; [|eauto].
    apply lookup_alter_Some in Hh as [(_ & v0 & Hv0 & ->) | [_ Hh]].
    + exists v0. split; [assumption|reflexivity].
    + eauto.
  - auto.
Qed.

Lemma sound_triggerRelease id patch e :
  sound e -> sound (triggerRelease id patch e).
Proof.
  intros Hs.
  destruct (context e) as [c|] eqn:Hc;
    [|unfold triggerRelease; rewrite Hc; assumption].
  destruct (activeNotes e !! id) as [note|] eqn:Hn;
    [|rewrite triggerRelease_absent; assumption].
  rewrite (triggerRelease_present id patch e c note Hc Hn). cbv zeta.
  set (t := AudioContext.currentTime c).
  set (rel := match patch with Some p => _ | None => _ end).
  apply (sound_transfer e _
           (fun h => match h with
                     | Registered k => Registered k
                     | Pending i =>
                       if decide (i < length (timeouts e))%nat
                       then Pending i else Registered id
                     end)); try assumption; try reflexivity.
  - intros [k|i] v Hh; unfold holds in *; simpl in Hh.
    + apply lookup_delete_Some in Hh as [_ Hh]. eauto.
    + case_decide as Hi.
      * rewrite lookup_app_l in Hh by assumption. eauto.
      * rewrite lookup_app_r in Hh by lia.
        destruct (i - length (timeouts e))%nat; simpl in Hh;
          [|discriminate].
        injection Hh as <-. exists note. split; [assumption|reflexivity].
  - intros [k1|i1] [k2|i2] Hne [v1 H1] [v2 H2].
    + congruence.
    + case_decide; [congruence|]. simpl in H1.
      apply lookup_delete_Some in H1 as [H1 _]. congruence.
    + case_decide; [congruence|]. simpl in H2.
      apply lookup_delete_Some in H2 as [H2 _]. congruence.
    + apply holds_pending_lt in H1, H2. simpl in H1, H2.
      rewrite length_app in H1, H2. simpl in H1, H2.
      repeat case_decide; try congruence.
      exfalso. apply Hne. f_equal. lia.
Qed.

Lemma run_handler_connections v c s d :
  In (s, d) (AudioContext.connections (run_handler (DisconnectNote v) c))
  <-> In (s, d) (AudioContext.connections c) /\ ~ In s (voice_ids v).
Proof.
  simpl. rewrite !filter_In. simpl.
  rewrite !negb_true_iff, !Nat.eqb_neq. unfold voice_ids. simpl.
  intuition congruence.
Qed.

Arguments run_handler : simpl never.

Lemma run_handler_nextNodeId h c :
  AudioContext.nextNodeId (run_handler h c) = AudioContext.nextNodeId c.
Proof. destruct h. reflexivity. Qed.

Lemma effects_chain_sources s d :
  In (s, d) effects_chain -> (s < first_voice_id)%nat.
Proof.
  unfold effects_chain, first_voice_id. simpl. intros Hin.
  repeat (destruct Hin as [Hin|Hin]; [injection Hin as <- <-; lia|]).
  destruct Hin.
Qed.

Lemma well_shaped_above next v x :
  well_shaped next v -> In x (voice_ids v) ->
  (first_voice_id <= x < next)%nat.
Proof.
  intros (Hs & [j Hj] & Hb) Hin. rewrite Hs in Hin. simpl in Hin.
  repeat (destruct Hin as [<-|Hin]; [lia|]). destruct Hin.
Qed.

(** Two voices numbered from different oscillators share no node. *)
Lemma well_shaped_disjoint n m v u x :
  well_shaped n v -> well_shaped m u -> base v <> base u ->
  In x (voice_ids v) -> ~ In x (voice_ids u).
Proof.
  intros (Hv & [j Hj] & _) (Hu & [k Hk] & _) Hne Hin Hin'.
  rewrite Hv in Hin. rewrite Hu in Hin'. simpl in Hin, Hin'.
  repeat (destruct Hin as [<-|Hin];
          [repeat (destruct Hin' as [Hin'|Hin']; [lia|]); destruct Hin'|]).
  destruct Hin.
Qed.

Lemma sound_fire_timeout i e : sound e -> sound (fire_timeout i e).
Proof.
  intros Hs. unfold fire_timeout.
  destruct (timeouts e !! i) as [tm|] eqn:Htm; [|assumption].
  destruct (context e) as [c|] eqn:Hc; [|assumption].
  pose proof Hs as (Hn & Hm & Hch & He & Hv & Hd).
  destruct tm as [[u] ms].
  assert (Hu : holds e (Pending i) = Some u)
    by (unfold holds; rewrite Htm; reflexivity).
  destruct (Hv _ _ Hu) as [Hus _].
  unfold graph, node_count in He, Hch, Hus, Hv. rewrite Hc in He, Hch, Hus, Hv.
  apply (sound_transfer_gen e _
           (fun h => match h with
                     | Registered k => Registered k
                     | Pending j =>
                       if decide (j < i)%nat then Pending j
                       else Pending (S j)
                     end)); try assumption.
  - unfold node_count. simpl. rewrite Hc. reflexivity.
  - reflexivity.
  - intros [s d] Hin. unfold graph. simpl.
    apply run_handler_connections. split; [apply Hch, Hin|].
    intros Hin'. apply effects_chain_sources in Hin.
    apply (well_shaped_above _ _ _ Hus) in Hin'. lia.
  - intros [s d] Hin. unfold graph in *. simpl in Hin. rewrite Hc.
    apply run_handler_connections in Hin. apply Hin.
  - intros h v Hh.
    assert (Ho : exists h0, h0 <> Pending i /\ holds e h0 = Some v
                 /\ h0 = match h with
                         | Registered k => Registered k
                         | Pending j =>
                           if decide (j < i)%nat then Pending j
                           else Pending (S j)
                         end).
    { destruct h as [k|j]; unfold holds in Hh |- *; simpl in Hh.
      - exists (Registered k). split; [discriminate|]. auto.
      - case_decide as Hj.
        + rewrite list_lookup_delete_lt in Hh by assumption.
          exists (Pending j). split; [intros [=]; lia|]. auto.
        + rewrite list_lookup_delete_ge in Hh by lia.
          exists (Pending (S j)). split; [intros [=]; lia|]. auto. }
    destruct Ho as (h0 & Hne & Hh0 & ->).
    exists v. split; [assumption|]. split; [reflexivity|].
    intros (H1 & H2 & H3). unfold graph in *. rewrite Hc in H1, H2, H3.
    cbn [context handler].
    destruct (Hv _ _ Hh0) as [Hvs _].
    assert (Hdis : forall x, In x (voice_ids v) -> ~ In x (voice_ids u)).
    { intros x. eapply well_shaped_disjoint; [exact Hvs|exact Hus|].
      apply (Hd _ _ _ _ Hne Hh0 Hu). }
    unfold wired. rewrite !run_handler_connections.
    repeat split; try assumption; apply Hdis; unfold voice_ids; simpl; auto.
  - intros [k1|j1] [k2|j2] Hne _ _; repeat case_decide; try congruence.
    + intros [=]. apply Hne. f_equal. lia.
    + intros [=]. apply Hne. f_equal. lia.
Qed.

Lemma create_voice_connections frequency patch c m :
  exists extra,
    AudioContext.connections (snd (create_voice frequency patch c m))
    = AudioContext.connections c ++ extra
    /\ (forall s d, In (s, d) extra ->
          In s (voice_ids (fst (create_voice frequency patch c m))))
    /\ (GainNode.id m = 1%nat ->
        wired extra (fst (create_voice frequency patch c m))).
Proof.
  unfold create_voice. simpl.
  destruct (SynthPatch.lfoTarget patch); simpl;
    (eexists; split; [rewrite <- !app_assoc; reflexivity|]);
    (split;
     [intros s d Hin; simpl in Hin; unfold voice_ids; simpl;
      repeat (destruct Hin as [Hin|Hin]; [injection Hin as <- <-; tauto|]);
      destruct Hin
     |intros ->; unfold wired; simpl; tauto]).
Qed.

Lemma wired_app cs extra v : wired cs v \/ wired extra v -> wired (cs ++ extra) v.
Proof.
  unfold wired. intros [(H1 & H2 & H3)|(H1 & H2 & H3)];
    repeat split; apply in_or_app; auto.
Qed.

Lemma well_shaped_mono n m v :
  (n <= m)%nat -> well_shaped n v -> well_shaped m v.
Proof. intros Hle (Hs & Hj & Hb). repeat split; try assumption. lia. Qed.

Lemma sound_triggerAttack id frequency patch e :
  graph_built e -> sound e -> sound (triggerAttack id frequency patch e).
Proof.
  intros Hb Hs.
  destruct (triggerAttack_built id frequency patch e Hb)
    as (c & m & Hc & Hm & ->).
  cbv zeta.
  apply sound_resume, (sound_triggerRelease id None) in Hs.
  set (e1 := triggerRelease id None (resume e)) in *.
  assert (Hm1 : masterGain e1 = Some m)
    by (unfold e1; rewrite triggerRelease_masterGain, resume_masterGain;
        assumption).
  assert (Hnone : activeNotes e1 !! id = None).
  { unfold e1. destruct (activeNotes (resume e) !! id) as [old|] eqn:Ho.
    - destruct (context (resume e)) as [cr|] eqn:Hcr.
      + rewrite (triggerRelease_present id None _ cr old Hcr Ho). simpl.
        apply lookup_delete_eq.
      + unfold e1 in Hc. rewrite triggerRelease_context, Hcr in Hc.
        discriminate.
    - rewrite triggerRelease_absent; assumption. }
  destruct Hs as (Hn & Hmid & Hch & He & Hv & Hd).
  unfold node_count, graph in Hn, Hch, He, Hv. rewrite Hc in Hn, Hch, He, Hv.
  assert (Hone : GainNode.id m = 1%nat)
    by (rewrite Hm1 in Hmid; simpl in Hmid; congruence).
  pose proof (create_voice_ids frequency patch c m) as Hids.
  pose proof (create_voice_context frequency patch c m) as (Hnext & _).
  destruct (create_voice_connections frequency patch c m)
    as (extra & Hconn & Hsrc & Hw).
  destruct (create_voice frequency patch c m) as [note c'].
  cbn [fst snd] in Hids, Hnext, Hconn, Hsrc, Hw.
  assert (Hbase : base note = AudioContext.nextNodeId c)
    by (unfold base; unfold voice_ids in Hids; congruence).
  assert (Hshape : well_shaped (AudioContext.nextNodeId c') note).
  { unfold well_shaped. rewrite Hbase, Hids, Hnext.
    split; [reflexivity|]. split; [assumption|lia]. }
  unfold sound, node_count, graph. cbn [context masterGain].
  rewrite Hm1, Hnext, Hconn.
  split; [destruct Hn as [n Hn]; exists (S n); lia|].
  split; [simpl; f_equal; exact Hone|].
  split; [apply incl_appl; assumption|].
  split.
  { intros s d Hin. apply in_app_or in Hin as [Hin|Hin].
    - apply He in Hin. lia.
    - apply Hsrc in Hin. rewrite Hids in Hin. simpl in Hin.
      repeat (destruct Hin as [<-|Hin]; [lia|]). destruct Hin. }
  assert (Hold : forall h v,
            holds (mkEngine (Some c') (masterGain e1) (distortionNode e1)
                     (delayNode e1) (delayFeedbackNode e1) (delayWetNode e1)
                     (reverbNode e1) (reverbWetNode e1) (reverbDryNode e1)
                     (analyser e1) (<[id:=note]> (activeNotes e1))
                     (timeouts e1)) h = Some v ->
            (h = Registered id /\ v = note)
            \/ (h <> Registered id /\ holds e1 h = Some v)).
  { intros [k|i] v Hh; unfold holds in *; simpl in Hh.
    - apply lookup_insert_Some in Hh as [[-> ->]|[Hne Hh]]; [auto|].
      right. split; [congruence|assumption].
    - right. split; [discriminate|assumption]. }
  split.
  - intros h v Hh. destruct (Hold h v Hh) as [[-> ->]|[Hne Hh1]].
    + split; [rewrite <- Hnext; assumption|].
      apply wired_app. right. auto.
    + destruct (Hv h v Hh1) as [Hs1 Hw1].
      split; [eapply well_shaped_mono; [|exact Hs1]; lia|].
      apply wired_app. left. assumption.
  - intros h1 h2 v1 v2 Hne H1 H2.
    destruct (Hold h1 v1 H1) as [[-> ->]|[Hne1 Hh1]];
      destruct (Hold h2 v2 H2) as [[-> ->]|[Hne2 Hh2]].
    + congruence.
    + destruct (Hv h2 v2 Hh2) as [(_ & _ & Hlt) _]. lia.
    + destruct (Hv h1 v1 Hh1) as [(_ & _ & Hlt) _]. lia.
    + apply (Hd h1 h2 v1 v2 Hne Hh1 Hh2).
Qed.

(** The invariant holds from [init] on. *)
Lemma reachable_sound e : reachable e -> is_Some (context e) -> sound e.
Proof.
  induction 1 as [|ev e Hadm Hr IH]; intros Hi.
  - destruct Hi as [c Hc]. discriminate.
  - destruct (reachable_new_or_built e Hr) as [-> | Hb].
    + destruct (perform_new ev) as [Hp | [h ->]].
      * rewrite Hp in Hi. destruct Hi as [c Hc]. discriminate.
      * apply sound_init.
    + specialize (IH (proj1 Hb)). destruct ev; simpl.
      * rewrite init_idle; [assumption|apply Hb].
      * apply sound_resume; assumption.
      * apply sound_setMasterVolume; assumption.
      * apply sound_updateActiveParams; assumption.
      * apply sound_triggerAttack; assumption.
      * apply sound_triggerRelease; assumption.
      * apply sound_tick; assumption.
      * apply sound_fire_timeout; assumption.
      * apply sound_render_amp; assumption.
Qed.

(** ** What the invariant gives *)

(** X1. From its attack until its deferred disconnect fires, a voice is
    wired through to the output: there is a path of connections from its
    oscillator to the context's destination, whatever else was played,
    released, updated or cleaned up in between. *)
Theorem voice_reaches_output (e : AudioEngine) (h : Holder) (v : Voice.t) :
  reachable e -> holds e h = Some v ->
  reaches (graph e) (OscillatorNode.id (Voice.osc v))
    AudioContext.destination.
Proof.
  intros Hr Hh.
  assert (Hi : is_Some (context e)).
  { destruct (reachable_new_or_built e Hr) as [-> | Hb]; [|apply Hb].
    destruct h as [k|i]; simpl in Hh; [rewrite lookup_empty in Hh|];
      discriminate. }
  destruct (reachable_sound e Hr Hi) as (_ & _ & Hch & _ & Hv & _).
  destruct (Hv h v Hh) as [_ (H1 & H2 & H3)].
  assert (Hc : forall a b, In (a, Input b) effects_chain ->
                           In (a, Input b) (graph e))
    by (intros a b Hin; apply Hch, Hin).
  eapply reaches_next; [exact H1|].
  eapply reaches_next; [exact H2|].
  eapply reaches_next; [exact H3|].
  eapply reaches_next; [apply (Hc 1%nat 2%nat); simpl; tauto|].
  eapply reaches_next; [apply (Hc 2%nat 10%nat); simpl; tauto|].
  eapply reaches_next; [apply (Hc 10%nat 11%nat); simpl; tauto|].
  eapply reaches_next; [apply (Hc 11%nat 8%nat); simpl; tauto|].
  eapply reaches_next; [apply (Hc 8%nat 9%nat); simpl; tauto|].
  eapply reaches_next; [apply (Hc 9%nat 0%nat); simpl; tauto|].
  apply reaches_here.
Qed.

Lemma voice_reaches_output_witness :
  exists v,
    holds held (Registered "60") = Some v
    /\ reaches (graph held) (OscillatorNode.id (Voice.osc v))
         AudioContext.destination.
Proof.
  assert (H : exists v, holds held (Registered "60") = Some v)
    by (eexists; vm_compute; reflexivity).
  destruct H as [v Hv]. exists v. split; [exact Hv|].
  apply (voice_reaches_output held (Registered "60") v); [|exact Hv].
  unfold held. apply reachable_triggerAttack.
  apply (reachable_step (Call_init demo_host) new_AudioEngine I).
  apply reachable_new.
Defined.
(** X2. No audio node has two owners.  The five nodes of a voice the
    engine holds (in the registry or in a pending timeout) are distinct and
    none of them is a node of the effects chain [init] built: they were
    handed out after the twelve nodes of the chain.  Two voices held at the
    same time (registered under different keys, waiting in different
    timeouts, or one of each) share no node. *)
Theorem voices_share_no_node (e : AudioEngine) (h1 : Holder)
    (v1 : Voice.t) :
  reachable e -> holds e h1 = Some v1 ->
  NoDup (voice_ids v1)
  /\ (forall x, In x (voice_ids v1) ->
        (first_voice_id <= x < node_count e)%nat
        /\ forall s d, In (s, d) effects_chain -> s <> x /\ d <> Input x)
  /\ (forall h2 v2, h1 <> h2 -> holds e h2 = Some v2 ->
        forall x, In x (voice_ids v1) -> ~ In x (voice_ids v2)).
Proof.
  intros Hr H1.
  assert (Hi : is_Some (context e)).
  { destruct (reachable_new_or_built e Hr) as [-> | Hb]; [|apply Hb].
    destruct h1 as [k|i]; simpl in H1; [rewrite lookup_empty in H1|];
      discriminate. }
  destruct (reachable_sound e Hr Hi) as (_ & _ & _ & _ & Hv & Hd).
  destruct (Hv h1 v1 H1) as [Hs1 _].
  split; [|split].
  - destruct Hs1 as (-> & _ & _).
    apply NoDup_ListNoDup.
    repeat (apply List.NoDup_cons; [simpl; lia|]). apply List.NoDup_nil.
  - intros x Hx.
    pose proof (well_shaped_above _ v1 x Hs1 Hx) as Hrange.
    split; [exact Hrange|].
    intros s d Hin. unfold first_voice_id in Hrange.
    unfold effects_chain in Hin. simpl in Hin.
    repeat (destruct Hin as [Hin|Hin];
            [injection Hin as <- <-; split; [lia | intros [= Hd']; lia]|]).
    destruct Hin.
  - intros h2 v2 Hne H2 x Hx.
    destruct (Hv h2 v2 H2) as [Hs2 _].
    eapply well_shaped_disjoint; [exact Hs1|exact Hs2| |exact Hx].
    apply (Hd h1 h2 v1 v2 Hne H1 H2).
Qed.

Lemma voices_share_no_node_witness :
  exists v1,
    holds held (Registered "60") = Some v1
    /\ NoDup (voice_ids v1)
    /\ (forall x, In x (voice_ids v1) ->
          (first_voice_id <= x < node_count held)%nat
          /\ forall s d, In (s, d) effects_chain -> s <> x /\ d <> Input x)
    /\ (forall h2 v2, Registered "60" <> h2 -> holds held h2 = Some v2 ->
          forall x, In x (voice_ids v1) -> ~ In x (voice_ids v2)).
Proof.
  assert (H1 : exists v, holds held (Registered "60") = Some v)
    by (eexists; vm_compute; reflexivity).
  destruct H1 as [v1 H1]. exists v1.
  split; [exact H1|].
  apply (voices_share_no_node held (Registered "60") v1); [|exact H1].
  unfold held. apply reachable_triggerAttack.
  apply (reachable_step (Call_init demo_host) new_AudioEngine I).
  apply reachable_new.
Defined.

(** X3. The effects chain is permanent.  Every connection [init] made is
    still in the graph of any state reached later, so the master gain keeps
    its path to the destination: the deferred disconnects only ever remove
    connections of released voices. *)
Theorem effects_chain_stays (h0 : Host) (e : AudioEngine) :
  reachable e -> is_Some (context e) ->
  incl (graph (init h0 new_AudioEngine)) (graph e)
  /\ exists master,
       masterGain e = Some master
       /\ reaches (graph e) (GainNode.id master) AudioContext.destination.
Proof.
  intros Hr Hi.
  destruct (reachable_sound e Hr Hi) as (_ & Hm & Hch & _).
  rewrite init_graph. split; [assumption|].
  destruct (masterGain e) as [m|]; [|discriminate].
  simpl in Hm. injection Hm as Hm. exists m. split; [reflexivity|].
  rewrite Hm.
  assert (Hc : forall a b, In (a, Input b) effects_chain ->
                           In (a, Input b) (graph e))
    by (intros a b Hin; apply Hch, Hin).
  eapply reaches_next; [apply (Hc 1%nat 2%nat); simpl; tauto|].
  eapply reaches_next; [apply (Hc 2%nat 10%nat); simpl; tauto|].
  eapply reaches_next; [apply (Hc 10%nat 11%nat); simpl; tauto|].
  eapply reaches_next; [apply (Hc 11%nat 8%nat); simpl; tauto|].
  eapply reaches_next; [apply (Hc 8%nat 9%nat); simpl; tauto|].
  eapply reaches_next; [apply (Hc 9%nat 0%nat); simpl; tauto|].
  apply reaches_here.
Qed.

Lemma effects_chain_stays_witness :
  incl (graph (init demo_host new_AudioEngine)) (graph chord).
Proof.
  apply (effects_chain_stays demo_host chord).
  - unfold chord, held. do 2 apply reachable_triggerAttack.
    apply (reachable_step (Call_init demo_host) new_AudioEngine I).
    apply reachable_new.
  - eexists. vm_compute. reflexivity.
Defined.

Lemma filter_keeps_all {A : Type} (f : A -> bool) (l : list A) :
  (forall x, In x l -> f x = true) -> List.filter f l = l.
Proof.
  induction l as [|a l IH]; intros H; simpl; [reflexivity|].
  rewrite (H a) by (left; reflexivity).
  rewrite IH; [reflexivity|]. intros x Hx. apply H. right. assumption.
Qed.

Lemma no_members_nil {A : Type} (l : list A) :
  (forall x, ~ In x l) -> l = [].
Proof.
  destruct l as [|a l]; [reflexivity|].
  intros H. destruct (H a). left. reflexivity.
Qed.

(** Disconnecting a voice whose connections are the tail of the list, and
    the only ones leaving its nodes, gives back the head. *)
Lemma run_handler_restores v cs extra c :
  AudioContext.connections c = cs ++ extra ->
  (forall s d, In (s, d) cs -> ~ In s (voice_ids v)) ->
  (forall s d, In (s, d) extra -> In s (voice_ids v)) ->
  AudioContext.connections (run_handler (DisconnectNote v) c) = cs.
Proof.
  intros Hc Hcs Hex.
  assert (Hsplit :
    AudioContext.connections (run_handler (DisconnectNote v) c)
    = AudioContext.connections
        (run_handler (DisconnectNote v)
           (AudioContext.mk (AudioContext.currentTime c)
              (AudioContext.state c) (AudioContext.sampleRate c)
              (AudioContext.nextNodeId c) cs))
      ++ AudioContext.connections
           (run_handler (DisconnectNote v)
              (AudioContext.mk (AudioContext.currentTime c)
                 (AudioContext.state c) (AudioContext.sampleRate c)
                 (AudioContext.nextNodeId c) extra))).
  { unfold run_handler. simpl. rewrite Hc, !List.filter_app. reflexivity. }
  rewrite Hsplit.
  rewrite (no_members_nil
             (AudioContext.connections
                (run_handler (DisconnectNote v)
                   (AudioContext.mk _ _ _ _ extra)))).
  - rewrite app_nil_r. unfold run_handler. simpl.
    assert (Hk : forall n, In n (voice_ids v) ->
              List.filter (fun e0 : nat * Port => negb (fst e0 =? n)%nat) cs
              = cs).
    { intros n Hn. apply filter_keeps_all. intros [s d] Hin. simpl.
      apply negb_true_iff, Nat.eqb_neq. intros ->.
      apply (Hcs _ _ Hin Hn). }
    rewrite !Hk; [reflexivity| | | | |]; unfold voice_ids; simpl; tauto.
  - intros [s d] Hin. apply run_handler_connections in Hin as [Hin Hnot].
    simpl in Hin. apply Hnot, (Hex _ _ Hin).
Qed.

Lemma triggerRelease_graph id patch e :
  graph (triggerRelease id patch e) = graph e
  /\ node_count (triggerRelease id patch e) = node_count e.
Proof.
  unfold graph, node_count. rewrite triggerRelease_context. auto.
Qed.

Lemma resume_graph e :
  graph (resume e) = graph e /\ node_count (resume e) = node_count e.
Proof.
  unfold graph, node_count, resume.
  destruct (context e) eqn:Hc; [|rewrite Hc; auto].
  case_decide; simpl; rewrite ?Hc; auto.
Qed.

(** What an attack adds to the graph. *)
Lemma triggerAttack_graph id frequency patch e :
  graph_built e ->
  exists note extra,
    activeNotes (triggerAttack id frequency patch e)
    = <[id := note]> (activeNotes e)
    /\ graph (triggerAttack id frequency patch e) = graph e ++ extra
    /\ (forall s d, In (s, d) extra -> In s (voice_ids note))
    /\ voice_ids note
       = (let n := node_count e in
          [n; S n; S (S n); S (S (S n)); S (S (S (S n)))]).
Proof.
  intros Hb. pose proof Hb as ([c0 Hc0] & _).
  destruct (triggerAttack_registry id frequency patch e c0 Hb Hc0)
    as (note & c' & Hn & _ & _ & _ & Hids & _).
  destruct (triggerAttack_built id frequency patch e Hb)
    as (c & m & Hc & Hm & Heq).
  rewrite Heq in Hn |- *. cbv zeta in Hn |- *.
  destruct (create_voice_connections frequency patch c m)
    as (extra & Hconn & Hsrc & _).
  destruct (create_voice frequency patch c m) as [note' c''].
  cbn [fst snd activeNotes] in Hn, Hconn, Hsrc.
  assert (note' = note) as ->.
  { assert (H : <[id:=note']> (activeNotes (triggerRelease id None (resume e)))
                !! id = <[id:=note]> (activeNotes e) !! id)
      by (rewrite Hn; reflexivity).
    rewrite !lookup_insert_eq in H. congruence. }
  exists note, extra.
  split; [assumption|].
  destruct (triggerRelease_graph id None (resume e)) as [Hg _].
  destruct (resume_graph e) as [Hg' _].
  unfold graph in Hg, Hg' |- *. rewrite Hc in Hg. cbn [context].
  rewrite Hconn, Hg, Hg'. rewrite Hc0.
  split; [reflexivity|]. split; [assumption|].
  unfold node_count. rewrite Hc0. exact Hids.
Qed.

(** X4. A note leaves nothing behind in the graph.  After an attack, the
    release of that note and the firing of the timeout that release armed,
    the connections are exactly those before the attack, the registry has
    no entry under the identity, and no timeout is left from the release.
    The envelope times of the two patches are not negative. *)
Theorem note_cleanup_restores_graph (e : AudioEngine) (id : string)
    (frequency : Q) (patch : SynthPatch.t) (patch' : option SynthPatch.t) :
  reachable e -> is_Some (context e) ->
  attack_in_range patch -> release_in_range patch' ->
  let e1 := triggerAttack id frequency patch e in
  let e2 := triggerRelease id patch' e1 in
  let e3 := fire_timeout (length (timeouts e1)) e2 in
  graph e3 = graph e
  /\ activeNotes e3 = delete id (activeNotes e)
  /\ timeouts e3 = timeouts e1.
Proof.
  intros Hr Hi _ _ e1 e2 e3.
  pose proof (reachable_initialized e Hr Hi) as Hb.
  destruct (reachable_sound e Hr Hi) as (_ & _ & _ & He & _).
  destruct (triggerAttack_graph id frequency patch e Hb)
    as (note & extra & Hn & Hg & Hsrc & Hids).
  fold e1 in Hn, Hg.
  assert (Hb1 : graph_built e1) by (apply (perform_built
    (Call_triggerAttack id frequency patch)); assumption).
  pose proof Hb1 as ([c1 Hc1] & _).
  assert (Hl : activeNotes e1 !! id = Some note)
    by (rewrite Hn; apply lookup_insert_eq).
  unfold e3, e2.
  rewrite (triggerRelease_present id patch' e1 c1 note Hc1 Hl). cbv zeta.
  unfold fire_timeout. cbn [timeouts context].
  rewrite list_lookup_middle by reflexivity. rewrite Hc1.
  unfold graph at 1. cbn [context activeNotes timeouts handler].
  split; [|split].
  - apply (run_handler_restores _ (graph e) extra).
    + unfold graph in Hg. rewrite Hc1 in Hg. exact Hg.
    + intros s d Hin Hin'. apply He in Hin.
      change (voice_ids (release_note _ _ note)) with (voice_ids note)
        in Hin'.
      rewrite Hids in Hin'. simpl in Hin'.
      repeat (destruct Hin' as [<-|Hin']; [lia|]). destruct Hin'.
    + intros s d Hin. apply (Hsrc s d Hin).
  - rewrite Hn. apply delete_insert_eq.
  - rewrite (delete_middle (timeouts e1) []). apply app_nil_r.
Qed.

Lemma note_cleanup_restores_graph_witness :
  attack_in_range DEFAULT_PATCH /\ release_in_range (Some DEFAULT_PATCH)
  /\ graph
       (fire_timeout (length (timeouts held))
          (triggerRelease "60" (Some DEFAULT_PATCH) held))
     = graph started.
Proof.
  split; [exact DEFAULT_PATCH_attack|].
  split; [exact DEFAULT_PATCH_release|].
  apply (note_cleanup_restores_graph started "60" 261.63 DEFAULT_PATCH
           (Some DEFAULT_PATCH)).
  - apply (reachable_step (Call_init demo_host) new_AudioEngine I).
    apply reachable_new.
  - eexists. reflexivity.
  - exact DEFAULT_PATCH_attack.
  - exact DEFAULT_PATCH_release.
Defined.

(** X5. Releasing a note twice is releasing it once: after a
    [triggerRelease] at a clock and with a release time that are not
    negative, a second [triggerRelease] on the identity, with or without a
    patch, changes nothing (a key fires mouse-up and then mouse-leave). *)
Theorem release_is_idempotent (e : AudioEngine) (id : string)
    (patch1 patch2 : option SynthPatch.t) :
  0 <= clock e -> release_in_range patch1 ->
  triggerRelease id patch2 (triggerRelease id patch1 e)
  = triggerRelease id patch1 e.
Proof.
  intros _ _.
  destruct (context e) as [c|] eqn:Hc.
  - apply triggerRelease_absent.
    destruct (activeNotes e !! id) as [note|] eqn:Hn.
    + rewrite (triggerRelease_present id patch1 e c note Hc Hn). simpl.
      apply lookup_delete_eq.
    + rewrite triggerRelease_absent; assumption.
  - unfold triggerRelease. rewrite Hc. rewrite Hc. reflexivity.
Qed.

Lemma release_is_idempotent_witness :
  0 <= clock held /\ release_in_range (Some DEFAULT_PATCH)
  /\ triggerRelease "60" None (triggerRelease "60" (Some DEFAULT_PATCH) held)
     = triggerRelease "60" (Some DEFAULT_PATCH) held.
Proof.
  assert (Hclock : 0 <= clock held) by (vm_compute; discriminate).
  split; [exact Hclock|]. split; [exact DEFAULT_PATCH_release|].
  apply (release_is_idempotent held "60" (Some DEFAULT_PATCH) None Hclock
           DEFAULT_PATCH_release).
Defined.

(** X6. Playing or releasing one key does nothing to the voice held under
    another: the registry entry of [id] is the same before and after a
    [triggerAttack] or a [triggerRelease] on a different identity. *)
Theorem other_voices_untouched (e : AudioEngine) (id k : string)
    (frequency : Q) (patch : SynthPatch.t) (patch' : option SynthPatch.t) :
  k <> id ->
  activeNotes (triggerAttack k frequency patch e) !! id = activeNotes e !! id
  /\ activeNotes (triggerRelease k patch' e) !! id = activeNotes e !! id.
Proof.
  intros Hne. split.
  - apply triggerAttack_other. assumption.
  - apply triggerRelease_other. assumption.
Qed.

Lemma other_voices_untouched_witness :
  activeNotes (triggerRelease "64" (Some DEFAULT_PATCH) chord) !! "60"
  = activeNotes chord !! "60".
Proof.
  apply (other_voices_untouched chord "60" "64" 0 DEFAULT_PATCH
           (Some DEFAULT_PATCH)).
  discriminate.
Defined.

Lemma reachable_triggerRelease id patch e :
  reachable e -> reachable (triggerRelease id patch e).
Proof.
  intros H. apply (reachable_step (Call_triggerRelease id patch) e I H).
Qed.

Lemma clock_same e e' : context e' = context e -> clock e' = clock e.
Proof. unfold clock. intros ->. reflexivity. Qed.

Lemma sounding_later now now' v :
  now <= now' -> sounding now v -> sounding now' v.
Proof.
  intros Hle (t0 & a & d & s & H1 & H2 & H3 & H).
  exists t0, a, d, s. repeat split; try apply H; try assumption.
  eapply Qle_trans; eassumption.
Qed.

Lemma sounding_update_note patch t now v :
  sounding now v -> sounding now (update_note patch t v).
Proof.
  intros (t0 & a & d & s & H1 & H2 & H3 & H4 & H5 & H6 & H7).
  exists t0, a, d, s. unfold update_note. simpl.
  repeat split; try assumption; case_decide; assumption.
Qed.

Lemma release_note_winding_down t rel now v :
  sounding now v ->
  winding_down (mkTimeout (DisconnectNote (release_note t rel v))
                  ((rel + 0.2) * 1000)).
Proof.
  intros _. unfold winding_down. simpl.
  exists t, rel, (AudioParam.value (GainNode.gain (Voice.amp v))).
  eexists. split; [unfold envelope; simpl; rewrite <- app_assoc;
                   reflexivity|].
  split; [apply (cancelScheduledValues_before t
                   (GainNode.gain (Voice.amp v)))|].
  repeat split.
Qed.

Lemma lifecycle_triggerRelease id patch e :
  lifecycle e -> lifecycle (triggerRelease id patch e).
Proof.
  intros [Hv Ht].
  destruct (context e) as [c|] eqn:Hc;
    [|unfold triggerRelease; rewrite Hc; split; assumption].
  destruct (activeNotes e !! id) as [note|] eqn:Hn;
    [|rewrite triggerRelease_absent; [split|]; assumption].
  rewrite (triggerRelease_present id patch e c note Hc Hn). cbv zeta.
  split.
  - intros k v Hk. simpl in Hk. apply lookup_delete_Some in Hk as [_ Hk].
    unfold clock. simpl. apply (Hv k v Hk).
  - simpl. apply Forall_app. split; [assumption|].
    constructor; [|constructor].
    eapply release_note_winding_down. apply (Hv id note Hn).
Qed.

Lemma lifecycle_resume e : lifecycle e -> lifecycle (resume e).
Proof.
  intros [Hv Ht]. split.
  - rewrite resume_activeNotes.
    assert (Hclock : clock (resume e) = clock e).
    { unfold clock, resume. destruct (context e) eqn:Hc;
        [|rewrite Hc; reflexivity].
      case_decide; simpl; rewrite ?Hc; reflexivity. }
    rewrite Hclock. assumption.
  - rewrite resume_timeouts. assumption.
Qed.

Lemma create_voice_sounding frequency patch c m :
  sounding (AudioContext.currentTime c)
    (fst (create_voice frequency patch c m)).
Proof.
  exists (AudioContext.currentTime c), (SynthPatch.ampAttack patch),
    (SynthPatch.ampDecay patch),
    (Math_max 0.001 (SynthPatch.ampSustain patch)).
  pose proof (create_voice_envelope frequency patch c m) as Henv.
  unfold envelope. rewrite Henv. clear Henv.
  unfold create_voice. simpl.
  destruct (SynthPatch.lfoTarget patch); simpl;
    (repeat split; try apply Qle_refl; apply Q.le_max_l).
Qed.

Lemma lifecycle_triggerAttack id frequency patch e :
  graph_built e -> lifecycle e ->
  lifecycle (triggerAttack id frequency patch e).
Proof.
  intros Hb Hl.
  destruct (triggerAttack_built id frequency patch e Hb)
    as (c & m & Hc & Hm & ->).
  cbv zeta.
  apply lifecycle_resume, (lifecycle_triggerRelease id None) in Hl.
  set (e1 := triggerRelease id None (resume e)) in *.
  pose proof (create_voice_sounding frequency patch c m) as Hs.
  pose proof (create_voice_context frequency patch c m) as (_ & Ht & _).
  destruct (create_voice frequency patch c m) as [note c'].
  cbn [fst snd] in Hs, Ht.
  destruct Hl as [Hv Hp]. unfold clock in Hv. rewrite Hc in Hv.
  split.
  - intros k v Hk. unfold clock. cbn [context activeNotes] in Hk |- *.
    rewrite Ht.
    apply lookup_insert_Some in Hk as [[_ <-]|[_ Hk]];
      [assumption|apply (Hv k v Hk)].
  - exact Hp.
Qed.

Lemma lifecycle_perform ev e :
  admissible ev -> graph_built e -> lifecycle e -> lifecycle (perform ev e).
Proof.
  intros Hadm Hb Hl. destruct ev; simpl.
  - rewrite init_idle; [assumption|apply Hb].
  - apply lifecycle_resume; assumption.
  - destruct Hl as [Hv Ht]. split.
    + rewrite setMasterVolume_activeNotes.
      assert (Hclock : clock (setMasterVolume val e) = clock e).
      { unfold setMasterVolume. destruct (masterGain e); [|reflexivity].
        destruct (context e) eqn:Hc; [|reflexivity].
        unfold clock. simpl. rewrite Hc. reflexivity. }
      rewrite Hclock. assumption.
    + unfold setMasterVolume. destruct (masterGain e); [|assumption].
      destruct (context e); assumption.
  - destruct Hl as [Hv Ht].
    destruct (updateActiveParams_frame patch e) as (Hc & _ & Htm).
    destruct Hb as ([c Hce] & _).
    split; [|rewrite Htm; assumption].
    intros k v Hk. rewrite (clock_same _ _ Hc).
    rewrite (updateActiveParams_activeNotes patch e c Hce), lookup_fmap
      in Hk.
    destruct (activeNotes e !! k) as [v0|] eqn:Hv0; [|discriminate].
    injection Hk as <-. apply sounding_update_note. apply (Hv k v0 Hv0).
  - apply lifecycle_triggerAttack; assumption.
  - apply lifecycle_triggerRelease; assumption.
  - destruct Hl as [Hv Ht]. destruct Hb as ([c Hce] & _).
    unfold tick. rewrite Hce. split; [|assumption].
    intros k v Hk. simpl in Hk.
    eapply sounding_later; [|apply (Hv k v Hk)].
    unfold clock. simpl. rewrite Hce. simpl in Hadm. lra.
  - destruct Hl as [Hv Ht]. unfold fire_timeout.
    destruct (timeouts e !! i); [|split; assumption].
    destruct (context e) as [c|] eqn:Hc; [|split; assumption].
    split.
    + intros k v Hk. simpl in Hk.
      assert (Hclock : clock (mkEngine (Some (run_handler (handler t) c))
                (masterGain e) (distortionNode e) (delayNode e)
                (delayFeedbackNode e) (delayWetNode e) (reverbNode e)
                (reverbWetNode e) (reverbDryNode e) (analyser e)
                (activeNotes e) (delete i (timeouts e))) = clock e).
      { unfold clock. cbn [context]. rewrite Hc. destruct (handler t).
        reflexivity. }
      rewrite Hclock. apply (Hv k v Hk).
    + simpl. apply Forall_delete. assumption.
  - destruct Hl as [Hv Ht]. split; [|assumption].
    intros k v' Hk. simpl in Hk.
    change (clock (render_amp id v e)) with (clock e).
    apply lookup_alter_Some in Hk as [(_ & v0 & Hv0 & ->) | [_ Hk]].
    + destruct (Hv k v0 Hv0) as (t0 & a & d & s & H).
      exists t0, a, d, s. exact H.
    + apply (Hv k v' Hk).
Qed.

Lemma reachable_lifecycle e : reachable e -> lifecycle e.
Proof.
  induction 1 as [|ev e Hadm Hr IH].
  - split; [intros k v Hk; simpl in Hk; rewrite lookup_empty in Hk;
            discriminate|].
    constructor.
  - destruct (reachable_new_or_built e Hr) as [-> | Hb].
    + destruct (perform_new ev) as [-> | [h ->]].
      * assumption.
      * cbn [perform]. split.
        -- intros k v Hk. rewrite init_activeNotes in Hk. simpl in Hk.
           rewrite lookup_empty in Hk. discriminate.
        -- rewrite init_timeouts. constructor.
    + apply lifecycle_perform; assumption.
Qed.

(** X7. Every voice in the registry is sounding.  After any run of
    events from a new engine in which the clock never runs backwards and
    the envelope times of every attack and release are not negative, both
    oscillators of a registered voice were started at a time that is not in
    the future, neither has a stop scheduled, and its amplitude gain
    carries exactly the three events of its attack (start at 0, ramp to 1,
    exponential ramp to a sustain level of at least 0.001). *)
Theorem registered_voice_is_sounding (evs : list Event) (id : string)
    (v : Voice.t) :
  Forall admissible evs -> Forall in_range evs ->
  let e := perform_all evs new_AudioEngine in
  activeNotes e !! id = Some v -> sounding (clock e) v.
Proof.
  intros Hadm _ e Hv.
  assert (Hr : reachable e)
    by (apply reachable_perform_all; [exact Hadm | apply reachable_new]).
  apply (proj1 (reachable_lifecycle e Hr) id v Hv).
Qed.

Lemma registered_voice_is_sounding_witness :
  let evs :=
    [Call_init demo_host;
     Call_triggerAttack "60" 261.63 DEFAULT_PATCH;
     Env_tick 0.25;
     Call_triggerAttack "64" 329.63 wobble] in
  Forall admissible evs /\ Forall in_range evs
  /\ exists v,
       activeNotes (perform_all evs new_AudioEngine) !! "60" = Some v
       /\ sounding (clock (perform_all evs new_AudioEngine)) v.
Proof.
  intros evs.
  assert (Hadm : Forall admissible evs).
  { unfold evs. repeat constructor. discriminate. }
  assert (Hin : Forall in_range evs).
  { unfold evs. repeat constructor; discriminate. }
  split; [exact Hadm|]. split; [exact Hin|].
  assert (H : exists v,
            activeNotes (perform_all evs new_AudioEngine) !! "60" = Some v)
    by (eexists; vm_compute; reflexivity).
  destruct H as [v Hv]. exists v. split; [exact Hv|].
  apply (registered_voice_is_sounding evs "60" v Hadm Hin Hv).
Defined.

(** X8. Every pending timeout belongs to a released voice: its envelope
    ends with the re-anchor at the release time [t] and the ramp to 0.001
    at [t + releaseTime], everything kept before them lies before [t],
    both oscillators stop at [t + releaseTime + 0.1], and the timeout's
    delay is [(releaseTime + 0.2) * 1000] ms, so the disconnect is due
    0.1 s after the stop. *)
Theorem pending_timeout_is_winding_down (e : AudioEngine) (i : nat)
    (tm : Timeout) :
  reachable e -> timeouts e !! i = Some tm -> winding_down tm.
Proof.
  intros Hr Htm.
  destruct (reachable_lifecycle e Hr) as [_ Hp].
  rewrite Forall_lookup in Hp. apply (Hp i tm Htm).
Qed.

Lemma pending_timeout_is_winding_down_witness :
  exists tm, timeouts released !! 0%nat = Some tm /\ winding_down tm.
Proof.
  assert (H : exists tm, timeouts released !! 0%nat = Some tm)
    by (eexists; vm_compute; reflexivity).
  destruct H as [tm Htm]. exists tm. split; [exact Htm|].
  apply (pending_timeout_is_winding_down released 0 tm); [|exact Htm].
  unfold released. apply reachable_triggerRelease.
  unfold chord, held. do 2 apply reachable_triggerAttack.
  apply (reachable_step (Call_init demo_host) new_AudioEngine I).
  apply reachable_new.
Defined.

Lemma create_voice_edges frequency patch c m :
  AudioContext.connections (snd (create_voice frequency patch c m))
  = AudioContext.connections c
    ++ voice_edges patch (fst (create_voice frequency patch c m))
         (GainNode.id m).
Proof.
  unfold create_voice, voice_edges, lfo_destination. simpl.
  destruct (SynthPatch.lfoTarget patch); simpl;
    rewrite <- !app_assoc; reflexivity.
Qed.

Lemma create_voice_lfo_depth_id frequency patch c m :
  GainNode.id (Voice.lfoGain (fst (create_voice frequency patch c m)))
  = S (S (S (S (AudioContext.nextNodeId c)))).
Proof.
  pose proof (create_voice_ids frequency patch c m) as H.
  unfold voice_ids in H. simpl in H. congruence.
Qed.

(** X9. The routing of a voice's LFO is fixed at its attack.  The attack
    adds to the graph exactly the connections of the new voice; its depth
    gain feeds the parameter the attack's patch selected (none for target
    [none]).  A later [updateActiveParams] with any patch leaves the graph
    as it is, and steers the depth gain to the depth scaled for the new
    patch's target, whatever the gain is wired to.  The attack and the
    decay of the attack's patch are not negative. *)
Theorem lfo_routing_is_fixed (e : AudioEngine) (id : string) (frequency : Q)
    (patch patch' : SynthPatch.t) :
  reachable e -> is_Some (context e) -> attack_in_range patch ->
  let e1 := triggerAttack id frequency patch e in
  let e2 := updateActiveParams patch' e1 in
  exists note1 note2,
    activeNotes e1 !! id = Some note1
    /\ activeNotes e2 !! id = Some note2
    /\ voice_ids note2 = voice_ids note1
    /\ graph e1 = graph e ++ voice_edges patch note1 1%nat
    /\ graph e2 = graph e1
    /\ (forall d, In (GainNode.id (Voice.lfoGain note1), d) (graph e2)
                  <-> lfo_destination patch note1 = Some d)
    /\ target (GainNode.gain (Voice.lfoGain note2))
       = Some (lfo_update_depth patch').
Proof.
  intros Hr Hi _ e1 e2.
  pose proof (reachable_initialized e Hr Hi) as Hb.
  destruct (reachable_sound e Hr Hi) as (_ & Hmid & _ & He & _).
  destruct (triggerAttack_built id frequency patch e Hb)
    as (c & m & Hc & Hm & Heq).
  assert (Hg0 : AudioContext.connections c = graph e
                /\ AudioContext.nextNodeId c = node_count e).
  { destruct (triggerRelease_graph id None (resume e)) as [Hg Hn].
    destruct (resume_graph e) as [Hg' Hn'].
    unfold graph, node_count in Hg, Hn. rewrite Hc in Hg, Hn.
    rewrite Hg, Hn. auto. }
  destruct Hg0 as [Hg0 Hn0].
  rewrite Hm in Hmid. simpl in Hmid.
  assert (Hone : GainNode.id m = 1%nat) by congruence.
  pose proof (create_voice_edges frequency patch c m) as Hedges.
  pose proof (create_voice_ids frequency patch c m) as Hids.
  unfold e2, e1. rewrite Heq. cbv zeta.
  destruct (create_voice frequency patch c m) as [note c'].
  cbn [fst snd] in Hedges, Hids.
  set (e1' := mkEngine (Some c') _ _ _ _ _ _ _ _ _ _ _).
  assert (Hl1 : activeNotes e1' !! id = Some note)
    by (unfold e1'; simpl; apply lookup_insert_eq).
  assert (Hg1 : graph e1' = graph e ++ voice_edges patch note 1%nat)
    by (unfold e1', graph; cbn [context]; rewrite Hedges, Hg0, Hone;
        reflexivity).
  destruct (updateActiveParams_frame patch' e1') as (Hctx & _ & _).
  assert (Hg2 : graph (updateActiveParams patch' e1') = graph e1')
    by (unfold graph; rewrite Hctx; reflexivity).
  exists note, (update_note patch' (AudioContext.currentTime c') note).
  split; [assumption|].
  split.
  { rewrite (updateActiveParams_activeNotes patch' e1' c' eq_refl),
      lookup_fmap, Hl1. reflexivity. }
  split; [apply update_note_ids|].
  split; [assumption|]. split; [assumption|].
  split.
  - intros d. rewrite Hg2, Hg1, in_app_iff.
    unfold voice_ids in Hids. injection Hids as Ho Hf Ha Hl Hlg.
    split.
    + intros [Hin|Hin].
      * apply He in Hin. rewrite <- Hn0, Hlg in Hin. lia.
      * unfold voice_edges in Hin. rewrite Ho, Hf, Ha, Hl, Hlg in Hin.
        simpl in Hin. destruct Hin as [Hin|Hin]; [injection Hin; lia|].
        apply in_app_or in Hin as [Hin|Hin].
        -- destruct (lfo_destination patch note) as [d0|]; [|destruct Hin].
           destruct Hin as [Hin|[]]. congruence.
        -- simpl in Hin.
           repeat (destruct Hin as [Hin|Hin]; [injection Hin; lia|]).
           destruct Hin.
    + intros Hd. right. unfold voice_edges. rewrite Hd. simpl. auto.
  - unfold update_note, lfo_update_depth. simpl. apply target_scheduled.
Qed.

Lemma lfo_routing_is_fixed_witness :
  attack_in_range wobble
  /\ exists note1 note2,
       activeNotes (triggerAttack "60" 261.63 wobble started) !! "60"
       = Some note1
       /\ activeNotes
            (updateActiveParams DEFAULT_PATCH
               (triggerAttack "60" 261.63 wobble started)) !! "60"
          = Some note2
       /\ graph (triggerAttack "60" 261.63 wobble started)
          = graph started ++ voice_edges wobble note1 1%nat
       /\ graph (updateActiveParams DEFAULT_PATCH
                   (triggerAttack "60" 261.63 wobble started))
          = graph (triggerAttack "60" 261.63 wobble started).
Proof.
  split; [exact wobble_attack|].
  destruct (lfo_routing_is_fixed started "60" 261.63 wobble DEFAULT_PATCH)
    as (note1 & note2 & H1 & H2 & _ & Hg1 & Hg & _).
  - apply (reachable_step (Call_init demo_host) new_AudioEngine I).
    apply reachable_new.
  - eexists. reflexivity.
  - exact wobble_attack.
  - exists note1, note2. split; [exact H1|]. split; [exact H2|].
    split; [exact Hg1 | exact Hg].
Defined.

(** ** The remaining methods *)

(** X10. [init] is idempotent: a second call, with whatever host, returns
    the engine the first call built, whatever the engine was before. *)
Theorem init_is_idempotent (h1 h2 : Host) (e : AudioEngine) :
  init h2 (init h1 e) = init h1 e.
Proof.
  apply init_idle.
  destruct (context e) as [c|] eqn:Hc.
  - rewrite init_idle; eexists; eassumption.
  - apply (init_built h1 e Hc).
Qed.

(** X11. On a started engine [setMasterVolume] schedules the master gain
    towards [val] at the current time with time constant 0.01, and touches
    nothing else: same master node, same context, voices, timeouts and
    effect nodes. *)
Theorem master_volume_is_scheduled (e : AudioEngine) (val : Q) :
  reachable e -> is_Some (context e) ->
  let e' := setMasterVolume val e in
  exists ctx master master',
    context e = Some ctx
    /\ masterGain e = Some master
    /\ masterGain e' = Some master'
    /\ GainNode.id master' = GainNode.id master
    /\ AudioParam.value (GainNode.gain master')
       = AudioParam.value (GainNode.gain master)
    /\ AudioParam.events (GainNode.gain master')
       = AudioParam.events (GainNode.gain master)
         ++ [SetTargetAtTime val (AudioContext.currentTime ctx) 0.01]
    /\ target (GainNode.gain master') = Some val
    /\ e' = mkEngine (context e) (Some master') (distortionNode e)
              (delayNode e) (delayFeedbackNode e) (delayWetNode e)
              (reverbNode e) (reverbWetNode e) (reverbDryNode e)
              (analyser e) (activeNotes e) (timeouts e).
Proof.
  intros Hr Hi e'.
  pose proof (reachable_initialized e Hr Hi) as Hb.
  unfold e'. clear e' Hr Hi. open_built e Hb.
  unfold setMasterVolume. simpl.
  do 3 eexists. repeat (split; [reflexivity|]).
  split; [apply target_scheduled|reflexivity].
Qed.

Lemma master_volume_is_scheduled_witness :
  exists master',
    masterGain (setMasterVolume 0.8 started) = Some master'
    /\ target (GainNode.gain master') = Some 0.8.
Proof.
  destruct (master_volume_is_scheduled started 0.8)
    as (ctx & master & master' & _ & _ & H1 & _ & _ & _ & H2 & _).
  - apply (reachable_step (Call_init demo_host) new_AudioEngine I).
    apply reachable_new.
  - eexists. reflexivity.
  - exists master'. split; [exact H1|exact H2].
Defined.

(** X12. On a started engine [updateActiveParams] gives the shaper the
    curve of the patch's [distortionAmount] (44100 samples) with 4x
    oversampling, steers the delay time to [delayTime] and the feedback
    gain to [delayFeedback], and switches the delay's wet gain: towards 0.5
    when [delayTime] is positive, towards 0 otherwise. *)
Theorem update_reaches_effects (e : AudioEngine) (patch : SynthPatch.t) :
  reachable e -> is_Some (context e) ->
  let e' := updateActiveParams patch e in
  exists shaper delay feedback wet,
    distortionNode e' = Some shaper
    /\ delayNode e' = Some delay
    /\ delayFeedbackNode e' = Some feedback
    /\ delayWetNode e' = Some wet
    /\ WaveShaperNode.curve shaper
       = Some (makeDistortionCurve (SynthPatch.distortionAmount patch))
    /\ length (makeDistortionCurve (SynthPatch.distortionAmount patch))
       = Z.to_nat 44100
    /\ WaveShaperNode.oversample shaper = oversample_4x
    /\ target (DelayNode.delayTime delay) = Some (SynthPatch.delayTime patch)
    /\ target (GainNode.gain feedback)
       = Some (SynthPatch.delayFeedback patch)
    /\ (0 < SynthPatch.delayTime patch ->
        target (GainNode.gain wet) = Some 0.5)
    /\ (SynthPatch.delayTime patch <= 0 ->
        target (GainNode.gain wet) = Some 0).
Proof.
  intros Hr Hi e'.
  pose proof (reachable_initialized e Hr Hi) as Hb.
  unfold e'. clear e' Hr Hi. open_built e Hb.
  unfold updateActiveParams. simpl.
  do 4 eexists. repeat (split; [reflexivity|]).
  split; [apply makeDistortionCurve_length|].
  split; [reflexivity|].
  split; [apply target_scheduled|]. split; [apply target_scheduled|].
  split; intros Hd; simpl; rewrite target_scheduled;
    destruct (Qlt_le_dec 0 (SynthPatch.delayTime patch));
    try reflexivity; lra.
Qed.

Lemma update_reaches_effects_witness :
  exists wet,
    delayWetNode (updateActiveParams DEFAULT_PATCH started) = Some wet
    /\ target (GainNode.gain wet) = Some 0.5.
Proof.
  destruct (update_reaches_effects started DEFAULT_PATCH)
    as (shaper & delay & feedback & wet & _ & _ & _ & Hw & _ & _ & _ & _
        & _ & Hpos & _).
  - apply (reachable_step (Call_init demo_host) new_AudioEngine I).
    apply reachable_new.
  - eexists. reflexivity.
  - exists wet. split; [exact Hw|]. apply Hpos. reflexivity.
Defined.

(** X13. [updateActiveParams] reaches every live voice: after the call
    each registered voice has its filter steered to the patch's cutoff and
    resonance, its LFO set to the patch's waveform and steered to its rate,
    and its depth gain steered to the depth scaled for the patch's target;
    its oscillator and its amplitude gain are as before. *)
Theorem update_reaches_every_voice (e : AudioEngine) (patch : SynthPatch.t)
    (id : string) (note : Voice.t) :
  is_Some (context e) -> activeNotes e !! id = Some note ->
  exists note',
    activeNotes (updateActiveParams patch e) !! id = Some note'
    /\ target (BiquadFilterNode.frequency (Voice.filter note'))
       = Some (SynthPatch.filterCutoff patch)
    /\ target (BiquadFilterNode.Q (Voice.filter note'))
       = Some (SynthPatch.filterResonance patch)
    /\ OscillatorNode.type (Voice.lfo note') = SynthPatch.lfoWaveform patch
    /\ target (OscillatorNode.frequency (Voice.lfo note'))
       = Some (SynthPatch.lfoRate patch)
    /\ target (GainNode.gain (Voice.lfoGain note'))
       = Some (lfo_update_depth patch)
    /\ Voice.osc note' = Voice.osc note
    /\ Voice.amp note' = Voice.amp note.
Proof.
  intros [c Hc] Hn.
  exists (update_note patch (AudioContext.currentTime c) note).
  split.
  { rewrite (updateActiveParams_activeNotes patch e c Hc), lookup_fmap, Hn.
    reflexivity. }
  unfold update_note. simpl.
  split; [apply target_scheduled|]. split; [apply target_scheduled|].
  split; [case_decide; simpl; congruence|].
  split; [case_decide; apply target_scheduled|].
  split; [apply target_scheduled|]. split; reflexivity.
Qed.

Lemma update_reaches_every_voice_witness :
  exists note',
    activeNotes (updateActiveParams DEFAULT_PATCH held) !! "60" = Some note'
    /\ target (BiquadFilterNode.frequency (Voice.filter note')) = Some 2000.
Proof.
  edestruct update_reaches_every_voice
    with (e := held) (patch := DEFAULT_PATCH) (id := "60"%string)
    as (note' & H1 & H2 & _).
  - eexists. vm_compute. reflexivity.
  - vm_compute. reflexivity.
  - exists note'. split; [exact H1|exact H2].
Defined.

Lemma analyser_perform ev e :
  graph_built e -> analyser (perform ev e) = analyser e.
Proof.
  intros Hb. destruct ev; simpl.
  - rewrite init_idle; [reflexivity|apply Hb].
  - unfold resume. destruct (context e); [|reflexivity].
    case_decide; reflexivity.
  - unfold setMasterVolume. destruct (masterGain e); [|reflexivity].
    destruct (context e); reflexivity.
  - open_built e Hb. unfold updateActiveParams. simpl. reflexivity.
  - destruct (triggerAttack_built id frequency patch e Hb)
      as (c & m & Hc & Hm & ->).
    cbv zeta. destruct (create_voice frequency patch c m) as [note c'].
    open_built e Hb. unfold triggerRelease, resume. simpl.
    case_decide; simpl; destruct (notes !! id); reflexivity.
  - unfold triggerRelease. destruct (context e); [|reflexivity].
    destruct (activeNotes e !! id); reflexivity.
  - unfold tick. destruct (context e); reflexivity.
  - unfold fire_timeout. destruct (timeouts e !! i); [|reflexivity].
    destruct (context e); reflexivity.
  - reflexivity.
Qed.

(** X14. Once the engine is started [getAnalyser] returns the same
    analyser for good: node 9 with an FFT size of 2048.  No call and no
    step of the environment replaces it or changes its size. *)
Theorem analyser_is_stable (e : AudioEngine) :
  reachable e -> is_Some (context e) ->
  getAnalyser e = Some (AnalyserNode.mk 9%nat 2048%Z).
Proof.
  unfold getAnalyser.
  induction 1 as [|ev e Hadm Hr IH]; intros Hi.
  - destruct Hi as [c Hc]. discriminate.
  - destruct (reachable_new_or_built e Hr) as [-> | Hb].
    + destruct (perform_new ev) as [Hp | [h ->]].
      * rewrite Hp in Hi. destruct Hi as [c Hc]. discriminate.
      * reflexivity.
    + rewrite (analyser_perform ev e Hb). apply IH, Hb.
Qed.

Lemma analyser_is_stable_witness :
  getAnalyser released = Some (AnalyserNode.mk 9%nat 2048%Z).
Proof.
  apply (analyser_is_stable released).
  - unfold released. apply reachable_triggerRelease.
    unfold chord, held. do 2 apply reachable_triggerAttack.
    apply (reachable_step (Call_init demo_host) new_AudioEngine I).
    apply reachable_new.
  - eexists. vm_compute. reflexivity.
Defined.

(** ** More on the distortion curve *)

Lemma sample_x_linear i : sample_x i == inject_Z i * (1 # 22050) - 1.
Proof. unfold sample_x, n_samples. field. Qed.

Lemma sample_x_range i :
  (0 <= i < n_samples)%Z -> -1 <= sample_x i /\ sample_x i < 1.
Proof.
  intros [Hlo Hhi]. unfold n_samples in *. rewrite sample_x_linear.
  assert (H0 : 0 <= inject_Z i)
    by (change 0 with (inject_Z 0); rewrite <- Zle_Qle; assumption).
  assert (H1 : inject_Z i < inject_Z 44100) by (rewrite <- Zlt_Qlt; assumption).
  change (inject_Z 44100) with 44100 in *.
  split; lra.
Qed.

Lemma sample_x_increasing i j : (i < j)%Z -> sample_x i < sample_x j.
Proof.
  intros Hij. rewrite !sample_x_linear.
  assert (H1 : inject_Z i < inject_Z j) by (rewrite <- Zlt_Qlt; assumption).
  lra.
Qed.

Lemma shaper_ratio k x p :
  0 < k -> -1 <= x -> x < 1 -> 3 < p ->
  -1 < (3 + k) * x / (p + k * Qabs x)
  /\ (3 + k) * x / (p + k * Qabs x) < 1.
Proof.
  intros Hk Hlo Hhi Hp.
  destruct (Qlt_le_dec x 0) as [Hneg|Hpos].
  - rewrite (Qabs_neg x) by lra.
    assert (Hd : 0 < p + k * - x) by nra.
    split.
    + apply Qlt_shift_div_l; [assumption|]. nra.
    + apply Qlt_shift_div_r; [assumption|]. nra.
  - rewrite (Qabs_pos x) by lra.
    assert (Hd : 0 < p + k * x) by nra.
    split.
    + apply Qlt_shift_div_l; [assumption|]. nra.
    + apply Qlt_shift_div_r; [assumption|]. nra.
Qed.

(** The shaping function of [makeDistortionCurve] stays strictly between
    [-π/9] and [π/9] on inputs of [-1, 1). *)
Lemma shaper_bounds k x :
  0 < k -> -1 <= x -> x < 1 ->
  let y := (3 + k) * x * 20 * (Math_PI / 180)
           / (Math_PI + k * Math_abs x) in
  - (Math_PI / 9) < y /\ y < Math_PI / 9.
Proof.
  intros Hk Hlo Hhi y.
  assert (Hd : 0 < Math_PI + k * Math_abs x)
    by (apply shaper_denominator; lra).
  assert (Hpi : 3 < Math_PI) by reflexivity.
  destruct (shaper_ratio k x Math_PI Hk Hlo Hhi Hpi) as [H1 H2].
  assert (Ey : y == Math_PI * (1 # 9)
                    * ((3 + k) * x / (Math_PI + k * Qabs x))).
  { unfold y, Math_abs in *. field. lra. }
  assert (E9 : Math_PI / 9 == Math_PI * (1 # 9)) by field.
  rewrite Ey, E9.
  set (r := (3 + k) * x / (Math_PI + k * Qabs x)) in *.
  clearbody r. clear Ey E9 Hd y.
  generalize dependent Math_PI. intros p Hpi. split; nra.
Qed.

Lemma Qdiv_lt_cross a b c d :
  0 < b -> 0 < d -> a * d < c * b -> a / b < c / d.
Proof.
  intros Hb Hd H.
  apply Qlt_shift_div_r; [assumption|].
  assert (E : c / d * b == c * b / d) by (field; lra).
  rewrite E. apply Qlt_shift_div_l; assumption.
Qed.

Lemma shaper_increasing k p x1 x2 :
  0 < k -> 0 < p -> x1 < x2 ->
  x1 / (p + k * Qabs x1) < x2 / (p + k * Qabs x2).
Proof.
  intros Hk Hp Hlt.
  assert (H1 : 0 <= k * Qabs x1)
    by (apply Qmult_le_0_compat; [lra|apply Qabs_nonneg]).
  assert (H2 : 0 <= k * Qabs x2)
    by (apply Qmult_le_0_compat; [lra|apply Qabs_nonneg]).
  apply Qdiv_lt_cross; [lra|lra|]. clear H1 H2.
  assert (Hgap : 0 < p * (x2 - x1)) by (apply Qmult_lt_0_compat; lra).
  destruct (Qlt_le_dec x1 0) as [N1|P1]; destruct (Qlt_le_dec x2 0) as [N2|P2].
  - rewrite (Qabs_neg x1), (Qabs_neg x2) by lra. lra.
  - rewrite (Qabs_neg x1), (Qabs_pos x2) by lra.
    assert (0 <= k * (- x1 * x2)).
    { apply Qmult_le_0_compat; [lra|].
      apply Qmult_le_0_compat; lra. }
    lra.
  - lra.
  - rewrite (Qabs_pos x1), (Qabs_pos x2) by lra. lra.
Qed.

(** X15. Any positive amount of distortion attenuates: every sample of the
    curve is then strictly between [-π/9] and [π/9], below 0.35 in
    magnitude, however small the amount.  At amount 0 the curve is the
    identity, which reaches full scale: its first sample is -1. *)
Theorem distortion_attenuates (amount : Q) (i : Z) :
  (0 <= i < n_samples)%Z ->
  (0 < amount ->
   Qabs (curve_at amount i) < Math_PI / 9 /\ Math_PI / 9 < 0.35)
  /\ (amount == 0 ->
      Qabs (curve_at amount i) <= 1 /\ curve_at amount 0 == -1).
Proof.
  intros Hi. destruct (sample_x_range i Hi) as [Hlo Hhi]. split.
  - intros Ha. split; [|reflexivity].
    rewrite curve_at_shaped by (assumption || lra).
    apply Qabs_Qlt_condition.
    apply (shaper_bounds amount (sample_x i) Ha Hlo Hhi).
  - intros Ha. split.
    + rewrite curve_at_bypass by assumption.
      apply Qabs_Qle_condition. split; lra.
    + rewrite curve_at_bypass by (assumption || (unfold n_samples; lia)).
      reflexivity.
Qed.

Lemma distortion_attenuates_witness :
  Qabs (curve_at 100 0) < Math_PI / 9.
Proof.
  destruct (distortion_attenuates 100 0) as [H _].
  - unfold n_samples. lia.
  - apply H. reflexivity.
Defined.

(** X16. The distortion curve is strictly increasing along its samples,
    for every amount of the range the interface documents, 0 to 100: the
    shaper never folds the signal over. *)
Theorem distortion_curve_is_increasing (amount : Q) (i j : Z) :
  0 <= amount -> amount <= 100 ->
  (0 <= i)%Z -> (i < j)%Z -> (j < n_samples)%Z ->
  curve_at amount i < curve_at amount j.
Proof.
  intros Ha _ Hi Hij Hj.
  pose proof (sample_x_increasing i j Hij) as Hx.
  destruct (Qeq_dec amount 0) as [Hz|Hnz].
  - rewrite !curve_at_bypass by (assumption || lia). assumption.
  - rewrite !curve_at_shaped by (assumption || lia).
    assert (Hk : 0 < amount) by lra.
    assert (Hpi : 0 < Math_PI) by reflexivity.
    pose proof (shaper_increasing amount Math_PI (sample_x i) (sample_x j)
                  Hk Hpi Hx) as Hg.
    pose proof (shaper_denominator amount (sample_x i) Ha) as Hd1.
    pose proof (shaper_denominator amount (sample_x j) Ha) as Hd2.
    unfold Math_abs in *.
    set (gi := sample_x i / (Math_PI + amount * Qabs (sample_x i))) in *.
    set (gj := sample_x j / (Math_PI + amount * Qabs (sample_x j))) in *.
    assert (Ei : (3 + amount) * sample_x i * 20 * (Math_PI / 180)
                 / (Math_PI + amount * Qabs (sample_x i))
                 == (3 + amount) * (Math_PI * (1 # 9)) * gi)
      by (unfold gi; field; lra).
    assert (Ej : (3 + amount) * sample_x j * 20 * (Math_PI / 180)
                 / (Math_PI + amount * Qabs (sample_x j))
                 == (3 + amount) * (Math_PI * (1 # 9)) * gj)
      by (unfold gj; field; lra).
    rewrite Ei, Ej. clearbody gi gj. clear Ei Ej Hd1 Hd2.
    assert (Hc : 0 < (3 + amount) * (Math_PI * (1 # 9))).
    { apply Qmult_lt_0_compat; [lra|]. apply Qmult_lt_0_compat;
        [assumption|reflexivity]. }
    set (cst := (3 + amount) * (Math_PI * (1 # 9))) in *. clearbody cst.
    nra.
Qed.

Lemma distortion_curve_is_increasing_witness :
  curve_at 50 100 < curve_at 50 200.
Proof.
  apply (distortion_curve_is_increasing 50 100 200).
  - discriminate.
  - discriminate.
  - lia.
  - lia.
  - unfold n_samples. lia.
Defined.

(** ** The impulse response of the reverb *)

Lemma Qpower_positive_le_one b p :
  0 <= b -> b <= 1 -> Qpower_positive b p <= 1.
Proof.
  intros H0 H1. induction p as [|p IH] using Pos.peano_ind.
  - simpl. assumption.
  - rewrite <- Pos.add_1_r, Qpower_plus_positive. simpl.
    assert (Hp : 0 <= Qpower_positive b p)
      by (apply Qpower_pos_positive; assumption).
    set (y := Qpower_positive b p) in *. clearbody y. nra.
Qed.

Lemma Qpower_le_one b n :
  (0 <= n)%Z -> 0 <= b -> b <= 1 -> 0 <= b ^ n /\ b ^ n <= 1.
Proof.
  intros Hn H0 H1. split; [apply Qpower_0_le; assumption|].
  destruct n as [|p|p]; simpl.
  - discriminate.
  - apply Qpower_positive_le_one; assumption.
  - lia.
Qed.

Lemma noise_sample_bound r env :
  0 <= r -> r < 1 -> 0 <= env -> Qabs ((r * 2 - 1) * env) <= env.
Proof.
  intros Hr0 Hr1 He. rewrite Qabs_Qmult, (Qabs_pos env) by assumption.
  assert (Ha : Qabs (r * 2 - 1) <= 1)
    by (apply Qabs_Qle_condition; split; lra).
  assert (Hn : 0 <= Qabs (r * 2 - 1)) by apply Qabs_nonneg.
  set (a := Qabs (r * 2 - 1)) in *. clearbody a. nra.
Qed.

(** X17. The impulse response [init] gives the convolver is a decaying
    noise burst.  It has two channels of [floor(sampleRate * duration)]
    samples; with [Math.random] in [0, 1) and an integral decay exponent,
    sample [i] of either channel is at most [(1 - i/length)^decay] in
    magnitude, an envelope between 0 and 1. *)
Theorem impulse_response_decays (h : Host) (c : AudioContext.t)
    (duration decay : Q) (n i : Z) :
  0 < AudioContext.sampleRate c * duration ->
  (0 <= n)%Z -> decay == inject_Z n ->
  (forall k, 0 <= Math_random h k /\ Math_random h k < 1) ->
  (0 <= i < Qfloor (AudioContext.sampleRate c * duration))%Z ->
  let length := AudioContext.sampleRate c * duration in
  let env := (1 - inject_Z i / length) ^ n in
  exists left right,
    AudioBuffer.channels (createImpulseResponse h c duration decay)
    = [left; right]
    /\ List.length left = Z.to_nat (Qfloor length)
    /\ List.length right = Z.to_nat (Qfloor length)
    /\ 0 <= env /\ env <= 1
    /\ Qabs (nth (Z.to_nat i) left 0) <= env
    /\ Qabs (nth (Z.to_nat i) right 0) <= env.
Proof.
  intros Hlen Hn Hdecay Hrand Hi length env.
  fold length in Hlen, Hi.
  unfold createImpulseResponse. fold length. cbn [AudioBuffer.channels].
  do 2 eexists. split; [reflexivity|].
  split; [apply for_loop_length|]. split; [apply for_loop_length|].
  assert (Hfl : inject_Z (Qfloor length) <= length) by apply Qfloor_le.
  assert (Hi0 : 0 <= inject_Z i)
    by (change 0 with (inject_Z 0); rewrite <- Zle_Qle; lia).
  assert (Hi1 : inject_Z i < length).
  { eapply Qlt_le_trans; [|exact Hfl]. rewrite <- Zlt_Qlt. lia. }
  assert (Hb : 0 <= 1 - inject_Z i / length /\ 1 - inject_Z i / length <= 1).
  { assert (0 <= inject_Z i / length)
      by (apply Qle_shift_div_l; [assumption|lra]).
    assert (inject_Z i / length <= 1)
      by (apply Qle_shift_div_r; [assumption|lra]).
    split; lra. }
  destruct (Qpower_le_one (1 - inject_Z i / length) n Hn (proj1 Hb)
              (proj2 Hb)) as [He0 He1].
  fold env in He0, He1.
  split; [assumption|]. split; [assumption|].
  rewrite !for_loop_nth by lia. cbv beta.
  replace (0 + Z.of_nat (Z.to_nat i))%Z with i by lia.
  unfold Math_pow. rewrite (Qfloor_comp _ _ Hdecay), Qfloor_Z. fold env.
  split; apply noise_sample_bound; try assumption; apply Hrand.
Qed.

Lemma impulse_response_decays_witness :
  exists left right,
    AudioBuffer.channels
      (createImpulseResponse demo_host (AudioContext.create demo_host) 2 2)
    = [left; right]
    /\ Qabs (nth 100 left 0) <= 1.
Proof.
  destruct (impulse_response_decays demo_host (AudioContext.create demo_host)
              2 2 2 100)
    as (left & right & Hc & _ & _ & _ & He & Hl & _).
  - reflexivity.
  - lia.
  - reflexivity.
  - intros k. split; [discriminate|reflexivity].
  - vm_compute. split; [discriminate|reflexivity].
  - exists left, right. split; [exact Hc|].
    eapply Qle_trans; [exact Hl|exact He].
Defined.


(** ** The knob *)

Lemma clamp_range min max x :
  min <= max ->
  min <= Math_max min (Math_min max x) /\ Math_max min (Math_min max x) <= max.
Proof.
  intros H. unfold Math_max, Math_min. split.
  - apply Q.le_max_l.
  - apply Q.max_lub; [assumption|apply Q.le_min_l].
Qed.

Lemma clamp_monotone min max x y :
  x <= y ->
  Math_max min (Math_min max x) <= Math_max min (Math_min max y).
Proof.
  intros H. unfold Math_max, Math_min.
  apply Q.max_le_compat_l, Q.min_le_compat_l. assumption.
Qed.

(** X18. A knob never emits a value outside its range.  While dragging,
    every mouse move hands [onChange] a value between [min] and [max];
    moving the mouse further up never lowers it; and a drag of 200 pixels
    upwards from a value in range reaches [max].  Without a drag in
    progress a mouse move emits nothing. *)
Theorem knob_drag_is_clamped (min max value y0 y : Q) (k : Knob.t) :
  min <= max ->
  let dragging := Knob.handleMouseDown value y0 k in
  Knob.handleMouseMove min max y (Knob.handleMouseUp dragging) = None
  /\ exists v,
       Knob.handleMouseMove min max y dragging = Some v
       /\ min <= v /\ v <= max
       /\ (forall y' v', y' <= y ->
             Knob.handleMouseMove min max y' dragging = Some v' -> v <= v')
       /\ (min <= value -> y <= y0 - 200 -> v == max).
Proof.
  intros Hr dragging. split; [reflexivity|].
  unfold dragging, Knob.handleMouseMove, Knob.handleMouseDown. simpl.
  eexists. split; [reflexivity|].
  destruct (clamp_range min max (value + (y0 - y) / 200 * (max - min)) Hr)
    as [Hlo Hhi].
  split; [assumption|]. split; [assumption|]. split.
  - intros y' v' Hy [= <-]. apply clamp_monotone.
    assert (E : value + (y0 - y') / 200 * (max - min)
                == value + (y0 - y) / 200 * (max - min)
                   + (y - y') * ((max - min) * (1 # 200))) by field.
    rewrite E.
    assert (0 <= (y - y') * ((max - min) * (1 # 200)))
      by (apply Qmult_le_0_compat; lra).
    lra.
  - intros Hv Hy. unfold Math_max, Math_min.
    assert (E : value + (y0 - y) / 200 * (max - min)
                == max + (value - min)
                   + (y0 - 200 - y) * ((max - min) * (1 # 200))) by field.
    assert (Hge : max <= value + (y0 - y) / 200 * (max - min)).
    { rewrite E.
      assert (0 <= (y0 - 200 - y) * ((max - min) * (1 # 200)))
        by (apply Qmult_le_0_compat; lra).
      lra. }
    rewrite (Q.min_l _ _ Hge). apply Q.max_r. assumption.
Qed.

Lemma knob_drag_is_clamped_witness :
  exists v,
    Knob.handleMouseMove 20 20000 0
      (Knob.handleMouseDown 2000 1000 Knob.initial) = Some v
    /\ v <= 20000.
Proof.
  destruct (knob_drag_is_clamped 20 20000 2000 1000 0 Knob.initial)
    as [_ (v & Hv & _ & Hhi & _)].
  - discriminate.
  - exists v. split; [exact Hv|exact Hhi].
Defined.

(** X19. The indicator of a knob stays within its sweep: for a value
    between [min] and [max] (with [min < max]) the angle is between -135
    and 135 degrees, -135 at [min], 135 at [max], and it grows with the
    value. *)
Theorem knob_angle_sweep (value min max : Q) :
  min < max -> min <= value -> value <= max ->
  -135 <= Knob.angle value min max /\ Knob.angle value min max <= 135
  /\ Knob.angle min min max == -135
  /\ Knob.angle max min max == 135
  /\ (forall value', value < value' ->
        Knob.angle value min max < Knob.angle value' min max).
Proof.
  intros Hr Hlo Hhi. unfold Knob.angle.
  assert (Hd : 0 < max - min) by lra.
  assert (Hp : forall x, (x - min) / (max - min) * 270
                         == (x - min) * (270 / (max - min)))
    by (intros x; field; lra).
  assert (Hc : 0 < 270 / (max - min))
    by (apply Qlt_shift_div_l; [assumption|lra]).
  assert (Hfull : (max - min) * (270 / (max - min)) == 270)
    by (field; lra).
  rewrite !Hp.
  set (c := 270 / (max - min)) in *. clearbody c.
  assert (H0 : 0 <= (value - min) * c)
    by (apply Qmult_le_0_compat; lra).
  assert (H1 : 0 <= (max - value) * c)
    by (apply Qmult_le_0_compat; lra).
  assert (E : (value - min) * c == 270 - (max - value) * c)
    by (rewrite <- Hfull; ring).
  assert (Emin : (min - min) * c == 0) by ring.
  repeat split.
  - lra.
  - rewrite E. lra.
  - rewrite Emin. reflexivity.
  - rewrite Hfull. reflexivity.
  - intros value' Hv. rewrite (Hp value), (Hp value').
    assert (Hg : 0 < (value' - value) * c)
      by (apply Qmult_lt_0_compat; lra).
    assert (E' : (value' - min) * c
                 == (value - min) * c + (value' - value) * c) by ring.
    rewrite E'. lra.
Qed.

Lemma knob_angle_sweep_witness : Knob.angle 2000 20 20000 <= 135.
Proof.
  apply (knob_angle_sweep 2000 20 20000); [reflexivity|discriminate..].
Defined.

(** ** The oscilloscope *)

Lemma for_samples_length (height sliceWidth : Q) (i : nat) (x : Q)
    (dataArray : list Z) :
  length (Oscilloscope.for_samples height sliceWidth i x dataArray)
  = length dataArray.
Proof.
  revert i x. induction dataArray as [|d rest IH]; intros i x; simpl;
    [reflexivity|].
  rewrite IH. reflexivity.
Qed.

Lemma for_samples_lookup (height sliceWidth : Q) (dataArray : list Z) :
  forall (i : nat) (x : Q) (k : nat) (d : Z),
    dataArray !! k = Some d ->
    exists op,
      Oscilloscope.for_samples height sliceWidth i x dataArray !! k = Some op
      /\ PathOp_x op == x + inject_Z (Z.of_nat k) * sliceWidth
      /\ PathOp_y op = (inject_Z d / 128 * height) / 2
      /\ (op = moveTo (PathOp_x op) (PathOp_y op) <-> (i + k = 0)%nat).
Proof.
  induction dataArray as [|d0 rest IH]; intros i x k d Hk.
  - rewrite lookup_nil in Hk. discriminate.
  - destruct k as [|k].
    + injection Hk as ->. simpl.
      destruct i as [|i]; simpl; eexists; (split; [reflexivity|]);
        simpl; (split; [ring|]); (split; [reflexivity|]);
        split; try reflexivity; try discriminate; lia.
    + simpl in Hk. destruct (IH (S i) (x + sliceWidth) k d Hk)
        as (op & Hop & Hx & Hy & Hm).
      exists op. simpl. split; [exact Hop|]. split.
      * rewrite Hx. rewrite Nat2Z.inj_succ. unfold Z.succ.
        rewrite inject_Z_plus. ring.
      * split; [exact Hy|]. rewrite Hm. lia.
Qed.

(** X28. The trace of the oscilloscope stays on the canvas.  With a buffer
    of bytes as long as the analyser's bin count, the path has one command
    for each sample and a last line to the middle of the right edge; the
    sample [i] is at the abscissa [i * width / length], left of the right
    edge, and at an ordinate within the height that is the middle line for
    the byte 128; only the first command is a [moveTo]. *)
Theorem trace_stays_on_canvas (width height : Q) (a : AnalyserNode.t)
    (dataArray : list Z) :
  0 < width -> 0 < height ->
  Z.of_nat (length dataArray) = Oscilloscope.frequencyBinCount a ->
  List.Forall (fun d => (0 <= d <= 255)%Z) dataArray ->
  let path := Oscilloscope.draw width height (Some a) dataArray in
  length path = S (length dataArray)
  /\ path !! length dataArray = Some (lineTo width (height / 2))
  /\ forall i d, dataArray !! i = Some d ->
       exists op,
         path !! i = Some op
         /\ PathOp_x op
            == inject_Z (Z.of_nat i) * width
               / inject_Z (Z.of_nat (length dataArray))
         /\ 0 <= PathOp_x op /\ PathOp_x op < width
         /\ 0 <= PathOp_y op /\ PathOp_y op < height
         /\ (d = 128%Z -> PathOp_y op == height / 2)
         /\ (op = moveTo (PathOp_x op) (PathOp_y op) <-> i = 0%nat).
Proof.
  intros Hw Hh Hlen Hbytes path. unfold path, Oscilloscope.draw.
  rewrite <- Hlen.
  set (n := inject_Z (Z.of_nat (length dataArray))).
  set (samples := Oscilloscope.for_samples height (width * 1 / n) 0 0
                    dataArray).
  assert (Hsl : length samples = length dataArray)
    by apply for_samples_length.
  split; [rewrite length_app, Hsl; simpl; lia|].
  split.
  { rewrite lookup_app_r by lia. rewrite Hsl, Nat.sub_diag. reflexivity. }
  intros i d Hi.
  destruct (for_samples_lookup height (width * 1 / n) dataArray 0 0 i d Hi)
    as (op & Hop & Hx & Hy & Hm).
  fold samples in Hop. exists op.
  assert (Hlt : (i < length dataArray)%nat) by (eapply lookup_lt_Some; eauto).
  split; [rewrite lookup_app_l by lia; exact Hop|].
  assert (Hn : 0 < n).
  { unfold n. change 0 with (inject_Z 0). rewrite <- Zlt_Qlt. lia. }
  assert (Hk0 : 0 <= inject_Z (Z.of_nat i)).
  { change 0 with (inject_Z 0). rewrite <- Zle_Qle. lia. }
  assert (Hkn : inject_Z (Z.of_nat i) < n).
  { unfold n. rewrite <- Zlt_Qlt. lia. }
  assert (Ex : PathOp_x op == inject_Z (Z.of_nat i) * width / n).
  { rewrite Hx. field. lra. }
  split; [exact Ex|].
  assert (Er : inject_Z (Z.of_nat i) * width / n
               == width * (inject_Z (Z.of_nat i) / n)) by (field; lra).
  assert (Hr0 : 0 <= inject_Z (Z.of_nat i) / n).
  { apply Qle_shift_div_l; [assumption|]. lra. }
  assert (Hr1 : inject_Z (Z.of_nat i) / n < 1).
  { apply Qlt_shift_div_r; [assumption|]. lra. }
  assert (Hp0 : 0 <= width * (inject_Z (Z.of_nat i) / n)).
  { apply Qmult_le_0_compat; lra. }
  assert (Hp1 : 0 < width * (1 - inject_Z (Z.of_nat i) / n)).
  { apply Qmult_lt_0_compat; lra. }
  split; [rewrite Ex, Er; exact Hp0|].
  split.
  { rewrite Ex, Er.
    assert (E1 : width * (1 - inject_Z (Z.of_nat i) / n)
                 == width - width * (inject_Z (Z.of_nat i) / n)) by ring.
    lra. }
  assert (Hd : (0 <= d <= 255)%Z).
  { rewrite List.Forall_forall in Hbytes. apply Hbytes.
    apply list_elem_of_In. eapply list_elem_of_lookup_2; eauto. }
  assert (Hd0 : 0 <= inject_Z d).
  { change 0 with (inject_Z 0). rewrite <- Zle_Qle. lia. }
  assert (Hd1 : inject_Z d <= 255).
  { change 255 with (inject_Z 255). rewrite <- Zle_Qle. lia. }
  assert (Ey : PathOp_y op == inject_Z d * (height * (1 # 256))).
  { rewrite Hy. field. }
  assert (Hq0 : 0 <= inject_Z d * (height * (1 # 256))).
  { apply Qmult_le_0_compat; lra. }
  assert (Hq1 : 0 <= (255 - inject_Z d) * (height * (1 # 256))).
  { apply Qmult_le_0_compat; lra. }
  split; [rewrite Ey; exact Hq0|].
  split.
  { rewrite Ey.
    assert (E2 : (255 - inject_Z d) * (height * (1 # 256))
                 == 255 * (height * (1 # 256))
                    - inject_Z d * (height * (1 # 256))) by ring.
    lra. }
  split.
  { intros ->. rewrite Hy. field. }
  rewrite Hm. lia.
Qed.

Lemma trace_stays_on_canvas_witness :
  let a := AnalyserNode.mk 9%nat 8%Z in
  let dataArray := [128; 255; 0; 64]%Z in
  0 < 800 /\ 0 < 200
  /\ Z.of_nat (length dataArray) = Oscilloscope.frequencyBinCount a
  /\ List.Forall (fun d => (0 <= d <= 255)%Z) dataArray
  /\ let path := Oscilloscope.draw 800 200 (Some a) dataArray in
     length path = S (length dataArray)
     /\ path !! length dataArray = Some (lineTo 800 (200 / 2))
     /\ forall i d, dataArray !! i = Some d ->
          exists op,
            path !! i = Some op
            /\ PathOp_x op
               == inject_Z (Z.of_nat i) * 800
                  / inject_Z (Z.of_nat (length dataArray))
            /\ 0 <= PathOp_x op /\ PathOp_x op < 800
            /\ 0 <= PathOp_y op /\ PathOp_y op < 200
            /\ (d = 128%Z -> PathOp_y op == 200 / 2)
            /\ (op = moveTo (PathOp_x op) (PathOp_y op) <-> i = 0%nat).
Proof.
  intros a dataArray.
  assert (Hw : 0 < 800) by reflexivity.
  assert (Hh : 0 < 200) by reflexivity.
  assert (Hlen : Z.of_nat (length dataArray)
                 = Oscilloscope.frequencyBinCount a) by reflexivity.
  assert (Hb : List.Forall (fun d => (0 <= d <= 255)%Z) dataArray).
  { unfold dataArray. repeat constructor; lia. }
  split; [exact Hw|]. split; [exact Hh|]. split; [exact Hlen|].
  split; [exact Hb|].
  apply (trace_stays_on_canvas 800 200 a dataArray Hw Hh Hlen Hb).
Defined.

(** ** The hardware bridge: the parameter queue *)

Lemma Map_set_keys {V : Type} (k : string) (v : V) (m : list (string * V)) :
  forall x, In x (List.map fst (Map_set k v m)) <->
            x = k \/ In x (List.map fst m).
Proof.
  induction m as [|[k' v'] rest IH]; intros x; simpl.
  - intuition.
  - destruct (String.eqb k' k) eqn:E; simpl.
    + apply String.eqb_eq in E. subst. intuition.
    + rewrite IH. intuition.
Qed.

Lemma Map_set_NoDup {V : Type} (k : string) (v : V) (m : list (string * V)) :
  List.NoDup (List.map fst m) -> List.NoDup (List.map fst (Map_set k v m)).
Proof.
  induction m as [|[k' v'] rest IH]; simpl; intros H.
  - constructor; [simpl; tauto | constructor].
  - inversion H as [|? ? Hn Hr]; subst.
    destruct (String.eqb k' k) eqn:E; simpl.
    + constructor; assumption.
    + constructor; [| auto].
      rewrite Map_set_keys. intros [->|Hin]; [| tauto].
      rewrite String.eqb_refl in E. discriminate.
Qed.

Lemma Map_set_fresh {V : Type} (k : string) (v : V) (m : list (string * V)) :
  ~ In k (List.map fst m) -> Map_set k v m = m ++ [(k, v)].
Proof.
  induction m as [|[k' v'] rest IH]; simpl; intros H; [reflexivity|].
  destruct (String.eqb k' k) eqn:E.
  - apply String.eqb_eq in E. tauto.
  - rewrite IH; tauto.
Qed.

Lemma Map_set_nonempty {V : Type} (k : string) (v : V)
    (m : list (string * V)) : Map_set k v m <> [].
Proof. destruct m as [|[k' v'] rest]; simpl; [|destruct (String.eqb k' k)]; discriminate. Qed.

(** The entries of [m] under the key [k]. *)
Lemma Map_set_same {V : Type} (k : string) (v : V) (m : list (string * V)) :
  List.NoDup (List.map fst m) ->
  List.filter (fun kv => String.eqb (fst kv) k) (Map_set k v m) = [(k, v)].
Proof.
  induction m as [|[k' v'] rest IH]; simpl; intros H.
  - rewrite String.eqb_refl. reflexivity.
  - inversion H as [|? ? Hn Hr]; subst.
    destruct (String.eqb k' k) eqn:E; simpl; rewrite E.
    + apply String.eqb_eq in E. subst. f_equal.
      clear IH H Hr. induction rest as [|[k2 v2] r IHr]; simpl; [reflexivity|].
      simpl in Hn. destruct (String.eqb k2 k) eqn:E2.
      * apply String.eqb_eq in E2. tauto.
      * apply IHr. tauto.
    + auto.
Qed.

Lemma Map_set_other {V : Type} (k k' : string) (v : V)
    (m : list (string * V)) :
  k' <> k ->
  List.filter (fun kv => String.eqb (fst kv) k') (Map_set k v m)
  = List.filter (fun kv => String.eqb (fst kv) k') m.
Proof.
  intros Hne. induction m as [|[k2 v2] rest IH]; simpl.
  - destruct (String.eqb k k') eqn:E; [|reflexivity].
    apply String.eqb_eq in E. congruence.
  - destruct (String.eqb k2 k) eqn:E; simpl.
    + apply String.eqb_eq in E. subst.
      destruct (String.eqb k k') eqn:E2; [|reflexivity].
      apply String.eqb_eq in E2. congruence.
    + rewrite IH. reflexivity.
Qed.

(** ** The hardware bridge: what each method leaves alone *)

Import HardwareBridge.

Lemma open_socket_Some (b : HardwareBridge.t) (i : nat) :
  open_socket b = Some i <->
  ws b = Some i
  /\ exists s, sockets b !! i = Some s /\ readyState s = OPEN.
Proof.
  unfold open_socket. split.
  - destruct (ws b) as [j|]; [|discriminate].
    destruct (sockets b !! j) as [s|] eqn:Hs; [|discriminate].
    destruct (readyState s) eqn:Hr; try discriminate.
    intros [= <-]. eauto.
  - intros [-> [s [-> ->]]]. reflexivity.
Qed.

Lemma readyState_sends (ms : list HardwareMessage) (s : WebSocket) :
  readyState (fold_left (fun s m => WebSocket_send m s) ms s) = readyState s.
Proof. revert s. induction ms as [|m ms IH]; intros s; simpl; [reflexivity|]. rewrite IH. reflexivity. Qed.

Lemma sent_sends (ms : list HardwareMessage) (s : WebSocket) :
  sent (fold_left (fun s m => WebSocket_send m s) ms s) = sent s ++ ms.
Proof.
  revert s. induction ms as [|m ms IH]; intros s; simpl.
  - rewrite app_nil_r. reflexivity.
  - rewrite IH. simpl. rewrite <- app_assoc. reflexivity.
Qed.

Lemma send_on_lookup (i j : nat) (ms : list HardwareMessage)
    (b : HardwareBridge.t) :
  sockets (send_on i ms b) !! j
  = (if Nat.eqb j i
     then option_map
            (fun s => fold_left (fun s m => WebSocket_send m s) ms s)
            (sockets b !! j)
     else sockets b !! j).
Proof.
  unfold send_on. cbn [sockets].
  destruct (Nat.eqb j i) eqn:E.
  - apply Nat.eqb_eq in E. subst.
    rewrite list_lookup_alter_eq. destruct (sockets b !! i); reflexivity.
  - apply Nat.eqb_neq in E. rewrite list_lookup_alter_ne by congruence.
    reflexivity.
Qed.

Lemma send_on_readyState (i j : nat) (ms : list HardwareMessage)
    (b : HardwareBridge.t) :
  option_map readyState (sockets (send_on i ms b) !! j)
  = option_map readyState (sockets b !! j).
Proof.
  rewrite send_on_lookup. destruct (Nat.eqb j i); [|reflexivity].
  destruct (sockets b !! j); simpl; [|reflexivity].
  rewrite readyState_sends. reflexivity.
Qed.

(** Two bridges whose sockets are in the same states hold the same open
    socket. *)
Lemma open_socket_ext (b b' : HardwareBridge.t) :
  ws b' = ws b ->
  (forall j, option_map readyState (sockets b' !! j)
             = option_map readyState (sockets b !! j)) ->
  open_socket b' = open_socket b.
Proof.
  intros Hw Hs. unfold open_socket. rewrite Hw.
  destruct (ws b) as [i|]; [|reflexivity].
  specialize (Hs i).
  destruct (sockets b' !! i), (sockets b !! i); simpl in Hs;
    try discriminate; [|reflexivity].
  injection Hs as ->. reflexivity.
Qed.

Lemma linked_ext (b b' : HardwareBridge.t) :
  ws b' = ws b -> isConnected b' = isConnected b ->
  (forall j, option_map readyState (sockets b' !! j)
             = option_map readyState (sockets b !! j)) ->
  linked b -> linked b'.
Proof.
  intros Hw Hc Hs (L1 & L2 & L3). repeat split.
  - rewrite Hc, Hw. exact L1.
  - intros j s Hj Hr. rewrite Hw. specialize (Hs j). rewrite Hj in Hs.
    destruct (sockets b !! j) as [s0|] eqn:E; [|discriminate].
    simpl in Hs. apply (L2 j s0 E). congruence.
  - intros i Hi. rewrite Hw in Hi. specialize (L3 i Hi).
    apply lookup_lt_is_Some in L3. destruct L3 as [s0 E].
    specialize (Hs i). rewrite E in Hs.
    destruct (sockets b' !! i) eqn:E'; [|discriminate].
    apply lookup_lt_is_Some. eauto.
Qed.

Lemma sendParam_frame (k : string) (v : ParamValue) (b : HardwareBridge.t) :
  ws (sendParam k v b) = ws b
  /\ isConnected (sendParam k v b) = isConnected b
  /\ sockets (sendParam k v b) = sockets b
  /\ onDisconnectCallback (sendParam k v b) = onDisconnectCallback b
  /\ invoked (sendParam k v b) = invoked b.
Proof.
  unfold sendParam. destruct (isConnected b) eqn:Hc; simpl;
    [|repeat split; congruence].
  destruct (flushTimer b); simpl; repeat split; congruence.
Qed.

Lemma flushParams_frame (b : HardwareBridge.t) :
  ws (flushParams b) = ws b
  /\ isConnected (flushParams b) = isConnected b
  /\ pendingTimers (flushParams b) = pendingTimers b
  /\ nextTimerId (flushParams b) = nextTimerId b
  /\ flushTimer (flushParams b) = None
  /\ onDisconnectCallback (flushParams b) = onDisconnectCallback b
  /\ invoked (flushParams b) = invoked b
  /\ (forall j, option_map readyState (sockets (flushParams b) !! j)
                = option_map readyState (sockets b !! j)).
Proof.
  unfold flushParams. destruct (open_socket b) as [i|]; simpl.
  - destruct (0 <? length (paramQueue b))%nat; simpl; repeat split.
    intros j. apply send_on_readyState.
  - repeat split.
Qed.

(** What [flushParams] does, by the socket the bridge holds. *)
Lemma flushParams_open (b : HardwareBridge.t) (i : nat) :
  open_socket b = Some i ->
  paramQueue (flushParams b) = []
  /\ sent_on i (flushParams b)
     = sent_on i b ++ List.map param_message (paramQueue b)
  /\ (forall j, j <> i -> sent_on j (flushParams b) = sent_on j b).
Proof.
  intros Ho. pose proof Ho as Ho'. apply open_socket_Some in Ho'.
  destruct Ho' as (Hw & s & Hs & Hr).
  unfold flushParams. rewrite Ho.
  destruct (0 <? length (paramQueue b))%nat eqn:El.
  - unfold sent_on, send_on. cbn [sockets paramQueue]. split; [reflexivity|].
    split.
    + rewrite list_lookup_alter_eq, Hs. cbn [fmap option_fmap option_map].
      apply sent_sends.
    + intros j Hj. rewrite list_lookup_alter_ne by congruence. reflexivity.
  - apply Nat.ltb_ge in El. destruct (paramQueue b) as [|kv q] eqn:Hq;
      [|simpl in El; lia].
    unfold sent_on. cbn [sockets paramQueue].
    simpl. rewrite app_nil_r. repeat split; assumption.
Qed.

Lemma flushParams_closed (b : HardwareBridge.t) :
  open_socket b = None ->
  paramQueue (flushParams b) = paramQueue b
  /\ sockets (flushParams b) = sockets b.
Proof. intros Ho. unfold flushParams. rewrite Ho. simpl. split; reflexivity. Qed.

Lemma flushParams_queue (b : HardwareBridge.t) :
  paramQueue (flushParams b) = [] \/ paramQueue (flushParams b) = paramQueue b.
Proof.
  destruct (open_socket b) as [i|] eqn:Ho.
  - left. apply (flushParams_open b i Ho).
  - right. apply (flushParams_closed b Ho).
Qed.

(** ** The hardware bridge: its invariants *)

Lemma linked_ws (b : HardwareBridge.t) :
  linked b -> isConnected b = true -> exists i, ws b = Some i.
Proof.
  intros (L1 & _) Hc. exact (L1 Hc).
Qed.

Lemma tidy_sendParam (k : string) (v : ParamValue) (b : HardwareBridge.t) :
  linked b -> tidy b -> tidy (sendParam k v b).
Proof.
  intros HL HT.
  unfold sendParam. destruct (isConnected b) eqn:Hc; simpl; [|exact HT].
  destruct HT as (T1 & T2 & T3 & T4 & T5).
  destruct (linked_ws b HL Hc) as [i Hi].
  destruct (flushTimer b) as [id|] eqn:Hf; unfold tidy; simpl.
  - split; [apply Map_set_NoDup, T1|].
    split.
    { intros id' [= <-]. destruct (T2 id eq_refl) as (Hin & Hnz & _).
      split; [assumption|]. split; [assumption | apply Map_set_nonempty]. }
    split; [assumption|]. split; [assumption|]. congruence.
  - split; [apply Map_set_NoDup, T1|].
    split.
    { intros id' [= <-]. split; [apply in_or_app; right; left; reflexivity|].
      split; [lia | apply Map_set_nonempty]. }
    split.
    { intros id' Hin. apply in_app_or in Hin. destruct Hin as [Hin|[<-|[]]].
      - specialize (T3 id' Hin). lia.
      - lia. }
    split; [lia|]. congruence.
Qed.

Lemma linked_sendParam (k : string) (v : ParamValue) (b : HardwareBridge.t) :
  linked b -> linked (sendParam k v b).
Proof.
  destruct (sendParam_frame k v b) as (Hw & Hc & Hs & _).
  apply linked_ext; try assumption. intros j. rewrite Hs. reflexivity.
Qed.

Lemma tidy_flushParams (b : HardwareBridge.t) : tidy b -> tidy (flushParams b).
Proof.
  intros (T1 & T2 & T3 & T4 & T5).
  destruct (flushParams_frame b) as (Hw & _ & Hp & Hn & Hf & _).
  unfold tidy. rewrite Hw, Hp, Hn, Hf.
  split.
  { destruct (flushParams_queue b) as [-> | ->]; [constructor | exact T1]. }
  split; [discriminate|]. split; [exact T3|]. split; [exact T4|].
  intros Hnone. split; [|reflexivity].
  destruct (flushParams_queue b) as [-> | ->]; [reflexivity|].
  apply T5, Hnone.
Qed.

Lemma linked_flushParams (b : HardwareBridge.t) :
  linked b -> linked (flushParams b).
Proof.
  destruct (flushParams_frame b) as (Hw & Hc & _ & _ & _ & _ & _ & Hs).
  apply linked_ext; assumption.
Qed.

Lemma clearTimeout_In (id x : nat) (pending : list nat) :
  In x (clearTimeout id pending) <-> In x pending /\ x <> id.
Proof.
  unfold clearTimeout. rewrite List.filter_In.
  rewrite Bool.negb_true_iff, Nat.eqb_neq. tauto.
Qed.

Lemma cleared_timer (b : HardwareBridge.t) :
  tidy b ->
  flushTimer (cleared b) = None
  /\ (forall x, In x (pendingTimers (cleared b)) ->
        In x (pendingTimers b) /\ flushTimer b <> Some x).
Proof.
  intros (_ & T2 & _). unfold cleared.
  destruct (flushTimer b) as [[|n]|] eqn:Hf; simpl.
  - destruct (T2 0%nat eq_refl) as (_ & H0 & _). congruence.
  - split; [reflexivity|]. intros x Hx. apply clearTimeout_In in Hx.
    split; [tauto|]. intros [= <-]. tauto.
  - split; [reflexivity|]. intros x Hx. split; [assumption|discriminate].
Qed.

Lemma tidy_cleared (b : HardwareBridge.t) : tidy b -> tidy (cleared b).
Proof.
  intros HT. destruct (cleared_timer b HT) as [Hf Hp].
  destruct HT as (T1 & T2 & T3 & T4 & T5).
  unfold tidy. rewrite Hf.
  assert (Hq : paramQueue (cleared b) = []).
  { unfold cleared. destruct (flushTimer b) as [[|n]|]; reflexivity. }
  assert (Hn : nextTimerId (cleared b) = nextTimerId b).
  { unfold cleared. destruct (flushTimer b) as [[|n]|]; reflexivity. }
  rewrite Hq, Hn. split; [constructor|]. split; [discriminate|].
  split; [intros id Hid; apply T3, Hp, Hid|]. split; [exact T4|]. tauto.
Qed.

Lemma cleared_frame (b : HardwareBridge.t) :
  ws (cleared b) = ws b /\ isConnected (cleared b) = isConnected b
  /\ sockets (cleared b) = sockets b
  /\ nextTimerId (cleared b) = nextTimerId b
  /\ onDisconnectCallback (cleared b) = onDisconnectCallback b
  /\ invoked (cleared b) = invoked b
  /\ paramQueue (cleared b) = [].
Proof. unfold cleared. destruct (flushTimer b) as [[|n]|]; simpl; repeat split. Qed.

Lemma linked_cleared (b : HardwareBridge.t) : linked b -> linked (cleared b).
Proof.
  destruct (cleared_frame b) as (Hw & Hc & Hs & _).
  apply linked_ext; try assumption. intros j. rewrite Hs. reflexivity.
Qed.

Lemma syncFullPatch_unfold (patch : SynthPatch.t) (b : HardwareBridge.t) :
  syncFullPatch patch b
  = if negb (isConnected b) then b
    else flushParams (sendParams (Object_entries patch) (cleared b)).
Proof.
  unfold syncFullPatch, cleared, sendParams.
  destruct (negb (isConnected b)); [reflexivity|].
  destruct (flushTimer b) as [[|n]|]; reflexivity.
Qed.

Lemma disconnect_unfold (b : HardwareBridge.t) :
  disconnect b
  = let c := cleared b in
    mk None false (onDisconnectCallback c) (paramQueue c) (flushTimer c)
      match ws b with
      | Some i => alter WebSocket_close i (sockets b)
      | None => sockets b
      end (pendingTimers c) (nextTimerId c) (invoked c).
Proof. unfold disconnect, cleared. destruct (flushTimer b) as [[|n]|]; reflexivity. Qed.

Lemma sendParams_shape (us : list (string * ParamValue))
    (b : HardwareBridge.t) :
  tidy b -> linked b ->
  tidy (sendParams us b) /\ linked (sendParams us b).
Proof.
  unfold sendParams. revert b. induction us as [|[k v] us IH]; intros b HT HL; simpl.
  - tauto.
  - apply IH; [apply tidy_sendParam | apply linked_sendParam]; assumption.
Qed.

Lemma tidy_syncFullPatch (patch : SynthPatch.t) (b : HardwareBridge.t) :
  tidy b -> linked b ->
  tidy (syncFullPatch patch b) /\ linked (syncFullPatch patch b).
Proof.
  intros HT HL. rewrite syncFullPatch_unfold.
  destruct (negb (isConnected b)); [tauto|].
  destruct (sendParams_shape (Object_entries patch) (cleared b)
              (tidy_cleared b HT) (linked_cleared b HL)) as [HT' HL'].
  split; [apply tidy_flushParams | apply linked_flushParams]; assumption.
Qed.

Lemma tidy_disconnect (b : HardwareBridge.t) : tidy b -> tidy (disconnect b).
Proof.
  intros HT. pose proof (tidy_cleared b HT) as (T1 & T2 & T3 & T4 & T5).
  destruct (cleared_timer b HT) as [Hf _].
  destruct (cleared_frame b) as (_ & _ & _ & _ & _ & _ & Hq).
  rewrite disconnect_unfold. unfold tidy. cbn -[cleared].
  rewrite Hf, Hq. split; [constructor|]. split; [discriminate|].
  split; [exact T3|]. split; [exact T4|]. split; reflexivity.
Qed.

Lemma WebSocket_close_readyState (s : WebSocket) :
  readyState (WebSocket_close s) <> CONNECTING
  /\ readyState (WebSocket_close s) <> OPEN.
Proof. unfold WebSocket_close. destruct (readyState s) eqn:E; simpl; rewrite ?E; split; discriminate. Qed.

Lemma linked_disconnect (b : HardwareBridge.t) :
  linked b -> linked (disconnect b).
Proof.
  intros (L1 & L2 & L3). rewrite disconnect_unfold.
  unfold linked. cbn -[cleared]. split; [discriminate|].
  split; [|discriminate].
  intros j s Hj Hr. exfalso.
  destruct (ws b) as [i|] eqn:Hw.
  - destruct (Nat.eq_dec j i) as [->|Hne].
    + rewrite list_lookup_alter_eq in Hj.
      destruct (sockets b !! i) as [s0|]; [|discriminate].
      simpl in Hj. injection Hj as <-.
      apply (proj1 (WebSocket_close_readyState s0)), Hr.
    + rewrite list_lookup_alter_ne in Hj by congruence.
      specialize (L2 j s Hj Hr). congruence.
  - specialize (L2 j s Hj Hr). congruence.
Qed.

Lemma disconnect_fields (b : HardwareBridge.t) :
  tidy b ->
  ws (disconnect b) = None /\ isConnected (disconnect b) = false
  /\ paramQueue (disconnect b) = [] /\ flushTimer (disconnect b) = None.
Proof.
  intros HT. destruct (cleared_timer b HT) as [Hf _].
  destruct (cleared_frame b) as (_ & _ & _ & _ & _ & _ & Hq).
  rewrite disconnect_unfold. cbn -[cleared]. tauto.
Qed.

Lemma tidy_connect (accepts : string -> bool) (ip : string)
    (c d e : Callback) (b : HardwareBridge.t) :
  tidy b -> tidy (connect accepts ip c d e b).
Proof.
  intros HT. unfold connect.
  set (b0 := match ws b with Some _ => disconnect b | None => b end).
  assert (HT0 : tidy b0).
  { unfold b0. destruct (ws b); [apply tidy_disconnect|]; assumption. }
  assert (H0 : paramQueue b0 = [] /\ flushTimer b0 = None).
  { unfold b0. destruct (ws b) eqn:Hw.
    - destruct (disconnect_fields b HT); tauto.
    - destruct HT as (_ & _ & _ & _ & T5). auto. }
  destruct HT0 as (T1 & T2 & T3 & T4 & T5).
  destruct (accepts _); unfold tidy; simpl.
  - split; [exact T1|]. split; [exact T2|]. split; [exact T3|].
    split; [exact T4|]. discriminate.
  - split; [exact T1|]. split; [exact T2|]. split; [exact T3|].
    split; [exact T4|]. exact T5.
Qed.

Lemma connect_fields (accepts : string -> bool) (ip : string)
    (c d e : Callback) (b : HardwareBridge.t) :
  tidy b -> linked b ->
  let b' := connect accepts ip c d e b in
  paramQueue b' = [] /\ flushTimer b' = None /\ isConnected b' = false.
Proof.
  intros HT HL. unfold connect.
  set (b0 := match ws b with Some _ => disconnect b | None => b end).
  assert (H0 : paramQueue b0 = [] /\ flushTimer b0 = None
               /\ isConnected b0 = false).
  { unfold b0. destruct (ws b) eqn:Hw.
    - destruct (disconnect_fields b HT); tauto.
    - destruct HT as (_ & _ & _ & _ & T5).
      destruct (T5 Hw). repeat split; try assumption.
      destruct (isConnected b) eqn:Hc; [|reflexivity].
      destruct (linked_ws b HL Hc). congruence. }
  simpl. destruct (accepts _); simpl; exact H0.
Qed.

Lemma linked_connect (accepts : string -> bool) (ip : string)
    (c d e : Callback) (b : HardwareBridge.t) :
  tidy b -> linked b -> linked (connect accepts ip c d e b).
Proof.
  intros HT HL.
  destruct (connect_fields accepts ip c d e b HT HL) as (_ & _ & Hc).
  simpl in Hc. revert Hc. unfold connect.
  set (b0 := match ws b with Some _ => disconnect b | None => b end).
  assert (HL0 : linked b0).
  { unfold b0. destruct (ws b); [apply linked_disconnect|]; assumption. }
  assert (Hw0 : ws b0 = None).
  { unfold b0. destruct (ws b) eqn:Hw; [|assumption].
    apply (disconnect_fields b HT). }
  destruct HL0 as (L1 & L2 & L3).
  destruct (accepts _); simpl; intros Hc.
  - unfold linked. simpl. split; [congruence|]. split.
    + intros j s Hj Hr.
      destruct (Nat.lt_ge_cases j (length (sockets b0))) as [Hlt|Hge].
      * rewrite lookup_app_l in Hj by assumption.
        specialize (L2 j s Hj Hr). congruence.
      * apply lookup_lt_Some in Hj. rewrite length_app in Hj. simpl in Hj.
        f_equal. lia.
    + intros i [= <-]. rewrite length_app. simpl. lia.
  - unfold linked. simpl. split; [congruence|]. split; assumption.
Qed.

Lemma linked_sendNote (type : NoteType) (note : Q) (velocity : option Q)
    (b : HardwareBridge.t) :
  linked b -> linked (sendNote type note velocity b).
Proof.
  intros HL. unfold sendNote. destruct (isConnected b); [|assumption].
  destruct (open_socket b) as [i|]; [|assumption].
  revert HL. apply linked_ext; try reflexivity.
  intros j. apply send_on_readyState.
Qed.

Lemma tidy_sendNote (type : NoteType) (note : Q) (velocity : option Q)
    (b : HardwareBridge.t) :
  tidy b -> tidy (sendNote type note velocity b).
Proof.
  intros HT. unfold sendNote. destruct (isConnected b); [|assumption].
  destruct (open_socket b) as [i|]; [|assumption]. exact HT.
Qed.

Lemma shape_socket_opens (i : nat) (b : HardwareBridge.t) :
  tidy b -> linked b -> tidy (socket_opens i b) /\ linked (socket_opens i b).
Proof.
  intros HT HL. unfold socket_opens.
  destruct (sockets b !! i) as [s|] eqn:Hs; [|tauto].
  destruct (readyState s) eqn:Hr; try tauto.
  split; [exact HT|].
  destruct HL as (L1 & L2 & L3). pose proof (L2 i s Hs Hr) as Hw.
  pose proof (L3 i Hw) as Hlt.
  unfold linked, set_socket. cbn [isConnected ws sockets]. split.
  - intros _. exists i. assumption.
  - split.
    + intros j s' Hj Hr'. destruct (Nat.eq_dec j i) as [->|Hne].
      * assumption.
      * rewrite list_lookup_insert_ne in Hj by congruence. eauto.
    + intros i' Hi'. rewrite length_insert. auto.
Qed.

Lemma shape_socket_closes (i : nat) (b : HardwareBridge.t) :
  tidy b -> linked b ->
  tidy (socket_closes i b) /\ linked (socket_closes i b).
Proof.
  intros HT HL. unfold socket_closes.
  destruct (sockets b !! i) as [s|] eqn:Hs; [|tauto].
  assert (Hlt : (i < length (sockets b))%nat) by (eapply lookup_lt_Some; eauto).
  assert (H : forall s',
    readyState s' = CLOSED ->
    tidy (set_socket i s' b false
            match onDisconnectCallback b with Some cb => [cb] | None => [] end)
    /\ linked (set_socket i s' b false
            match onDisconnectCallback b with Some cb => [cb] | None => [] end)).
  { intros s' Hc. split; [exact HT|].
    destruct HL as (L1 & L2 & L3).
    unfold linked, set_socket. cbn [isConnected ws sockets].
    split; [discriminate|]. split.
    - intros j s2 Hj Hr'. destruct (Nat.eq_dec j i) as [->|Hne].
      + rewrite list_lookup_insert_eq in Hj by assumption.
        injection Hj as <-. congruence.
      + rewrite list_lookup_insert_ne in Hj by congruence. eauto.
    - intros i' Hi'. rewrite length_insert. auto. }
  destruct (readyState s); try (apply H; reflexivity). tauto.
Qed.

Lemma shape_socket_closing (i : nat) (b : HardwareBridge.t) :
  tidy b -> linked b ->
  tidy (socket_closing i b) /\ linked (socket_closing i b).
Proof.
  intros HT HL. unfold socket_closing.
  destruct (sockets b !! i) as [s|] eqn:Hs; [|tauto].
  assert (Hlt : (i < length (sockets b))%nat) by (eapply lookup_lt_Some; eauto).
  destruct (readyState s) eqn:Hr; try tauto.
  split; [exact HT|].
  destruct HL as (L1 & L2 & L3).
  unfold linked. cbn [isConnected ws sockets]. split; [exact L1|]. split.
  - intros j s2 Hj Hr'. destruct (Nat.eq_dec j i) as [->|Hne].
    + rewrite list_lookup_insert_eq in Hj by assumption.
      injection Hj as <-. discriminate.
    + rewrite list_lookup_insert_ne in Hj by congruence. eauto.
  - intros i' Hi'. rewrite length_insert. auto.
Qed.

Lemma shape_socket_fails (i : nat) (b : HardwareBridge.t) :
  tidy b -> linked b -> tidy (socket_fails i b) /\ linked (socket_fails i b).
Proof.
  intros HT HL. unfold socket_fails. destruct (sockets b !! i); tauto.
Qed.

Lemma shape_timer_fires (id : nat) (b : HardwareBridge.t) :
  tidy b -> linked b -> tidy (timer_fires id b) /\ linked (timer_fires id b).
Proof.
  intros HT HL. unfold timer_fires.
  destruct (existsb _ _); [|tauto].
  split.
  - destruct (flushParams_frame
      (mk (ws b) (isConnected b) (onDisconnectCallback b) (paramQueue b)
         (flushTimer b) (sockets b) (clearTimeout id (pendingTimers b))
         (nextTimerId b) (invoked b)))
      as (Hw & _ & Hp & Hn & Hf & _).
    destruct HT as (T1 & T2 & T3 & T4 & T5).
    unfold tidy. rewrite Hw, Hp, Hn, Hf. cbn [ws pendingTimers nextTimerId].
    match goal with |- context [paramQueue (flushParams ?x)] =>
      destruct (flushParams_queue x) as [Hq | Hq]; rewrite Hq end;
      cbn [paramQueue].
    + split; [constructor|]. split; [discriminate|].
      split; [intros x Hx; apply clearTimeout_In in Hx; apply T3; tauto|].
      split; [assumption|]. tauto.
    + split; [assumption|]. split; [discriminate|].
      split; [intros x Hx; apply clearTimeout_In in Hx; apply T3; tauto|].
      split; [assumption|]. intros Hnone. split; [|reflexivity].
      apply T5, Hnone.
  - apply linked_flushParams. exact HL.
Qed.

Lemma perform_shape (ev : Event) (b : HardwareBridge.t) :
  tidy b -> linked b -> tidy (perform ev b) /\ linked (perform ev b).
Proof.
  intros HT HL. destruct ev; simpl.
  - split; [apply tidy_connect | apply linked_connect]; assumption.
  - split; [apply tidy_disconnect | apply linked_disconnect]; assumption.
  - split; [apply tidy_sendNote | apply linked_sendNote]; assumption.
  - split; [apply tidy_sendParam | apply linked_sendParam]; assumption.
  - apply tidy_syncFullPatch; assumption.
  - apply shape_socket_opens; assumption.
  - apply shape_socket_closing; assumption.
  - apply shape_socket_closes; assumption.
  - apply shape_socket_fails; assumption.
  - apply shape_timer_fires; assumption.
Qed.

Lemma reachable_shape (b : HardwareBridge.t) :
  HardwareBridge.reachable b -> tidy b /\ linked b.
Proof.
  induction 1 as [|ev b Hb [HT HL]].
  - split.
    + unfold tidy, create. simpl. split; [constructor|].
      split; [discriminate|]. split; [tauto|]. split; [lia|].
      split; reflexivity.
    + unfold linked, create. simpl. split; [discriminate|].
      split; [|discriminate].
      intros j s Hj. rewrite lookup_nil in Hj. discriminate.
  - apply perform_shape; assumption.
Qed.

(** ** The hardware bridge: batches of updates *)

Lemma sendParams_connected (us : list (string * ParamValue))
    (b : HardwareBridge.t) :
  isConnected b = true ->
  ws (sendParams us b) = ws b
  /\ isConnected (sendParams us b) = true
  /\ sockets (sendParams us b) = sockets b
  /\ paramQueue (sendParams us b)
     = fold_left (fun q kv => Map_set (fst kv) (snd kv) q) us (paramQueue b).
Proof.
  unfold sendParams. revert b.
  induction us as [|[k v] us IH]; intros b Hc; simpl.
  - repeat split; assumption.
  - destruct (sendParam_frame k v b) as (Hw & Hc' & Hs & _).
    destruct (IH (sendParam k v b)) as (IH1 & IH2 & IH3 & IH4);
      [congruence|].
    rewrite IH1, IH2, IH3, IH4, Hw, Hs.
    repeat split. f_equal. unfold sendParam. rewrite Hc. simpl.
    destruct (flushTimer b); reflexivity.
Qed.

Lemma Map_sets_NoDup {V : Type} (us q : list (string * V)) :
  List.NoDup (List.map fst q) ->
  List.NoDup
    (List.map fst (fold_left (fun q kv => Map_set (fst kv) (snd kv) q) us q)).
Proof.
  revert q. induction us as [|[k v] us IH]; intros q H; simpl; [assumption|].
  apply IH, Map_set_NoDup, H.
Qed.

Lemma Map_sets_last {V : Type} (k : string) (v : V)
    (rest q : list (string * V)) :
  ~ In k (List.map fst rest) ->
  List.filter (fun kv => String.eqb (fst kv) k)
    (fold_left (fun q kv => Map_set (fst kv) (snd kv) q) rest q)
  = List.filter (fun kv => String.eqb (fst kv) k) q.
Proof.
  revert q. induction rest as [|[k' v'] rest IH]; intros q H; simpl;
    [reflexivity|].
  simpl in H. rewrite IH by tauto. apply Map_set_other. intros ->. tauto.
Qed.

Lemma Map_sets_fresh {V : Type} (us q : list (string * V)) :
  List.NoDup (List.map fst (q ++ us)) ->
  fold_left (fun q kv => Map_set (fst kv) (snd kv) q) us q = q ++ us.
Proof.
  revert q. induction us as [|[k v] us IH]; intros q H; simpl.
  - rewrite app_nil_r. reflexivity.
  - assert (Hq : ~ In k (List.map fst q)).
    { rewrite List.map_app in H. apply List.NoDup_remove_2 in H.
      intros Hin. apply H. apply in_or_app. left. exact Hin. }
    rewrite (Map_set_fresh k v q Hq). rewrite IH.
    + rewrite <- app_assoc. reflexivity.
    + rewrite <- app_assoc. exact H.
Qed.

Lemma about_params (k : string) (q : list (string * ParamValue)) :
  about k (List.map param_message q)
  = List.map param_message
      (List.filter (fun kv => String.eqb (fst kv) k) q).
Proof.
  unfold about. induction q as [|[k' v'] q IH]; simpl; [reflexivity|].
  destruct (String.eqb k' k); simpl; rewrite IH; reflexivity.
Qed.

Lemma Object_entries_keys (p : SynthPatch.t) :
  List.NoDup (List.map fst (Object_entries p)).
Proof.
  unfold Object_entries. cbn [List.map fst].
  repeat (constructor; [cbn [In]; intuition discriminate|]). constructor.
Qed.

(** The timeouts while a batch of updates is queued: the first update
    arms one if none is tracked. *)
Lemma sendParams_timers (us : list (string * ParamValue))
    (b : HardwareBridge.t) :
  isConnected b = true -> flushTimer b = None -> us <> [] ->
  pendingTimers (sendParams us b) = pendingTimers b ++ [nextTimerId b]
  /\ nextTimerId (sendParams us b) = S (nextTimerId b).
Proof.
  intros Hc Hf Hne. destruct us as [|[k v] us]; [congruence|].
  unfold sendParams. simpl.
  set (b1 := sendParam k v b).
  assert (H1 : isConnected b1 = true /\ flushTimer b1 = Some (nextTimerId b)
               /\ pendingTimers b1 = pendingTimers b ++ [nextTimerId b]
               /\ nextTimerId b1 = S (nextTimerId b)).
  { unfold b1, sendParam. rewrite Hc, Hf. simpl. repeat split. }
  destruct H1 as (Hc1 & Hf1 & Hp1 & Hn1). rewrite <- Hp1, <- Hn1.
  clearbody b1. clear Hp1 Hn1 Hne Hf Hc.
  remember (nextTimerId b) as id eqn:Hid. clear Hid b.
  revert b1 Hc1 Hf1. induction us as [|[k' v'] us IH]; intros b1 Hc1 Hf1;
    simpl; [split; reflexivity|].
  assert (H2 : isConnected (sendParam k' v' b1) = true
               /\ flushTimer (sendParam k' v' b1) = Some id
               /\ pendingTimers (sendParam k' v' b1) = pendingTimers b1
               /\ nextTimerId (sendParam k' v' b1) = nextTimerId b1).
  { unfold sendParam. rewrite Hc1, Hf1. simpl. repeat split. }
  destruct H2 as (Hc2 & Hf2 & Hp2 & Hn2).
  rewrite <- Hp2, <- Hn2. apply IH; assumption.
Qed.

Lemma sent_on_ext (j : nat) (b b' : HardwareBridge.t) :
  sockets b' = sockets b -> sent_on j b' = sent_on j b.
Proof. unfold sent_on. intros ->. reflexivity. Qed.

(** ** The hardware bridge: what is sent, and when *)

Lemma reachable_plugged : HardwareBridge.reachable plugged.
Proof.
  unfold plugged.
  apply (HardwareBridge.reachable_step (Env_opens 0)).
  apply (HardwareBridge.reachable_step
           (Call_connect (fun _ => true) "192.168.4.1" "onConnect"
              "onDisconnect" "onError")).
  apply HardwareBridge.reachable_create.
Qed.

Lemma reachable_tweaked : HardwareBridge.reachable tweaked.
Proof.
  unfold tweaked.
  apply (HardwareBridge.reachable_step
           (Call_sendParam "filterCutoff" (VNumber 800))).
  apply reachable_plugged.
Qed.

Lemma reachable_replugged : HardwareBridge.reachable replugged.
Proof.
  unfold replugged.
  apply (HardwareBridge.reachable_step (Env_opens 1)).
  apply (HardwareBridge.reachable_step
           (Call_connect (fun _ => true) "ws://192.168.4.2" "onConnect"
              "onDisconnect" "onError")).
  apply reachable_plugged.
Qed.

(** While the socket is closing the bridge still counts as connected, and
    drops the notes; a flush sends nothing and keeps the queue. *)
Example closing_bridge_drops :
  HardwareBridge.reachable closing
  /\ isConnected closing = true /\ open_socket closing = None
  /\ sendNote noteOn 60 None closing = closing
  /\ sockets (flushParams closing) = sockets closing
  /\ paramQueue (flushParams closing) = paramQueue closing.
Proof.
  split.
  { unfold closing. apply (HardwareBridge.reachable_step (Env_closing 0)).
    apply reachable_tweaked. }
  repeat split.
Qed.

Lemma flushParams_sent (b : HardwareBridge.t) (j : nat) :
  exists new,
    sent_on j (flushParams b) = sent_on j b ++ new
    /\ (new <> [] -> open_socket b = Some j).
Proof.
  destruct (open_socket b) as [i|] eqn:Ho.
  - destruct (flushParams_open b i Ho) as (_ & Hi & Hj).
    destruct (Nat.eq_dec j i) as [->|Hne].
    + eexists. split; [exact Hi | reflexivity].
    + exists []. rewrite app_nil_r. split; [auto | congruence].
  - exists []. rewrite app_nil_r. split; [|congruence].
    apply sent_on_ext, (flushParams_closed b Ho).
Qed.

Lemma sent_on_close (i j : nat) (l : list WebSocket) :
  match alter WebSocket_close i l !! j with
  | Some s => sent s
  | None => []
  end
  = match l !! j with Some s => sent s | None => [] end.
Proof.
  destruct (Nat.eq_dec i j) as [->|Hne].
  - rewrite list_lookup_alter_eq. destruct (l !! j) as [s|]; [|reflexivity].
    simpl. unfold WebSocket_close. destruct (readyState s); reflexivity.
  - rewrite list_lookup_alter_ne by assumption. reflexivity.
Qed.

Lemma disconnect_sent (b : HardwareBridge.t) (j : nat) :
  sent_on j (disconnect b) = sent_on j b.
Proof.
  rewrite disconnect_unfold. unfold sent_on. cbn -[cleared].
  destruct (ws b); [apply sent_on_close | reflexivity].
Qed.

Lemma connect_sent (accepts : string -> bool) (ip : string)
    (c d e : Callback) (b : HardwareBridge.t) (j : nat) :
  sent_on j (connect accepts ip c d e b) = sent_on j b.
Proof.
  unfold connect.
  set (b0 := match ws b with Some _ => disconnect b | None => b end).
  assert (H0 : sent_on j b0 = sent_on j b).
  { unfold b0. destruct (ws b); [apply disconnect_sent | reflexivity]. }
  rewrite <- H0. destruct (accepts _); [|reflexivity].
  unfold sent_on. cbn [sockets].
  destruct (Nat.lt_ge_cases j (length (sockets b0))) as [Hlt|Hge].
  - rewrite lookup_app_l by assumption. reflexivity.
  - rewrite lookup_app_r by assumption.
    rewrite (lookup_ge_None_2 (sockets b0) j Hge).
    destruct (j - length (sockets b0))%nat as [|n]; reflexivity.
Qed.

Lemma set_socket_sent (i j : nat) (s s' : WebSocket) (b : HardwareBridge.t)
    (connected : bool) (called : list Callback) :
  sockets b !! i = Some s -> sent s' = sent s ->
  sent_on j (set_socket i s' b connected called) = sent_on j b.
Proof.
  intros Hs He. unfold sent_on, set_socket. cbn [sockets].
  destruct (Nat.eq_dec i j) as [->|Hne].
  - rewrite list_lookup_insert_eq by (eapply lookup_lt_Some; eauto).
    rewrite Hs. exact He.
  - rewrite list_lookup_insert_ne by assumption. reflexivity.
Qed.

(** X20. A note given to a connected bridge whose socket is open goes out
    at once on that socket, as one message that carries the velocity 127
    when none is given, also for a [noteOff]; no other socket receives
    anything, and the queue of parameters and its timeouts are as they
    were.  On a bridge whose socket is not open (it may be closing while
    the bridge still counts as connected) the note is dropped. *)
Theorem note_is_sent_at_once (type : NoteType) (note : Q)
    (velocity : option Q) (b : HardwareBridge.t) (i : nat) :
  isConnected b = true -> open_socket b = Some i ->
  ws b = Some i
  /\ sent_on i (sendNote type note velocity b)
     = sent_on i b
       ++ [NoteMessage type note
             match velocity with Some v => v | None => 127 end]
  /\ (forall j, j <> i ->
        sent_on j (sendNote type note velocity b) = sent_on j b)
  /\ paramQueue (sendNote type note velocity b) = paramQueue b
  /\ flushTimer (sendNote type note velocity b) = flushTimer b
  /\ pendingTimers (sendNote type note velocity b) = pendingTimers b
  /\ (forall b', open_socket b' = None ->
        sendNote type note velocity b' = b').
Proof.
  intros Hc Ho.
  pose proof Ho as Ho'. apply open_socket_Some in Ho'.
  destruct Ho' as (Hw & s & Hs & _).
  unfold sendNote at 1 2 3 4 5. rewrite Hc, Ho. split; [assumption|].
  unfold sent_on, send_on. cbn [sockets paramQueue flushTimer pendingTimers].
  split.
  - rewrite list_lookup_alter_eq, Hs. reflexivity.
  - split; [|split; [reflexivity|split; [reflexivity|split; [reflexivity|]]]].
    + intros j Hj. rewrite list_lookup_alter_ne by congruence. reflexivity.
    + intros b' Hn. unfold sendNote. rewrite Hn.
      destruct (isConnected b'); reflexivity.
Qed.

Lemma note_is_sent_at_once_witness :
  isConnected tweaked = true /\ open_socket tweaked = Some 0%nat
  /\ ws tweaked = Some 0%nat
  /\ sent_on 0 (sendNote noteOff 60 None tweaked)
     = sent_on 0 tweaked ++ [NoteMessage noteOff 60 127]
  /\ (forall j, j <> 0%nat ->
        sent_on j (sendNote noteOff 60 None tweaked) = sent_on j tweaked)
  /\ paramQueue (sendNote noteOff 60 None tweaked) = paramQueue tweaked
  /\ flushTimer (sendNote noteOff 60 None tweaked) = flushTimer tweaked
  /\ pendingTimers (sendNote noteOff 60 None tweaked)
     = pendingTimers tweaked
  /\ (forall b', open_socket b' = None -> sendNote noteOff 60 None b' = b').
Proof.
  split; [reflexivity|]. split; [reflexivity|].
  apply (note_is_sent_at_once noteOff 60 None tweaked 0 eq_refl eq_refl).
Defined.

(** X21. In every state the bridge can reach, the queued keys are
    distinct; a timeout the bridge tracks is pending and finds a queue
    that is not empty and a socket; and a bridge without a socket is
    disconnected with nothing queued and no timeout tracked. *)
Theorem queue_and_timer_agree (b : HardwareBridge.t) :
  HardwareBridge.reachable b ->
  List.NoDup (List.map fst (paramQueue b))
  /\ (forall id, flushTimer b = Some id ->
        In id (pendingTimers b) /\ paramQueue b <> []
        /\ exists i, ws b = Some i)
  /\ (ws b = None ->
        paramQueue b = [] /\ flushTimer b = None /\ isConnected b = false).
Proof.
  intros Hr. destruct (reachable_shape b Hr) as [(T1 & T2 & _ & _ & T5) HL].
  split; [exact T1|]. split.
  - intros id Hid. destruct (T2 id Hid) as (Hin & _ & Hq).
    split; [assumption|]. split; [assumption|].
    destruct (ws b) as [i|] eqn:Hw; [eauto|].
    destruct (T5 eq_refl). congruence.
  - intros Hw. destruct (T5 Hw) as [Hq Hf]. split; [assumption|].
    split; [assumption|].
    destruct (isConnected b) eqn:Hc; [|reflexivity].
    destruct (linked_ws b HL Hc). congruence.
Qed.

Lemma queue_and_timer_agree_witness :
  HardwareBridge.reachable tweaked
  /\ List.NoDup (List.map fst (paramQueue tweaked))
  /\ (forall id, flushTimer tweaked = Some id ->
        In id (pendingTimers tweaked) /\ paramQueue tweaked <> []
        /\ exists i, ws tweaked = Some i)
  /\ (ws tweaked = None ->
        paramQueue tweaked = [] /\ flushTimer tweaked = None
        /\ isConnected tweaked = false).
Proof.
  split; [exact reachable_tweaked|].
  apply (queue_and_timer_agree tweaked). exact reachable_tweaked.
Defined.

(** X22. Updates of parameters are coalesced.  After any run of
    [sendParam] on a reachable, connected bridge whose socket is open, the
    flush sends the queue on that socket and empties it; among the messages
    sent there is exactly one about a key that was updated, and it carries
    the value of the last update of that key. *)
Theorem params_are_coalesced (front rest : list (string * ParamValue))
    (k : string) (v : ParamValue) (b : HardwareBridge.t) (i : nat) :
  HardwareBridge.reachable b -> isConnected b = true ->
  open_socket b = Some i ->
  ~ In k (List.map fst rest) ->
  let b1 := sendParams (front ++ (k, v) :: rest) b in
  sent_on i (flushParams b1)
  = sent_on i b ++ List.map param_message (paramQueue b1)
  /\ about k (List.map param_message (paramQueue b1)) = [ParamMessage k v]
  /\ paramQueue (flushParams b1) = []
  /\ flushTimer (flushParams b1) = None.
Proof.
  intros Hr Hc Ho Hk b1.
  destruct (reachable_shape b Hr) as [(T1 & _) _].
  destruct (sendParams_connected (front ++ (k, v) :: rest) b Hc)
    as (Hw & _ & Hs & Hq). fold b1 in Hw, Hs, Hq.
  assert (Ho1 : open_socket b1 = Some i).
  { rewrite <- Ho. apply open_socket_ext; [assumption|].
    intros j. rewrite Hs. reflexivity. }
  destruct (flushParams_open b1 i Ho1) as (Hq' & Hsent & _).
  split; [rewrite Hsent; f_equal; apply sent_on_ext, Hs|].
  split; [|split; [assumption | apply flushParams_frame]].
  rewrite about_params, Hq, fold_left_app. cbn [fold_left fst snd].
  rewrite Map_sets_last by assumption.
  rewrite Map_set_same; [reflexivity|].
  apply Map_sets_NoDup, T1.
Qed.

Lemma params_are_coalesced_witness :
  HardwareBridge.reachable tweaked /\ isConnected tweaked = true
  /\ open_socket tweaked = Some 0%nat
  /\ ~ In "filterCutoff"%string
         (List.map fst [("lfoRate"%string, VNumber 2)])
  /\ let b1 :=
       sendParams
         ([("filterCutoff"%string, VNumber 900)]
          ++ ("filterCutoff"%string, VNumber 1000)
             :: [("lfoRate"%string, VNumber 2)]) tweaked in
     sent_on 0 (flushParams b1)
     = sent_on 0 tweaked ++ List.map param_message (paramQueue b1)
     /\ about "filterCutoff" (List.map param_message (paramQueue b1))
        = [ParamMessage "filterCutoff" (VNumber 1000)]
     /\ paramQueue (flushParams b1) = []
     /\ flushTimer (flushParams b1) = None.
Proof.
  assert (Hk : ~ In "filterCutoff"%string
                 (List.map fst [("lfoRate"%string, VNumber 2)])).
  { simpl. intros [H|[]]. discriminate. }
  split; [exact reachable_tweaked|]. split; [reflexivity|].
  split; [reflexivity|]. split; [exact Hk|].
  apply (params_are_coalesced [("filterCutoff"%string, VNumber 900)]
           [("lfoRate"%string, VNumber 2)] "filterCutoff" (VNumber 1000)
           tweaked 0 reachable_tweaked eq_refl eq_refl Hk).
Defined.

(** X23. [syncFullPatch] on a reachable, connected bridge whose socket is
    open drops what was queued and sends the sixteen fields of the patch,
    in the order of the interface, on that socket; it leaves the queue
    empty and no timeout tracked.  The timeout that the first of its
    updates armed is still pending, and the one tracked before is not. *)
Theorem sync_sends_whole_patch (patch : SynthPatch.t)
    (b : HardwareBridge.t) (i : nat) :
  HardwareBridge.reachable b -> isConnected b = true ->
  open_socket b = Some i ->
  let b' := syncFullPatch patch b in
  sent_on i b'
  = sent_on i b ++ List.map param_message (Object_entries patch)
  /\ paramQueue b' = [] /\ flushTimer b' = None
  /\ In (nextTimerId b) (pendingTimers b')
  /\ (forall id, flushTimer b = Some id -> ~ In id (pendingTimers b')).
Proof.
  intros Hr Hc Ho b'. unfold b'. rewrite syncFullPatch_unfold, Hc.
  cbn [negb].
  destruct (reachable_shape b Hr) as [HT _].
  destruct (cleared_frame b) as (Hcw & Hcc & Hcs & Hcn & _ & _ & Hcq).
  destruct (cleared_timer b HT) as [Hcf Hcp].
  set (b1 := sendParams (Object_entries patch) (cleared b)).
  destruct (sendParams_connected (Object_entries patch) (cleared b))
    as (Hw & _ & Hs & Hq); [congruence|]. fold b1 in Hw, Hs, Hq.
  destruct (sendParams_timers (Object_entries patch) (cleared b))
    as [Hp Hn]; [congruence | assumption | discriminate |].
  fold b1 in Hp, Hn.
  assert (Ho1 : open_socket b1 = Some i).
  { rewrite <- Ho. apply open_socket_ext; [congruence|].
    intros j. rewrite Hs, Hcs. reflexivity. }
  destruct (flushParams_open b1 i Ho1) as (Hq' & Hsent & _).
  destruct (flushParams_frame b1) as (_ & _ & Hfp & _ & Hff & _).
  split.
  { rewrite Hsent, Hq, Hcq.
    rewrite (Map_sets_fresh (Object_entries patch) [])
      by apply Object_entries_keys.
    f_equal. unfold sent_on. rewrite Hs, Hcs. reflexivity. }
  split; [assumption|]. split; [assumption|].
  rewrite Hfp, Hp, Hcn. split.
  - apply in_or_app. right. left. reflexivity.
  - intros id Hid Hin. apply in_app_or in Hin.
    destruct Hin as [Hin | [Heq | []]].
    + apply Hcp in Hin. tauto.
    + destruct HT as (_ & T2 & T3 & _).
      destruct (T2 id Hid) as (Hpend & _). specialize (T3 id Hpend). lia.
Qed.

Lemma sync_sends_whole_patch_witness :
  HardwareBridge.reachable tweaked /\ isConnected tweaked = true
  /\ open_socket tweaked = Some 0%nat
  /\ let b' := syncFullPatch DEFAULT_PATCH tweaked in
     sent_on 0 b'
     = sent_on 0 tweaked
       ++ List.map param_message (Object_entries DEFAULT_PATCH)
     /\ paramQueue b' = [] /\ flushTimer b' = None
     /\ In (nextTimerId tweaked) (pendingTimers b')
     /\ (forall id, flushTimer tweaked = Some id ->
           ~ In id (pendingTimers b')).
Proof.
  split; [exact reachable_tweaked|]. split; [reflexivity|].
  split; [reflexivity|].
  apply (sync_sends_whole_patch DEFAULT_PATCH tweaked 0 reachable_tweaked
           eq_refl eq_refl).
Defined.

(** X24. [connect] on a reachable bridge starts clean, whether the socket
    can be made or not: nothing is queued, no timeout is tracked, the
    bridge is not connected, and nothing has been sent by the call.  Until
    the socket opens, notes, parameters and whole patches given to the
    bridge are dropped. *)
Theorem connect_starts_clean (accepts : string -> bool) (ip : string)
    (c d e : Callback) (b : HardwareBridge.t) :
  HardwareBridge.reachable b ->
  let b' := connect accepts ip c d e b in
  paramQueue b' = [] /\ flushTimer b' = None /\ isConnected b' = false
  /\ (forall j, sent_on j b' = sent_on j b)
  /\ (forall type note velocity, sendNote type note velocity b' = b')
  /\ (forall k v, sendParam k v b' = b')
  /\ (forall patch, syncFullPatch patch b' = b').
Proof.
  intros Hr b'. destruct (reachable_shape b Hr) as [HT HL].
  destruct (connect_fields accepts ip c d e b HT HL) as (Hq & Hf & Hc).
  fold b' in Hq, Hf, Hc.
  split; [assumption|]. split; [assumption|]. split; [assumption|].
  split; [intros j; apply connect_sent|].
  split; [intros; unfold sendNote; rewrite Hc; reflexivity|].
  split; [intros; unfold sendParam; rewrite Hc; reflexivity|].
  intros. unfold syncFullPatch. rewrite Hc. reflexivity.
Qed.

Lemma connect_starts_clean_witness :
  HardwareBridge.reachable tweaked
  /\ let b' :=
       connect (fun _ => false) "192.168.4.2" "onConnect" "onDisconnect"
         "onError" tweaked in
     paramQueue b' = [] /\ flushTimer b' = None /\ isConnected b' = false
     /\ (forall j, sent_on j b' = sent_on j tweaked)
     /\ (forall type note velocity, sendNote type note velocity b' = b')
     /\ (forall k v, sendParam k v b' = b')
     /\ (forall patch, syncFullPatch patch b' = b').
Proof.
  split; [exact reachable_tweaked|].
  apply (connect_starts_clean (fun _ => false) "192.168.4.2" "onConnect"
           "onDisconnect" "onError" tweaked reachable_tweaked).
Defined.

(** X25. [disconnect] silences the bridge from any state: it holds no
    socket and no queue afterwards, a second [disconnect] changes nothing,
    notes, parameters and whole patches are dropped, and a timeout that
    fires later sends nothing. *)
Theorem disconnect_silences_bridge (b : HardwareBridge.t) :
  let b' := disconnect b in
  ws b' = None /\ isConnected b' = false /\ paramQueue b' = []
  /\ disconnect b' = b'
  /\ (forall type note velocity, sendNote type note velocity b' = b')
  /\ (forall k v, sendParam k v b' = b')
  /\ (forall patch, syncFullPatch patch b' = b')
  /\ (forall id, sockets (timer_fires id b') = sockets b').
Proof.
  intros b'.
  assert (Hw : ws b' = None).
  { unfold b', disconnect. destruct (flushTimer b) as [[|n]|]; reflexivity. }
  assert (Hc : isConnected b' = false).
  { unfold b', disconnect. destruct (flushTimer b) as [[|n]|]; reflexivity. }
  assert (Hq : paramQueue b' = []).
  { unfold b', disconnect. destruct (flushTimer b) as [[|n]|]; reflexivity. }
  split; [assumption|]. split; [assumption|]. split; [assumption|].
  split.
  { unfold b', disconnect.
    destruct (flushTimer b) as [[|n]|]; cbn; reflexivity. }
  split; [intros; unfold sendNote; rewrite Hc; reflexivity|].
  split; [intros; unfold sendParam; rewrite Hc; reflexivity|].
  split; [intros; unfold syncFullPatch; rewrite Hc; reflexivity|].
  intros id. unfold timer_fires. destruct (existsb _ _); [|reflexivity].
  unfold flushParams, open_socket. cbn [ws]. rewrite Hw. reflexivity.
Qed.

(** X26. The close of a socket that the bridge no longer holds cuts the
    connection made since.  When a socket other than the open one the
    bridge holds closes, the bridge counts as disconnected though its
    socket stays open, the callback of the present connection is called,
    and notes and parameters are dropped from then on. *)
Theorem stale_close_cuts_connection (i j : nat) (s : WebSocket)
    (cb : Callback) (b : HardwareBridge.t) :
  open_socket b = Some i -> j <> i ->
  sockets b !! j = Some s -> readyState s <> CLOSED ->
  onDisconnectCallback b = Some cb ->
  let b' := socket_closes j b in
  open_socket b' = Some i /\ isConnected b' = false
  /\ invoked b' = invoked b ++ [cb]
  /\ (forall type note velocity, sendNote type note velocity b' = b')
  /\ (forall k v, sendParam k v b' = b').
Proof.
  intros Ho Hne Hs Hr Hcb b'.
  set (s' := mkWebSocket (url s) CLOSED (sent s) (onConnect s) (onError s)).
  assert (Hb : b' = set_socket j s' b false [cb]).
  { unfold b', socket_closes. rewrite Hs, Hcb.
    destruct (readyState s); try reflexivity. congruence. }
  assert (Hc : isConnected b' = false) by (rewrite Hb; reflexivity).
  split.
  { rewrite Hb. apply open_socket_Some in Ho.
    destruct Ho as (Hw & si & Hsi & Hri). apply open_socket_Some.
    unfold set_socket. cbn [ws sockets]. split; [assumption|].
    exists si. rewrite list_lookup_insert_ne by assumption. tauto. }
  split; [assumption|]. split; [rewrite Hb; reflexivity|].
  split; [intros; unfold sendNote; rewrite Hc; reflexivity|].
  intros. unfold sendParam. rewrite Hc. reflexivity.
Qed.

Lemma stale_close_cuts_connection_witness :
  HardwareBridge.reachable replugged
  /\ open_socket replugged = Some 1%nat /\ 0%nat <> 1%nat
  /\ sockets replugged !! 0%nat
     = Some (mkWebSocket "ws://192.168.4.1" CLOSING [] "onConnect" "onError")
  /\ CLOSING <> CLOSED
  /\ onDisconnectCallback replugged = Some "onDisconnect"%string
  /\ let b' := socket_closes 0 replugged in
     open_socket b' = Some 1%nat /\ isConnected b' = false
     /\ invoked b' = invoked replugged ++ ["onDisconnect"%string]
     /\ (forall type note velocity, sendNote type note velocity b' = b')
     /\ (forall k v, sendParam k v b' = b').
Proof.
  assert (H1 : 0%nat <> 1%nat) by discriminate.
  assert (H2 : CLOSING <> CLOSED) by discriminate.
  split; [exact reachable_replugged|]. split; [reflexivity|].
  split; [exact H1|]. split; [reflexivity|]. split; [exact H2|].
  split; [reflexivity|].
  apply (stale_close_cuts_connection 1 0
           (mkWebSocket "ws://192.168.4.1" CLOSING [] "onConnect" "onError")
           "onDisconnect" replugged eq_refl H1 eq_refl H2 eq_refl).
Defined.

(** X27. Whatever happens, what was sent on a socket stays sent, in its
    order, and a step adds messages only to the socket the bridge holds,
    and only when that socket is open. *)
Theorem only_open_sockets_send (ev : HardwareBridge.Event)
    (b : HardwareBridge.t) (j : nat) :
  exists new,
    sent_on j (HardwareBridge.perform ev b) = sent_on j b ++ new
    /\ (new <> [] -> open_socket b = Some j).
Proof.
  assert (Same : forall b',
            sent_on j b' = sent_on j b ->
            exists new, sent_on j b' = sent_on j b ++ new
                        /\ (new <> [] -> open_socket b = Some j)).
  { intros b' H. exists []. rewrite app_nil_r. split; [assumption|congruence]. }
  destruct ev; cbn [HardwareBridge.perform].
  - apply Same, connect_sent.
  - apply Same, disconnect_sent.
  - unfold sendNote. destruct (isConnected b); [|apply Same; reflexivity].
    destruct (open_socket b) as [i|] eqn:Ho; [|apply Same; reflexivity].
    destruct (Nat.eq_dec j i) as [->|Hne].
    + pose proof Ho as Ho'. apply open_socket_Some in Ho'.
      destruct Ho' as (_ & s & Hs & _).
      eexists. split; [|reflexivity]. unfold sent_on, send_on.
      cbn [sockets]. rewrite list_lookup_alter_eq, Hs. reflexivity.
    + apply Same. unfold sent_on, send_on. cbn [sockets].
      rewrite list_lookup_alter_ne by congruence. reflexivity.
  - apply Same, sent_on_ext, sendParam_frame.
  - rewrite syncFullPatch_unfold.
    destruct (isConnected b) eqn:Hc; cbn [negb]; [|apply Same; reflexivity].
    set (b1 := sendParams (Object_entries patch) (cleared b)).
    destruct (cleared_frame b) as (Hcw & Hcc & Hcs & _).
    destruct (sendParams_connected (Object_entries patch) (cleared b))
      as (Hw & _ & Hs & _); [congruence|]. fold b1 in Hw, Hs.
    destruct (flushParams_sent b1 j) as (new & Hn & Hopen).
    exists new. split.
    + rewrite Hn. f_equal. apply sent_on_ext. congruence.
    + intros Hne. rewrite <- (Hopen Hne). symmetry.
      apply open_socket_ext; [congruence|].
      intros k. rewrite Hs, Hcs. reflexivity.
  - apply Same. unfold socket_opens.
    destruct (sockets b !! i) as [s|] eqn:Hs; [|reflexivity].
    destruct (readyState s); try reflexivity.
    apply (set_socket_sent i j s); [assumption | reflexivity].
  - apply Same. unfold socket_closing.
    destruct (sockets b !! i) as [s|] eqn:Hs; [|reflexivity].
    destruct (readyState s); try reflexivity.
    unfold sent_on. cbn [sockets].
    destruct (Nat.eq_dec i j) as [->|Hne].
    + rewrite list_lookup_insert_eq by (eapply lookup_lt_Some; eauto).
      rewrite Hs. reflexivity.
    + rewrite list_lookup_insert_ne by assumption. reflexivity.
  - apply Same. unfold socket_closes.
    destruct (sockets b !! i) as [s|] eqn:Hs; [|reflexivity].
    destruct (readyState s); try reflexivity;
      apply (set_socket_sent i j s); solve [assumption | reflexivity].
  - apply Same. unfold socket_fails.
    destruct (sockets b !! i); reflexivity.
  - unfold timer_fires. destruct (existsb _ _); [|apply Same; reflexivity].
    match goal with |- context [flushParams ?x] =>
      destruct (flushParams_sent x j) as (new & Hn & Hopen) end.
    exists new. split; [exact Hn | exact Hopen].
Qed.

